(** * RedisDrizzleCache: the table-aware query cache of packages/db

    The class is the module that packages/db/src/index.ts and client.ts
    import as [./cache].

    A shallow embedding of the class [RedisDrizzleCache] (constructor,
    [strategy], [get], [put], [onMutate], [formatKey], [calculateTtl]) together
    with the parts of its environment the methods touch: the Redis keyspace
    behind the client handle, the wall clock read by [Date.now()], the
    console, and the runtime's [JSON.stringify] / [JSON.parse].

    Modelling conventions.
    - JavaScript numbers are modelled by [Z]: the TTL arithmetic of the class
      only floors, subtracts and clamps, and every quantity involved (seconds,
      milliseconds, epoch stamps) is an integer.  Fractions, NaN and the
      infinities are outside the model, and so is the exponent notation the
      runtime prints from 1e21 on: a number is written in plain decimal.
    - JavaScript strings are modelled by [string], one [ascii] per code unit,
      so code units above 255 are outside the model.
    - An [async] method is run to completion: a method is a state transformer
      that ends in a normal completion (the promise resolves) or in an abrupt
      one (the promise rejects).  Interleavings of concurrent calls are not
      modelled.
    - The plain object [usedTablesPerKey] is a finite map of its own
      properties, read through the prototype chain: a name that
      [Object.prototype] defines is found there when the object has no own
      property of that name. *)

From Stdlib Require Import ZArith String Ascii List Lia DecimalString DecimalZ.
From Stdlib Require Decimal DecimalFacts DecimalPos DecimalN.
From stdpp Require Import gmap strings list fin_maps.

Local Set Warnings "-register-all,-clear-no-such-hyp".
Local Open Scope string_scope.
Local Open Scope Z_scope.

(* ===================================================================== *)
(** * Runtime values *)
(* ===================================================================== *)

(** The fragment of [any] that query results are made of: the JSON data
    types and [Date], which node-postgres returns for timestamp columns. *)
Inductive JsValue : Type :=
| JsNull
| JsBool (b : bool)
| JsNumber (n : Z)
| JsString (s : string)
| JsDate (ms : Z)
| JsArray (elems : list JsValue)
| JsObject (props : list (string * JsValue)).

Inductive JsError : Type :=
| TypeError (msg : string)
| SyntaxError (msg : string)
| RedisError (msg : string).

(** A completion record: how the evaluation of a statement, or of an awaited
    promise, ends. *)
Inductive Completion (A : Type) : Type :=
| Normal (a : A)
| Throws (e : JsError).
Arguments Normal {A} a.
Arguments Throws {A} e.

(* ===================================================================== *)
(** * The runtime's JSON object *)
(* ===================================================================== *)

Module JSON.

Definition dquote : ascii := ascii_of_nat 34.
Definition backslash : ascii := ascii_of_nat 92.

(** ** Numbers and dates as text *)

Definition digits (n : Z) : string := NilZero.string_of_int (Z.to_int n).

Fixpoint zeros (n : nat) : string :=
  match n with
  | O => EmptyString
  | S n' => String "0" (zeros n')
  end.

(** [n] in decimal, left-padded with zeros to [width] characters. *)
Definition pad (width : nat) (n : Z) : string :=
  let d := digits n in
  zeros (width - String.length d) ++ d.

(** Days since the epoch to a civil date (proleptic Gregorian). *)
Definition civil_from_days (days : Z) : Z * Z * Z :=
  let z := days + 719468 in
  let era := z / 146097 in
  let doe := z - era * 146097 in
  let yoe := (doe - doe / 1460 + doe / 36524 - doe / 146096) / 365 in
  let doy := doe - (365 * yoe + yoe / 4 - yoe / 100) in
  let mp := (5 * doy + 2) / 153 in
  let d := doy - (153 * mp + 2) / 5 + 1 in
  let m := if mp <? 10 then mp + 3 else mp - 9 in
  let y := yoe + era * 400 + (if m <=? 2 then 1 else 0) in
  (y, m, d).

Definition year_text (y : Z) : string :=
  if (0 <=? y) && (y <=? 9999) then pad 4 y
  else if y <? 0 then "-" ++ pad 6 (- y)
  else "+" ++ pad 6 y.

(** [Date.prototype.toISOString] for a time value of [ms] milliseconds. *)
Definition toISOString (ms : Z) : string :=
  let days := ms / 86400000 in
  let rem := ms mod 86400000 in
  let '(y, m, d) := civil_from_days days in
  year_text y ++ "-" ++ pad 2 m ++ "-" ++ pad 2 d ++ "T"
    ++ pad 2 (rem / 3600000) ++ ":" ++ pad 2 (rem / 60000 mod 60) ++ ":"
    ++ pad 2 (rem / 1000 mod 60) ++ "." ++ pad 3 (rem mod 1000) ++ "Z".

(** The time values a [Date] can hold; outside it the date is invalid and
    its [toJSON] is [null]. *)
Definition valid_time (ms : Z) : bool :=
  (-8640000000000000 <=? ms) && (ms <=? 8640000000000000).

(** ** Quoting strings *)

Definition hex_digit (n : N) : ascii :=
  ascii_of_N (if (n <? 10)%N then 48 + n else 87 + n)%N.

Definition escape (c : ascii) : string :=
  let n := N_of_ascii c in
  if (n =? 34)%N then String backslash (String dquote EmptyString)
  else if (n =? 92)%N then String backslash (String backslash EmptyString)
  else if (n =? 8)%N then String backslash "b"
  else if (n =? 9)%N then String backslash "t"
  else if (n =? 10)%N then String backslash "n"
  else if (n =? 12)%N then String backslash "f"
  else if (n =? 13)%N then String backslash "r"
  else if (n <? 32)%N then
    String backslash
      (String "u" (String "0" (String "0"
        (String (hex_digit (n / 16)) (String (hex_digit (n mod 16)) EmptyString)))))
  else String c EmptyString.

Fixpoint escape_all (s : string) : string :=
  match s with
  | EmptyString => EmptyString
  | String c s' => escape c ++ escape_all s'
  end.

Definition quote (s : string) : string :=
  String dquote (escape_all s ++ String dquote EmptyString).

(** ** JSON.stringify *)

Section Joined.
Context {A : Type} (item : A -> string).
Fixpoint joined (l : list A) : string :=
  match l with
  | [] => EmptyString
  | [x] => item x
  | x :: l' => item x ++ "," ++ joined l'
  end.
End Joined.

Fixpoint stringify (v : JsValue) : string :=
  match v with
  | JsNull => "null"
  | JsBool true => "true"
  | JsBool false => "false"
  | JsNumber n => digits n
  | JsString s => quote s
  | JsDate ms => if valid_time ms then quote (toISOString ms) else "null"
  | JsArray elems => "[" ++ joined stringify elems ++ "]"
  | JsObject props =>
      "{" ++ joined (fun p => quote (fst p) ++ ":" ++ stringify (snd p)) props ++ "}"
  end.

(** ** JSON.parse *)

Definition is_ws (c : ascii) : bool :=
  let n := N_of_ascii c in
  ((n =? 32) || (n =? 9) || (n =? 10) || (n =? 13))%N.

Fixpoint skip_ws (s : string) : string :=
  match s with
  | String c s' => if is_ws c then skip_ws s' else s
  | EmptyString => s
  end.

Definition is_digit (c : ascii) : bool :=
  let n := N_of_ascii c in ((48 <=? n) && (n <=? 57))%N.

(** The longest prefix of decimal digits, and what follows it. *)
Fixpoint span_digits (s : string) : string * string :=
  match s with
  | String c s' =>
      if is_digit c then let '(ds, rest) := span_digits s' in (String c ds, rest)
      else (EmptyString, s)
  | EmptyString => (EmptyString, s)
  end.

Definition hex_value (c : ascii) : option N :=
  let n := N_of_ascii c in
  if ((48 <=? n) && (n <=? 57))%N then Some (n - 48)%N
  else if ((97 <=? n) && (n <=? 102))%N then Some (n - 87)%N
  else if ((65 <=? n) && (n <=? 70))%N then Some (n - 55)%N
  else None.

(** The code unit of a [\uXXXX] escape; one above 255 has no [ascii]. *)
Definition code_unit (a b c d : ascii) : option ascii :=
  match hex_value a, hex_value b, hex_value c, hex_value d with
  | Some x, Some y, Some z, Some w =>
      if ((x =? 0) && (y =? 0))%N then Some (ascii_of_N (16 * z + w)) else None
  | _, _, _, _ => None
  end.

Definition simple_escape (e : ascii) : option ascii :=
  let n := N_of_ascii e in
  if (n =? 34)%N then Some dquote
  else if (n =? 92)%N then Some backslash
  else if (n =? 47)%N then Some "/"%char
  else if (n =? 98)%N then Some (ascii_of_nat 8)
  else if (n =? 116)%N then Some (ascii_of_nat 9)
  else if (n =? 110)%N then Some (ascii_of_nat 10)
  else if (n =? 102)%N then Some (ascii_of_nat 12)
  else if (n =? 114)%N then Some (ascii_of_nat 13)
  else None.

Definition cons_char (c : ascii) (r : option (string * string)) : option (string * string) :=
  match r with
  | Some (body, rest) => Some (String c body, rest)
  | None => None
  end.

(** The characters of a string literal after its opening quote, up to the
    closing one. *)
Fixpoint parse_chars (s : string) : option (string * string) :=
  match s with
  | EmptyString => None
  | String c s' =>
      if Ascii.eqb c dquote then Some (EmptyString, s')
      else if Ascii.eqb c backslash then
        match s' with
        | String e s'' =>
            if Ascii.eqb e "u" then
              match s'' with
              | String h1 (String h2 (String h3 (String h4 s3))) =>
                  match code_unit h1 h2 h3 h4 with
                  | Some u => cons_char u (parse_chars s3)
                  | None => None
                  end
              | _ => None
              end
            else
              match simple_escape e with
              | Some u => cons_char u (parse_chars s'')
              | None => None
              end
        | EmptyString => None
        end
      else if (N_of_ascii c <? 32)%N then None
      else cons_char c (parse_chars s')
  end.

(** An integer literal: an optional minus, then [0] or a digit run without
    a leading zero.  A fraction or an exponent starts a literal that is no
    integer, which the number model does not hold. *)
Definition parse_number (s : string) : option (Z * string) :=
  let '(neg, s1) :=
    match s with
    | String c s' => if Ascii.eqb c "-" then (true, s') else (false, s)
    | EmptyString => (false, s)
    end in
  let '(ds, rest) := span_digits s1 in
  let continued :=
    match rest with
    | String c _ => Ascii.eqb c "." || Ascii.eqb c "e" || Ascii.eqb c "E"
    | EmptyString => false
    end in
  match ds with
  | EmptyString => None
  | String c (String _ _ as more) =>
      if Ascii.eqb c "0" || continued then None
      else match NilZero.uint_of_string ds with
           | Some d => Some (if neg then - Z.of_uint d else Z.of_uint d, rest)
           | None => None
           end
  | _ =>
      if continued then None
      else match NilZero.uint_of_string ds with
           | Some d => Some (if neg then - Z.of_uint d else Z.of_uint d, rest)
           | None => None
           end
  end.

(** [s] minus the prefix [lit], when it starts with it. *)
Fixpoint strip (lit s : string) : option string :=
  match lit, s with
  | EmptyString, _ => Some s
  | String a lit', String b s' => if Ascii.eqb a b then strip lit' s' else None
  | String _ _, EmptyString => None
  end.

(** Defining a property: a repeated name keeps its place and takes the
    later value. *)
Fixpoint define (props : list (string * JsValue)) (k : string) (v : JsValue)
  : list (string * JsValue) :=
  match props with
  | [] => [(k, v)]
  | (k', v') :: props' =>
      if String.eqb k' k then (k', v) :: props' else (k', v') :: define props' k v
  end.

Definition define_all (members : list (string * JsValue)) : list (string * JsValue) :=
  fold_left (fun acc m => define acc (fst m) (snd m)) members [].

Fixpoint parse_value (fuel : nat) (s : string) : option (JsValue * string) :=
  match fuel with
  | O => None
  | S fuel' =>
      match skip_ws s with
      | EmptyString => None
      | String c s' as s0 =>
          if Ascii.eqb c "n" then option_map (pair JsNull) (strip "null" s0)
          else if Ascii.eqb c "t" then option_map (pair (JsBool true)) (strip "true" s0)
          else if Ascii.eqb c "f" then option_map (pair (JsBool false)) (strip "false" s0)
          else if Ascii.eqb c dquote then
            match parse_chars s' with
            | Some (body, rest) => Some (JsString body, rest)
            | None => None
            end
          else if Ascii.eqb c "[" then
            match skip_ws s' with
            | String c1 rest as s1 =>
                if Ascii.eqb c1 "]" then Some (JsArray [], rest)
                else match parse_elements fuel' s1 with
                     | Some (elems, rest') => Some (JsArray elems, rest')
                     | None => None
                     end
            | EmptyString => None
            end
          else if Ascii.eqb c "{" then
            match skip_ws s' with
            | String c1 rest as s1 =>
                if Ascii.eqb c1 "}" then Some (JsObject [], rest)
                else match parse_members fuel' s1 with
                     | Some (members, rest') => Some (JsObject (define_all members), rest')
                     | None => None
                     end
            | EmptyString => None
            end
          else match parse_number s0 with
               | Some (n, rest) => Some (JsNumber n, rest)
               | None => None
               end
      end
  end
with parse_elements (fuel : nat) (s : string) : option (list JsValue * string) :=
  match fuel with
  | O => None
  | S fuel' =>
      match parse_value fuel' s with
      | Some (v, s1) =>
          match skip_ws s1 with
          | String c s2 =>
              if Ascii.eqb c "," then
                match parse_elements fuel' s2 with
                | Some (vs, rest) => Some (v :: vs, rest)
                | None => None
                end
              else if Ascii.eqb c "]" then Some ([v], s2)
              else None
          | EmptyString => None
          end
      | None => None
      end
  end
with parse_members (fuel : nat) (s : string)
  : option (list (string * JsValue) * string) :=
  match fuel with
  | O => None
  | S fuel' =>
      match skip_ws s with
      | String q s1 =>
          if Ascii.eqb q dquote then
            match parse_chars s1 with
            | Some (k, s2) =>
                match skip_ws s2 with
                | String colon s3 =>
                    if Ascii.eqb colon ":" then
                      match parse_value fuel' s3 with
                      | Some (v, s4) =>
                          match skip_ws s4 with
                          | String c s5 =>
                              if Ascii.eqb c "," then
                                match parse_members fuel' s5 with
                                | Some (ms, rest) => Some ((k, v) :: ms, rest)
                                | None => None
                                end
                              else if Ascii.eqb c "}" then Some ([(k, v)], s5)
                              else None
                          | EmptyString => None
                          end
                      | None => None
                      end
                    else None
                | EmptyString => None
                end
            | None => None
            end
          else None
      | EmptyString => None
      end
  end.

(** [JSON.parse]: one value, then only white space.  Every call of the
    three parsers above reads a character of its own, so the fuel below is
    never the reason for a failure. *)
Definition parse (text : string) : Completion JsValue :=
  match parse_value (2 * String.length text + 2) text with
  | Some (v, rest) =>
      match skip_ws rest with
      | EmptyString => Normal v
      | String _ _ => Throws (SyntaxError "Unexpected non-whitespace character after JSON")
      end
  | None => Throws (SyntaxError "Unexpected token in JSON")
  end.

(** ** The values JSON carries as they are *)

(** What may follow a number literal: nothing, or a character that
    neither continues the digits nor starts a fraction or an exponent. *)
Definition stops_number (rest : string) : bool :=
  match rest with
  | EmptyString => true
  | String c _ =>
      negb (is_digit c) && negb (Ascii.eqb c ".") && negb (Ascii.eqb c "e")
        && negb (Ascii.eqb c "E")
  end.

(** A value made of JSON's own data types: no [Date] anywhere in it.  The
    property list of an object names each property once, as every object
    does. *)
Fixpoint plain (v : JsValue) : bool :=
  match v with
  | JsDate _ => false
  | JsArray elems => forallb plain elems
  | JsObject props =>
      forallb (fun p => plain (snd p)) props && bool_decide (NoDup (map fst props))
  | _ => true
  end.

(** The fuel the parsers need for the text of [v]. *)
Fixpoint weight (v : JsValue) : nat :=
  match v with
  | JsArray elems => S (fold_right (fun e acc => S (weight e + acc)) O elems)
  | JsObject props => S (fold_right (fun p acc => S (weight (snd p) + acc)) O props)
  | _ => 1
  end.

(** What a value's text starts with: a character that is no white space
    and closes nothing. *)
Definition opens (c : ascii) : bool :=
  negb (is_ws c) && negb (Ascii.eqb c "]") && negb (Ascii.eqb c "}")
    && negb (Ascii.eqb c ",") && negb (Ascii.eqb c ":").

(** The property proved of each value: its text, followed by anything that
    ends a number, parses back to it with enough fuel. *)
Definition reads_back (v : JsValue) : Prop :=
  forall fuel rest,
    (weight v <= fuel)%nat -> stops_number rest = true ->
    parse_value fuel (stringify v ++ rest) = Some (v, rest).

(** The fuel for the elements of an array, and for the members of an
    object. *)
Definition weights (elems : list JsValue) : nat :=
  fold_right (fun e acc => S (weight e + acc)) O elems.

(** The text of one member of an object. *)
Definition member_text (p : string * JsValue) : string :=
  (quote (fst p) ++ ":" ++ stringify (snd p))%string.

Definition member_weights (props : list (string * JsValue)) : nat :=
  fold_right (fun p acc => S (weight (snd p) + acc)) O props.

End JSON.
(* ===================================================================== *)
(** * The environment of an instance *)
(* ===================================================================== *)

(** The commands the class sends through its client handle. *)
Inductive Command : Type :=
| GET (key : string)
| SETEX (key : string) (seconds : Z) (value : string)
| UNLINK (key : string).

(** One record for everything a method can read or change: the instance's
    own mutable field, the Redis keyspace, the clock and the console. *)
Record State : Type := mkState {
  (** own properties of [this.usedTablesPerKey] *)
  usedTablesPerKey : gmap string (list string);
  (** the keyspace: value and expiry instant (epoch milliseconds) per key *)
  keyspace : gmap string (string * Z);
  (** [Date.now()] *)
  clock : Z;
  (** whether each coming command is lost on the way ([true]: the command
      fails with a connection error); none listed means none is lost *)
  faults : list bool;
  (** the commands sent so far, oldest first *)
  wire : list Command;
  (** the calls of [console.error] so far, oldest first *)
  console : list (string * JsError)
}.

Definition set_usedTablesPerKey (f : gmap string (list string) -> gmap string (list string))
  (s : State) : State :=
  mkState (f (usedTablesPerKey s)) (keyspace s) (clock s) (faults s) (wire s) (console s).

Definition set_keyspace (f : gmap string (string * Z) -> gmap string (string * Z))
  (s : State) : State :=
  mkState (usedTablesPerKey s) (f (keyspace s)) (clock s) (faults s) (wire s) (console s).

(** Time passing between two calls. *)
Definition elapse (d : Z) (s : State) : State :=
  mkState (usedTablesPerKey s) (keyspace s) (clock s + d) (faults s) (wire s) (console s).

(** ** Computations *)

Definition M (A : Type) : Type := State -> Completion A * State.

Definition ret {A} (a : A) : M A := fun s => (Normal a, s).
Definition throw {A} (e : JsError) : M A := fun s => (Throws e, s).
Definition bind {A B} (m : M A) (k : A -> M B) : M B :=
  fun s => match m s with
           | (Normal a, s') => k a s'
           | (Throws e, s') => (Throws e, s')
           end.
(** [try { body } catch (error) { handler }] *)
Definition try_catch {A} (body : M A) (handler : JsError -> M A) : M A :=
  fun s => match body s with
           | (Normal a, s') => (Normal a, s')
           | (Throws e, s') => handler e s'
           end.
(** A call that returns a promise: the promise, settled, is the value. *)
Definition promise {A} (m : M A) : M (Completion A) :=
  fun s => let '(r, s') := m s in (Normal r, s').

#[global] Instance M_ret : MRet M := @ret.
#[global] Instance M_bind : MBind M := fun A B k m => bind m k.

(** [for (const x of l) body] *)
Fixpoint for_of {A} (l : list A) (body : A -> M unit) : M unit :=
  match l with
  | [] => ret tt
  | x :: l' => body x ;; for_of l' body
  end.

Definition result {A} (m : M A) (s : State) : Completion A := fst (m s).
Definition after {A} (m : M A) (s : State) : State := snd (m s).

Definition Date_now : M Z := fun s => (Normal (clock s), s).

(** The state once a line is on the console. *)
Definition logged (msg : string) (error : JsError) (s : State) : State :=
  mkState (usedTablesPerKey s) (keyspace s) (clock s) (faults s) (wire s)
    (console s ++ [(msg, error)]).

Definition console_error (msg : string) (error : JsError) : M unit :=
  fun s => (Normal tt, logged msg error s).

(** ** The Redis server behind the handle *)

Inductive Reply : Type :=
| Bulk (value : option string)
| Ok
| Count (n : Z).

(** What the server does with a command that reaches it.  A key is gone
    from its expiry instant on; [SETEX] takes a positive number of seconds
    only. *)
Definition serve (cmd : Command) : M Reply :=
  match cmd with
  | GET key => fun s =>
      match keyspace s !! key with
      | Some (value, expiry) =>
          (Normal (Bulk (if clock s <? expiry then Some value else None)), s)
      | None => (Normal (Bulk None), s)
      end
  | SETEX key seconds value => fun s =>
      if 0 <? seconds
      then (Normal Ok, set_keyspace (insert key (value, clock s + 1000 * seconds)) s)
      else (Throws (RedisError "ERR invalid expire time in 'setex' command"), s)
  | UNLINK key => fun s =>
      match keyspace s !! key with
      | Some _ => (Normal (Count 1), set_keyspace (delete key) s)
      | None => (Normal (Count 0), s)
      end
  end.

(** Whether the coming command is lost on the way. *)
Definition lost (s : State) : bool :=
  match faults s with
  | b :: _ => b
  | [] => false
  end.

(** The state once [cmd] is on the wire. *)
Definition sent (cmd : Command) (s : State) : State :=
  mkState (usedTablesPerKey s) (keyspace s) (clock s)
    (tail (faults s)) (wire s ++ [cmd]) (console s).

(** Sending a command: it is put on the wire, and is served unless the
    connection fails for it. *)
Definition send (cmd : Command) : M Reply :=
  fun s =>
    if lost s then (Throws (RedisError "Connection closed"), sent cmd s)
    else serve cmd (sent cmd s).

(* ===================================================================== *)
(** * drizzle-orm: tables and cache configuration *)
(* ===================================================================== *)

(** A [Table] object, reduced to the name behind [Table.Symbol.Name]. *)
Record Table : Type := { table_name : string }.

Definition getTableName (table : Table) : string := table_name table.

(** An element of [params.tables]: a name, or a [Table]. *)
Inductive TableRef : Type :=
| ByName (name : string)
| ByTable (table : Table).

(** [is(table, Table) ? getTableName(table) : (table as string)] *)
Definition tableName (table : TableRef) : string :=
  match table with
  | ByTable t => getTableName t
  | ByName name => name
  end.

(** [CacheConfig]: the expiry hints of a single [put]. *)
Record CacheConfig : Type := {
  ex : option Z;     (** relative seconds *)
  px : option Z;     (** relative milliseconds *)
  exat : option Z;   (** absolute epoch seconds *)
  pxat : option Z    (** absolute epoch milliseconds *)
}.

(** A parameter that takes one value or an array of them. *)
Inductive OneOrMany (A : Type) : Type :=
| One (x : A)
| Many (xs : list A).
Arguments One {A} x.
Arguments Many {A} xs.

Record MutateParams : Type := {
  tags : OneOrMany string;
  tables : OneOrMany TableRef
}.

(* ===================================================================== *)
(** * The class *)
(* ===================================================================== *)

Inductive Strategy : Type := strategy_explicit | strategy_all.

(** The handle of a [RedisClient]; the server it talks to is in [State]. *)
Record RedisClient : Type := { url : string }.

(** The constructor's argument.  The type asks for [redis]; at run time
    the property can still be missing, which is [None] here, and so can the
    whole argument. *)
Module Options.
Record RedisCacheConfig : Type := {
  redis : option RedisClient;
  defaultTtl : option Z;
  strategy : option Strategy;
  namespace : option string
}.
End Options.

(** The read-only fields of an instance.  The mutable one,
    [usedTablesPerKey], lives in [State]. *)
Record RedisDrizzleCache : Type := {
  redis : option RedisClient;
  defaultTtl : Z;
  namespace : string;
  _strategy : Strategy
}.

(** The parameter is destructured on entry, which throws when there is
    nothing to destructure; the field initialiser of [usedTablesPerKey] runs
    after that. *)
Definition constructor (config : option Options.RedisCacheConfig) : M RedisDrizzleCache :=
  fun s =>
    match config with
    | None => (Throws (TypeError "Cannot destructure property 'redis' of 'undefined'"), s)
    | Some config =>
        (Normal {| redis := Options.redis config;
                   defaultTtl := default 300 (Options.defaultTtl config);
                   namespace := default "drizzle" (Options.namespace config);
                   _strategy := default strategy_all (Options.strategy config) |},
         set_usedTablesPerKey (fun _ => ∅) s)
    end.

Definition strategy (this : RedisDrizzleCache) : Strategy := _strategy this.

(** ** Private helpers *)

Definition formatKey (this : RedisDrizzleCache) (key : string) : string :=
  namespace this ++ ":" ++ key.

Definition calculateTtl (this : RedisDrizzleCache) (config : option CacheConfig) : M Z :=
  match config ≫= ex with
  | Some ex => mret ex
  | None =>
  match config ≫= px with
  | Some px => mret (px / 1000)
  | None =>
  match config ≫= exat with
  | Some exat =>
      ms ← Date_now;
      let now := ms / 1000 in
      mret (Z.max 0 (exat - now))
  | None =>
  match config ≫= pxat with
  | Some pxat =>
      ms ← Date_now;
      let now := ms / 1000 in
      mret (Z.max 0 (pxat / 1000 - now))
  | None => mret (defaultTtl this)
  end end end end.

(** ** Property access on [usedTablesPerKey] *)

(** The names [Object.prototype] defines. *)
Definition Object_prototype : list string :=
  [ "constructor"; "__defineGetter__"; "__defineSetter__"; "hasOwnProperty";
    "__lookupGetter__"; "__lookupSetter__"; "isPrototypeOf";
    "propertyIsEnumerable"; "toString"; "valueOf"; "__proto__"; "toLocaleString" ].

Definition inherited (name : string) : bool := bool_decide (name ∈ Object_prototype).

(** What [this.usedTablesPerKey[name]] evaluates to. *)
Inductive Property : Type :=
| Undefined
| OwnArray (keys : list string)
| Inherited.

Definition get_property (name : string) : M Property :=
  fun s =>
    (Normal match usedTablesPerKey s !! name with
            | Some keys => OwnArray keys
            | None => if inherited name then Inherited else Undefined
            end, s).

Definition set_property (name : string) (keys : list string) : M unit :=
  fun s => (Normal tt, set_usedTablesPerKey (insert name keys) s).

(** [keys.includes(key)] *)
Definition includes (keys : list string) (key : string) : bool := bool_decide (key ∈ keys).

(** [set.add(key)] on a [Set], kept in insertion order. *)
Definition Set_add (set : list string) (key : string) : list string :=
  if includes set key then set else (set ++ [key])%list.

(** [this.redis]: reading a method off a missing handle throws before
    anything is sent. *)
Definition no_client : JsError :=
  TypeError "undefined is not an object (evaluating 'this.redis')".

Definition client (this : RedisDrizzleCache) : M RedisClient :=
  match redis this with
  | Some handle => mret handle
  | None => throw no_client
  end.

(** [await this.redis.<command>(...)] *)
Definition call (this : RedisDrizzleCache) (cmd : Command) : M Reply :=
  client this;; send cmd.

(** [await Promise.all(promises)] *)
Fixpoint Promise_all {A} (promises : list (Completion A)) : M (list A) :=
  match promises with
  | [] => mret []
  | Normal a :: rest => others ← Promise_all rest; mret (a :: others)
  | Throws e :: _ => throw e
  end.

(** [for (const x of l) body], with the locals the body updates. *)
Fixpoint for_of_acc {A L} (l : list A) (locals : L) (body : L -> A -> M L) : M L :=
  match l with
  | [] => mret locals
  | x :: l' => locals' ← body locals x; for_of_acc l' locals' body
  end.

(** ** get *)

Definition get (this : RedisDrizzleCache) (key : string) : M (option JsValue) :=
  let cacheKey := formatKey this key in
  try_catch
    (cached ← call this (GET cacheKey);
     match cached with
     | Bulk (Some text) =>
         if String.eqb text EmptyString then mret None
         else match JSON.parse text with
              | Normal rows => mret (Some rows)
              | Throws e => throw e
              end
     | _ => mret None
     end)
    (fun error =>
       console_error ("[RedisDrizzleCache] GET failed for key " ++ cacheKey ++ ":") error;;
       mret None).

(** ** put *)

Definition put (this : RedisDrizzleCache) (key : string) (response : JsValue)
    (tables : list string) (_isTag : bool) (config : option CacheConfig) : M unit :=
  let cacheKey := formatKey this key in
  ttl ← calculateTtl this config;
  try_catch
    (call this (SETEX cacheKey ttl (JSON.stringify response));;
     for_of tables (fun table =>
       keys ← get_property table;
       match keys with
       | Undefined => set_property table [key]
       | OwnArray keys =>
           if negb (includes keys key) then set_property table (keys ++ [key])%list
           else mret tt
       | Inherited => throw (TypeError "keys.includes is not a function")
       end))
    (fun error =>
       console_error ("[RedisDrizzleCache] PUT failed for key " ++ cacheKey ++ ":") error).

(** ** onMutate *)

Definition tagsArray (params : MutateParams) : list string :=
  match tags params with
  | Many xs => xs
  | One tag => if String.eqb tag EmptyString then [] else [tag]
  end.

Definition tablesArray (params : MutateParams) : list TableRef :=
  match tables params with
  | Many xs => xs
  | One (ByName name) => if String.eqb name EmptyString then [] else [ByName name]
  | One table => [table]
  end.

(** The first loop: the keys tracked under the affected tables. *)
Definition collect (tablesArray : list TableRef) : M (list string) :=
  for_of_acc tablesArray [] (fun keysToDelete table =>
    keys ← get_property (tableName table);
    match keys with
    | Undefined => mret keysToDelete
    | OwnArray keys => mret (fold_left Set_add keys keysToDelete)
    | Inherited => throw (TypeError "keys is not iterable")
    end).

Definition onMutate (this : RedisDrizzleCache) (params : MutateParams) : M unit :=
  let tagsArray := tagsArray params in
  let tablesArray := tablesArray params in
  keysToDelete ← collect tablesArray;
  if (0 <? Z.of_nat (length keysToDelete)) || (0 <? Z.of_nat (length tagsArray)) then
    deletePromises ← for_of_acc tagsArray [] (fun deletePromises tag =>
      let tagKey := formatKey this ("tag:" ++ tag) in
      client this;;
      p ← promise (send (UNLINK tagKey));
      mret (deletePromises ++ [p])%list);
    deletePromises ← for_of_acc keysToDelete deletePromises (fun deletePromises key =>
      let cacheKey := formatKey this key in
      client this;;
      p ← promise (send (UNLINK cacheKey));
      mret (deletePromises ++ [p])%list);
    for_of tablesArray (fun table => set_property (tableName table) []);;
    Promise_all deletePromises;;
    mret tt
  else mret tt.


(* ===================================================================== *)
(** * Vocabulary for the closed forms of the methods *)
(* ===================================================================== *)

Ltac run :=
  repeat (unfold mbind, M_bind, mret, M_ret, bind, ret, throw, try_catch, promise,
            result, after; simpl).

(** The tracked key set of a table: [usedTablesPerKey[t] ?? []]. *)
Definition tracked (s : State) (t : string) : list string :=
  default [] (usedTablesPerKey s !! t).

(** The connection is up for every coming command. *)
Definition healthy (s : State) : Prop := faults s = [].

(** The body shared by the two loops that send [UNLINK]s. *)
Definition unlink_body (this : RedisDrizzleCache) (physical : string -> string)
    (deletePromises : list (Completion Reply)) (x : string) : M (list (Completion Reply)) :=
  client this;;
  p ← promise (send (UNLINK (physical x)));
  mret (deletePromises ++ [p])%list.

(** The state after the [UNLINK]s of [keys] have been sent in turn. *)
Definition sweep (keys : list string) (s : State) : State :=
  fold_left (fun s k => after (send (UNLINK k)) s) keys s.

(** The index after the clean-up loop over [names]. *)
Definition cleared (names : list string) (m : gmap string (list string))
  : gmap string (list string) :=
  fold_left (fun m t => <[t := []]> m) names m.

(** The deletion set after the first loop over [names], started from [acc]. *)
Definition gathered (s : State) (names : list string) (acc : list string) : list string :=
  fold_left (fun acc t => fold_left Set_add (tracked s t) acc) names acc.

(** Reading [usedTablesPerKey[t]] does not land on [Object.prototype]. *)
Definition trackable (s : State) (t : string) : Prop :=
  usedTablesPerKey s !! t = None -> inherited t = false.

#[global] Instance trackable_dec (s : State) (t : string) : Decision (trackable s t).
Proof. unfold trackable. apply _. Defined.

Definition settled_ok {A} (p : Completion A) : Prop := exists a, p = Normal a.

(** The physical keys [onMutate] unlinks: the tag keys, then the tracked ones. *)
Definition physical_keys (this : RedisDrizzleCache) (tags keys : list string) : list string :=
  (map (fun tag => formatKey this ("tag:" ++ tag)) tags ++ map (formatKey this) keys)%list.

Definition tableNames (params : MutateParams) : list string :=
  map tableName (tablesArray params).

(** What a [GET] that reaches the server answers. *)
Definition readable (s : State) (physical : string) : option string :=
  match keyspace s !! physical with
  | Some (value, expiry) => if clock s <? expiry then Some value else None
  | None => None
  end.

Definition get_failed (this : RedisDrizzleCache) (key : string) : string :=
  "[RedisDrizzleCache] GET failed for key " ++ formatKey this key ++ ":".

Definition put_failed (this : RedisDrizzleCache) (key : string) : string :=
  "[RedisDrizzleCache] PUT failed for key " ++ formatKey this key ++ ":".

(** [calculateTtl] as a function of the clock. *)
Definition seconds (this : RedisDrizzleCache) (config : option CacheConfig) (now_ms : Z) : Z :=
  match config with
  | None => defaultTtl this
  | Some c =>
      match ex c, px c, exat c, pxat c with
      | Some v, _, _, _ => v
      | None, Some v, _, _ => v / 1000
      | None, None, Some v, _ => Z.max 0 (v - now_ms / 1000)
      | None, None, None, Some v => Z.max 0 (v / 1000 - now_ms / 1000)
      | None, None, None, None => defaultTtl this
      end
  end.

(** The loop of [put] that registers [key] under its tables. *)
Definition track (key : string) (tables : list string) : M unit :=
  for_of tables (fun table =>
    keys ← get_property table;
    match keys with
    | Undefined => set_property table [key]
    | OwnArray keys =>
        if negb (includes keys key) then set_property table (keys ++ [key])%list
        else mret tt
    | Inherited => throw (TypeError "keys.includes is not a function")
    end).

(** One round of that loop on an ordinary table name. *)
Definition register (key : string) (m : gmap string (list string)) (t : string)
  : gmap string (list string) :=
  match m !! t with
  | None => <[t := [key]]> m
  | Some keys => if includes keys key then m else <[t := (keys ++ [key])%list]> m
  end.

(* ===================================================================== *)
(** * The specification's TTL rule *)
(* ===================================================================== *)

(** [q] is [x / d] rounded down. *)
Definition floor_of (x d q : Z) : Prop := d * q <= x < d * (q + 1).

(** The precedence of section 4.1, clause by clause: [ex], else [px], else
    [exat], else [pxat], else the default. *)
Inductive ttl_rule (defaultTtlSeconds now_seconds : Z) : option CacheConfig -> Z -> Prop :=
| ttl_ex c v :
    ex c = Some v ->
    ttl_rule defaultTtlSeconds now_seconds (Some c) v
| ttl_px c v q :
    ex c = None -> px c = Some v -> floor_of v 1000 q ->
    ttl_rule defaultTtlSeconds now_seconds (Some c) q
| ttl_exat c v :
    ex c = None -> px c = None -> exat c = Some v ->
    ttl_rule defaultTtlSeconds now_seconds (Some c) (Z.max 0 (v - now_seconds))
| ttl_pxat c v q :
    ex c = None -> px c = None -> exat c = None -> pxat c = Some v -> floor_of v 1000 q ->
    ttl_rule defaultTtlSeconds now_seconds (Some c) (Z.max 0 (q - now_seconds))
| ttl_default c :
    ex c = None -> px c = None -> exat c = None -> pxat c = None ->
    ttl_rule defaultTtlSeconds now_seconds (Some c) defaultTtlSeconds
| ttl_absent :
    ttl_rule defaultTtlSeconds now_seconds None defaultTtlSeconds.

(* ===================================================================== *)
(** * A deployment, for worked examples *)
(* ===================================================================== *)

(** The instance of packages/db/src/client.ts, on an empty server. *)
Definition local_redis : RedisClient := {| url := "redis://localhost:6379" |}.

Definition db_options : Options.RedisCacheConfig :=
  {| Options.redis := Some local_redis;
     Options.defaultTtl := Some 300;
     Options.strategy := Some strategy_all;
     Options.namespace := Some "drizzle:db" |}.

Definition db_cache : RedisDrizzleCache :=
  {| redis := Some local_redis;
     defaultTtl := 300;
     namespace := "drizzle:db";
     _strategy := strategy_all |}.

Definition boot : State :=
  {| usedTablesPerKey := ∅; keyspace := ∅; clock := 1700000000000;
     faults := []; wire := []; console := [] |}.

Definition no_hints : CacheConfig :=
  {| ex := None; px := None; exat := None; pxat := None |}.

Definition one_row : JsValue :=
  JsArray [JsObject [("id", JsNumber 1); ("name", JsString "Ada")]].

(** [onMutate({tags: [], tables: [t]})] *)
Definition mutate_table (this : RedisDrizzleCache) (t : string) : M unit :=
  onMutate this {| tags := Many []; tables := Many [ByName t] |}.

(** A server that holds a payload no [put] of this class wrote. *)
Definition corrupt : State :=
  {| usedTablesPerKey := ∅;
     keyspace := {[ "drizzle:db:q1" := ("{oops", 1700000300000) ]};
     clock := 1700000000000;
     faults := []; wire := []; console := [] |}.

(** The options of a caller that passes no store handle. *)
Definition no_store : Options.RedisCacheConfig :=
  {| Options.redis := None;
     Options.defaultTtl := None;
     Options.strategy := None;
     Options.namespace := None |}.

(** A result row with a timestamp column. *)
Definition dated_row : JsValue :=
  JsArray [JsObject [("id", JsNumber 1); ("createdAt", JsDate 0)]].

(** [key] is in the own array of [t]. *)
Definition registered (key : string) (m : gmap string (list string)) (t : string) : Prop :=
  exists keys, m !! t = Some keys /\ key ∈ keys.

(** The physical key of a tag: [formatKey("tag:" + tag)]. *)
Definition tag_key (this : RedisDrizzleCache) (tag : string) : string :=
  formatKey this ("tag:" ++ tag).

(** No tracked key set lists a key twice. *)
Definition index_ok (m : gmap string (list string)) : Prop :=
  forall t keys, m !! t = Some keys -> NoDup keys.

(* ===================================================================== *)
(** * JavaScript values in conditions, and two array built-ins *)
(* ===================================================================== *)

(** A [string | null | undefined] in a condition: absent and the empty
    string count as false. *)
Definition truthy (v : option string) : bool :=
  match v with
  | Some (String _ _) => true
  | _ => false
  end.

(** [a || b] on such values. *)
Definition or_else (a b : option string) : option string :=
  if truthy a then a else b.

(** [a || "text"], which is a string. *)
Definition or_text (a : option string) (text : string) : string :=
  match a with
  | Some (String c rest) => String c rest
  | _ => text
  end.

(** [Array.prototype.findIndex]: the first position that satisfies the
    test, [-1] when there is none. *)
Definition findIndex {A} (P : A -> Prop) `{forall x, Decision (P x)} (l : list A) : Z :=
  match list_find P l with
  | Some (i, _) => Z.of_nat i
  | None => -1
  end.

(** A relative index of [slice], brought into [0 .. len]. *)
Definition relative (len i : Z) : nat :=
  Z.to_nat (if i <? 0 then Z.max (len + i) 0 else Z.min i len).

(** [Array.prototype.slice(start, end)] *)
Definition slice {A} (l : list A) (start end_ : Z) : list A :=
  let len := Z.of_nat (length l) in
  let k := relative len start in
  let final := relative len end_ in
  take (final - k) (drop k l).

(* ===================================================================== *)
(** * The latency chart: selecting a range to zoom into *)
(* ===================================================================== *)

(** apps/dashboard/app/(main)/websites/[id]/pulse/_components/latency-chart.tsx.
    The component keeps three pieces of state; a handler reads the values
    of the render it was created in and asks for new ones, which the next
    render shows.  The four measurements of a point are numbers the
    handlers never look at. *)
Module LatencyChart.
Section Chart.
Variable number : Type.

Record LatencyDataPoint : Type := {
  date : string;
  Response_Time_p50 : number;
  Response_Time_p95 : number;
  TTFB_p50 : number;
  TTFB_p95 : number
}.

Record ChartState : Type := {
  refAreaLeft : option string;
  refAreaRight : option string;
  zoomedData : option (list LatencyDataPoint)
}.

(** The event of the chart library; [activeLabel] can be missing. *)
Record ChartEvent : Type := { activeLabel : option string }.

Definition initial : ChartState :=
  {| refAreaLeft := None; refAreaRight := None; zoomedData := None |}.

Definition isZoomed (st : ChartState) : bool :=
  match zoomedData st with
  | Some _ => true
  | None => false
  end.

(** [zoomedData || data]: an array is true in a condition, empty or not. *)
Definition displayData (data : list LatencyDataPoint) (st : ChartState)
  : list LatencyDataPoint :=
  match zoomedData st with
  | Some zoomed => zoomed
  | None => data
  end.

Definition resetZoom (st : ChartState) : ChartState :=
  {| refAreaLeft := None; refAreaRight := None; zoomedData := None |}.

Definition handleMouseDown (e : option ChartEvent) (st : ChartState) : ChartState :=
  if negb (truthy (e ≫= activeLabel)) then st
  else {| refAreaLeft := e ≫= activeLabel;
          refAreaRight := None;
          zoomedData := zoomedData st |}.

Definition handleMouseMove (e : option ChartEvent) (st : ChartState) : ChartState :=
  if negb (truthy (refAreaLeft st) && truthy (e ≫= activeLabel)) then st
  else {| refAreaLeft := refAreaLeft st;
          refAreaRight := e ≫= activeLabel;
          zoomedData := zoomedData st |}.

Definition handleMouseUp (data : list LatencyDataPoint) (st : ChartState) : ChartState :=
  if negb (truthy (refAreaLeft st)) then
    {| refAreaLeft := None; refAreaRight := None; zoomedData := zoomedData st |}
  else
    let rightBoundary := or_else (refAreaRight st) (refAreaLeft st) in
    let leftIndex := findIndex (fun d => Some (date d) = refAreaLeft st) data in
    let rightIndex := findIndex (fun d => Some (date d) = rightBoundary) data in
    if (leftIndex =? -1) || (rightIndex =? -1) then
      {| refAreaLeft := None; refAreaRight := None; zoomedData := zoomedData st |}
    else
      let '(startIndex, endIndex) :=
        if leftIndex <? rightIndex then (leftIndex, rightIndex)
        else (rightIndex, leftIndex) in
      let zoomed := slice data startIndex (endIndex + 1) in
      {| refAreaLeft := None; refAreaRight := None; zoomedData := Some zoomed |}.

(** What the user does to the chart. *)
Inductive Gesture : Type :=
| MouseDown (e : option ChartEvent)
| MouseMove (e : option ChartEvent)
| MouseUp
| ResetZoom.

Definition handle (data : list LatencyDataPoint) (st : ChartState) (g : Gesture)
  : ChartState :=
  match g with
  | MouseDown e => handleMouseDown e st
  | MouseMove e => handleMouseMove e st
  | MouseUp => handleMouseUp data st
  | ResetZoom => resetZoom st
  end.

(** The state after a sequence of gestures, from the first render on.
    [data] is a prop: the page can hand the component new measurements
    between two gestures, and nothing in the component resets the zoom
    when it does.  A step is a gesture with the [data] of the render it
    arrives in. *)
Definition session (steps : list (list LatencyDataPoint * Gesture)) : ChartState :=
  fold_left (fun st step => handle (fst step) st (snd step)) steps initial.

(** The event at the point labelled [label]. *)
Definition at_label (label : string) : option ChartEvent :=
  Some {| activeLabel := Some label |}.

(** Pressing at [a], moving to [b], releasing. *)
Definition drag (a b : string) : list Gesture :=
  [MouseDown (at_label a); MouseMove (at_label b); MouseUp].

(** [part] is a run of consecutive points of [whole]. *)
Definition stretch_of (part whole : list LatencyDataPoint) : Prop :=
  exists before after_it, whole = (before ++ part ++ after_it)%list.

End Chart.

(** Three daily measurements, in milliseconds. *)
Definition three_points : list (LatencyDataPoint Z) :=
  [ {| date := "2024-01-01"; Response_Time_p50 := 120; Response_Time_p95 := 340;
       TTFB_p50 := 40; TTFB_p95 := 95 |};
    {| date := "2024-01-02"; Response_Time_p50 := 131; Response_Time_p95 := 352;
       TTFB_p50 := 42; TTFB_p95 := 99 |};
    {| date := "2024-01-03"; Response_Time_p50 := 118; Response_Time_p95 := 1210;
       TTFB_p50 := 39; TTFB_p95 := 480 |} ].
End LatencyChart.

Arguments LatencyChart.date {number} _.
Arguments LatencyChart.refAreaLeft {number} _.
Arguments LatencyChart.refAreaRight {number} _.
Arguments LatencyChart.zoomedData {number} _.
Arguments LatencyChart.initial {number}.
Arguments LatencyChart.isZoomed {number} _.
Arguments LatencyChart.displayData {number} _ _.
Arguments LatencyChart.resetZoom {number} _.
Arguments LatencyChart.handleMouseDown {number} _ _.
Arguments LatencyChart.handleMouseMove {number} _ _.
Arguments LatencyChart.handleMouseUp {number} _ _.
Arguments LatencyChart.handle {number} _ _ _.
Arguments LatencyChart.session {number} _.
Arguments LatencyChart.stretch_of {number} _ _.

(* ===================================================================== *)
(** * The row of a monitor *)
(* ===================================================================== *)

(** apps/dashboard/app/(main)/pulse/_components/monitor-row.tsx, the
    component.  Its handlers talk to the server through three mutations,
    show toasts and call back into the page; a run of a handler is the
    sequence of these effects.  The toast functions return; a mutation and
    a callback of the page can throw. *)
Module MonitorRow.

Module Website.
Record t : Type := {
  id : string;
  name : option string;
  domain : string
}.
End Website.

Record Schedule : Type := {
  id : string;
  websiteId : option string;
  url : option string;
  name : option string;
  granularity : string;
  cron : string;
  isPaused : bool;
  createdAt : JsValue;
  updatedAt : JsValue;
  website : option Website.t
}.

(** ** What the row shows *)

Definition isWebsiteMonitor (schedule : Schedule) : bool :=
  truthy (websiteId schedule).

Definition displayName (schedule : Schedule) : string :=
  if isWebsiteMonitor schedule
  then or_text (or_else (website schedule ≫= Website.name)
                        (Website.domain <$> website schedule)) "Unknown"
  else or_text (or_else (name schedule) (url schedule)) "Unknown".

Definition displayUrl (schedule : Schedule) : option string :=
  if isWebsiteMonitor schedule
  then Website.domain <$> website schedule
  else url schedule.

(** The target of the link around the name; a monitor of no website has a
    plain heading. *)
Definition href (schedule : Schedule) : option string :=
  if isWebsiteMonitor schedule
  then Some ("/websites/"
             ++ match websiteId schedule with
                | Some id => id
                | None => "null"
                end
             ++ "/pulse")
  else None.

(** ** The handlers *)

Inductive Mutation : Type :=
| pauseSchedule (scheduleId : string)
| resumeSchedule (scheduleId : string)
| deleteSchedule (scheduleId : string).

(** A thrown value: an [Error] with its message, or something else. *)
Inductive Thrown : Type :=
| ErrorObject (message : string)
| OtherValue.

Inductive Effect : Type :=
| MutateAsync (m : Mutation)
| ToastSuccess (text : string)
| ToastError (text : string)
| OnRefetch
| OnDelete.

(** The surroundings of a run: how a mutation settles and whether a
    callback of the page throws; [None] is the good case. *)
Record World : Type := {
  settles : Mutation -> option Thrown;
  onRefetch : option Thrown;
  onDelete : option Thrown
}.

Record UI : Type := {
  isPausing : bool;
  effects : list Effect
}.

Definition Run (A : Type) : Type := UI -> (A + Thrown) * UI.

Definition done {A} (a : A) : Run A := fun ui => (inl a, ui).

Definition and_then {A B} (m : Run A) (k : A -> Run B) : Run B :=
  fun ui =>
    match m ui with
    | (inl a, ui') => k a ui'
    | (inr thrown, ui') => (inr thrown, ui')
    end.

#[local] Instance Run_ret : MRet Run := @done.
#[local] Instance Run_bind : MBind Run := fun A B k m => and_then m k.

Definition effect (e : Effect) (outcome : option Thrown) : Run unit :=
  fun ui =>
    (match outcome with
     | None => inl tt
     | Some thrown => inr thrown
     end,
     {| isPausing := isPausing ui; effects := (effects ui ++ [e])%list |}).

Definition setIsPausing (b : bool) : Run unit :=
  fun ui => (inl tt, {| isPausing := b; effects := effects ui |}).

Definition catch {A} (body : Run A) (handler : Thrown -> Run A) : Run A :=
  fun ui =>
    match body ui with
    | (inl a, ui') => (inl a, ui')
    | (inr thrown, ui') => handler thrown ui'
    end.

(** [try { body } finally { cleanup }], for a cleanup that returns. *)
Definition finally {A} (body : Run A) (cleanup : Run unit) : Run A :=
  fun ui =>
    match body ui with
    | (outcome, ui') =>
        match cleanup ui' with
        | (inl _, ui'') => (outcome, ui'')
        | (inr thrown, ui'') => (inr thrown, ui'')
        end
    end.

Definition mutateAsync (w : World) (m : Mutation) : Run unit :=
  effect (MutateAsync m) (settles w m).

Definition toast_success (text : string) : Run unit := effect (ToastSuccess text) None.
Definition toast_error (text : string) : Run unit := effect (ToastError text) None.

(** [error instanceof Error ? error.message : fallback] *)
Definition errorMessage (error : Thrown) (fallback : string) : string :=
  match error with
  | ErrorObject message => message
  | OtherValue => fallback
  end.

Definition handleTogglePause (w : World) (schedule : Schedule) : Run unit :=
  setIsPausing true;;
  finally
    (catch
       ((if isPaused schedule
         then mutateAsync w (resumeSchedule (id schedule));;
              toast_success "Monitor resumed"
         else mutateAsync w (pauseSchedule (id schedule));;
              toast_success "Monitor paused");;
        effect OnRefetch (onRefetch w))
       (fun error => toast_error (errorMessage error "Failed to update monitor")))
    (setIsPausing false).

Definition handleDelete (w : World) (schedule : Schedule) : Run unit :=
  catch
    (mutateAsync w (deleteSchedule (id schedule));;
     toast_success "Monitor deleted";;
     effect OnDelete (onDelete w))
    (fun error => toast_error (errorMessage error "Failed to delete monitor")).

(** ** Reading a run *)

Definition is_toast (e : Effect) : bool :=
  match e with
  | ToastSuccess _ | ToastError _ => true
  | _ => false
  end.

Definition is_request (e : Effect) : bool :=
  match e with
  | MutateAsync _ => true
  | _ => false
  end.

(** A monitor of the site [example.com], running. *)
Definition site_monitor : Schedule :=
  {| id := "sch_1"; websiteId := Some "web_1"; url := None; name := None;
     granularity := "ten_minutes"; cron := "*/10 * * * *"; isPaused := false;
     createdAt := JsString "2024-01-01T00:00:00.000Z";
     updatedAt := JsString "2024-01-01T00:00:00.000Z";
     website := Some {| Website.id := "web_1"; Website.name := None;
                        Website.domain := "example.com" |} |}.

(** A server that refuses every mutation. *)
Definition refusing : World :=
  {| settles := fun _ => Some (ErrorObject "Forbidden");
     onRefetch := None; onDelete := None |}.

Definition idle : UI := {| isPausing := false; effects := [] |}.

End MonitorRow.

(* ===================================================================== *)
(** * The database client *)
(* ===================================================================== *)

(** packages/db/src/client.ts: what loading the module does, given the two
    environment variables it reads.  [drizzle] is handed the connection
    string and the cache. *)
Module Client.

Record Env : Type := {
  DATABASE_URL : option string;
  REDIS_URL : option string
}.

Record Db : Type := {
  connection : string;
  cache : option RedisDrizzleCache
}.

Inductive Loaded : Type :=
| Exports (db : Db)
| Fails (message : string)
| Raises (error : JsError).

Definition load (env : Env) : State -> Loaded * State :=
  fun s =>
    match DATABASE_URL env with
    | Some (String c rest) =>
        let databaseUrl := String c rest in
        if truthy (REDIS_URL env) then
          match constructor
                  (Some {| Options.redis := Some {| url := default "" (REDIS_URL env) |};
                           Options.defaultTtl := Some 300;
                           Options.strategy := Some strategy_all;
                           Options.namespace := Some "drizzle:db" |}) s with
          | (Normal cache, s') =>
              (Exports {| connection := databaseUrl; cache := Some cache |}, s')
          | (Throws error, s') => (Raises error, s')
          end
        else (Exports {| connection := databaseUrl; cache := None |}, s)
    | _ => (Fails "DATABASE_URL is not set", s)
    end.

(** A development machine. *)
Definition local : Env :=
  {| DATABASE_URL := Some "postgres://localhost:5432/databuddy";
     REDIS_URL := Some "redis://localhost:6379" |}.

End Client.

(* ===================================================================== *)
(** * The transport of the agent chat *)
(* ===================================================================== *)

(** The [prepareSendMessagesRequest] of [useAgentChatTransport]; a message
    is an object, so the only value of [messages.at(-1)] that counts as
    false is the one of an empty list. *)
Module AgentChat.

Module Body.
Record t (Message : Type) : Type := {
  id : string;
  websiteId : string;
  message : Message;
  timezone : string
}.
End Body.

Section Transport.
Variable Message : Type.
Variables chatId websiteId timeZone : string.

Inductive Prepared : Type :=
| Request (body : Body.t Message)
| Error (message : string).

Definition prepareSendMessagesRequest (messages : list Message) : Prepared :=
  match last messages with
  | None => Error "No messages to send"
  | Some lastMessage =>
      Request {| Body.id := chatId; Body.websiteId := websiteId;
                 Body.message := lastMessage; Body.timezone := timeZone |}
  end.

End Transport.
End AgentChat.

Arguments AgentChat.Request {Message} _.
Arguments AgentChat.Error {Message} _.
Arguments AgentChat.prepareSendMessagesRequest {Message} _ _ _ _.
Arguments AgentChat.Body.message {Message} _.

(* ===================================================================== *)
(** * Properties of the environment *)
(* ===================================================================== *)

Section Keys.
Variable this : RedisDrizzleCache.

Lemma append_inv_head (p a b : string) : (p ++ a)%string = (p ++ b)%string -> a = b.
Proof.
  induction p as [|c p IH]; simpl; intros H; [exact H|].
  injection H as H. auto.
Qed.

Lemma formatKey_inj (k1 k2 : string) : formatKey this k1 = formatKey this k2 -> k1 = k2.
Proof.
  unfold formatKey. intros H.
  apply append_inv_head in H. apply (append_inv_head ":") in H. exact H.
Qed.

Lemma formatKey_ne (k1 k2 : string) : k1 <> k2 -> formatKey this k1 <> formatKey this k2.
Proof. intros Hne Heq. apply Hne. eapply formatKey_inj; eauto. Qed.
End Keys.

Section Send.
Implicit Types (cmd : Command) (s : State).

Lemma serve_frame cmd s :
  usedTablesPerKey (after (serve cmd) s) = usedTablesPerKey s
  /\ clock (after (serve cmd) s) = clock s
  /\ faults (after (serve cmd) s) = faults s
  /\ wire (after (serve cmd) s) = wire s
  /\ console (after (serve cmd) s) = console s.
Proof.
  unfold after. destruct cmd as [k|k n v|k]; simpl.
  - destruct (keyspace s !! k) as [[v e]|]; simpl; auto.
  - destruct (0 <? n); simpl; auto.
  - destruct (keyspace s !! k) as [[v e]|]; simpl; auto.
Qed.

Lemma send_frame cmd s :
  usedTablesPerKey (after (send cmd) s) = usedTablesPerKey s
  /\ clock (after (send cmd) s) = clock s
  /\ faults (after (send cmd) s) = tail (faults s)
  /\ wire (after (send cmd) s) = (wire s ++ [cmd])%list
  /\ console (after (send cmd) s) = console s.
Proof.
  unfold after, send.
  destruct (lost s); simpl; auto.
  match goal with |- context [serve cmd ?s'] => apply (serve_frame cmd s') end.
Qed.

(** A command touches no key but its own. *)
Lemma send_other_key cmd s (key : string) :
  (forall ttl v, cmd <> SETEX key ttl v) -> cmd <> UNLINK key ->
  keyspace (after (send cmd) s) !! key = keyspace s !! key.
Proof.
  intros Hset Hun. unfold after, send.
  destruct (lost s); simpl; auto.
  destruct cmd as [k|k n v|k]; simpl.
  - destruct (keyspace s !! k) as [[v e]|]; simpl; auto.
  - destruct (0 <? n); simpl; auto.
    apply lookup_insert_ne. intros ->. eapply Hset; eauto.
  - destruct (keyspace s !! k) as [[v e]|]; simpl; auto.
    apply lookup_delete_ne. intros ->. eapply Hun; eauto.
Qed.

(** [UNLINK] only ever removes. *)
Lemma send_unlink_shrinks s (k key : string) :
  keyspace (after (send (UNLINK k)) s) !! key = keyspace s !! key
  \/ keyspace (after (send (UNLINK k)) s) !! key = None.
Proof.
  unfold after, send.
  destruct (lost s); simpl; auto.
  destruct (keyspace s !! k) as [[v e]|] eqn:E; simpl; auto.
  destruct (decide (k = key)) as [->|Hne].
  - right. apply lookup_delete_eq.
  - left. apply lookup_delete_ne; auto.
Qed.

(** On a healthy connection [UNLINK] removes its key. *)
Lemma send_unlink_healthy s (k : string) :
  healthy s ->
  send (UNLINK k) s =
    (Normal (Count (match keyspace s !! k with Some _ => 1 | None => 0 end)),
     mkState (usedTablesPerKey s) (delete k (keyspace s)) (clock s) [] (wire s ++ [UNLINK k])
       (console s)).
Proof.
  unfold healthy, send, lost, sent. intros ->. simpl.
  destruct (keyspace s !! k) as [[v e]|] eqn:E; simpl; auto.
  unfold set_keyspace; simpl. f_equal. f_equal.
  symmetry. apply delete_id. exact E.
Qed.
End Send.

(** ** The loops of [onMutate], in closed form *)

Section Sweep.
Implicit Types (s : State) (keys : list string).

Lemma sweep_app keys1 keys2 s : sweep (keys1 ++ keys2) s = sweep keys2 (sweep keys1 s).
Proof. unfold sweep. apply fold_left_app. Qed.

Lemma sweep_frame keys s :
  usedTablesPerKey (sweep keys s) = usedTablesPerKey s
  /\ clock (sweep keys s) = clock s
  /\ wire (sweep keys s) = (wire s ++ map UNLINK keys)%list
  /\ console (sweep keys s) = console s.
Proof.
  revert s. induction keys as [|k keys IH]; intros s; simpl.
  - rewrite app_nil_r. auto.
  - destruct (IH (after (send (UNLINK k)) s)) as (Hi & Hc & Hw & Hl).
    destruct (send_frame (UNLINK k) s) as (Hi' & Hc' & _ & Hw' & Hl').
    fold (sweep keys (after (send (UNLINK k)) s)).
    rewrite Hi, Hc, Hw, Hl, Hi', Hc', Hw', Hl'.
    rewrite <- app_assoc. auto.
Qed.

Lemma sweep_other_key keys s (key : string) :
  key ∉ keys -> keyspace (sweep keys s) !! key = keyspace s !! key.
Proof.
  revert s. induction keys as [|k keys IH]; intros s Hin; simpl; [reflexivity|].
  fold (sweep keys (after (send (UNLINK k)) s)).
  rewrite IH by set_solver.
  apply send_other_key; [discriminate|].
  intros Heq. injection Heq as Heq. apply Hin. rewrite Heq. left.
Qed.

Lemma sweep_shrinks keys s (key : string) :
  keyspace (sweep keys s) !! key = keyspace s !! key
  \/ keyspace (sweep keys s) !! key = None.
Proof.
  revert s. induction keys as [|k keys IH]; intros s; simpl; [auto|].
  fold (sweep keys (after (send (UNLINK k)) s)).
  destruct (IH (after (send (UNLINK k)) s)) as [-> | ->]; [|auto].
  apply send_unlink_shrinks.
Qed.

Lemma sweep_healthy keys s :
  healthy s ->
  healthy (sweep keys s)
  /\ forall key, key ∈ keys -> keyspace (sweep keys s) !! key = None.
Proof.
  revert s. induction keys as [|k keys IH]; intros s Hs; simpl.
  - split; [exact Hs|]. intros key Hin. inversion Hin.
  - fold (sweep keys (after (send (UNLINK k)) s)).
    assert (Hs' : healthy (after (send (UNLINK k)) s)).
    { unfold after. rewrite send_unlink_healthy by exact Hs. reflexivity. }
    destruct (IH _ Hs') as [Hh Hgone]. split; [exact Hh|].
    intros key Hin. destruct (decide (key ∈ keys)) as [Hk|Hk]; [auto|].
    rewrite sweep_other_key by exact Hk.
    assert (key = k) as Hk' by set_solver. rewrite Hk'.
    unfold after. rewrite send_unlink_healthy by exact Hs. simpl.
    apply lookup_delete_eq.
Qed.
End Sweep.

Section Loops.
Implicit Types (s : State) (this : RedisDrizzleCache).

Lemma for_of_acc_cons {A L} (x : A) (xs : list A) (locals : L) (body : L -> A -> M L) s :
  for_of_acc (x :: xs) locals body s
    = match body locals x s with
      | (Normal locals', s') => for_of_acc xs locals' body s'
      | (Throws e, s') => (Throws e, s')
      end.
Proof. reflexivity. Qed.

Lemma unlink_body_run this (physical : string -> string) handle ps x s :
  redis this = Some handle ->
  unlink_body this physical ps x s
    = (Normal (ps ++ [fst (send (UNLINK (physical x)) s)])%list,
       after (send (UNLINK (physical x))) s).
Proof.
  intros Hh. unfold unlink_body, client, after. rewrite Hh. run.
  destruct (send (UNLINK (physical x)) s); reflexivity.
Qed.

Lemma unlink_loop this (physical : string -> string) handle :
  redis this = Some handle ->
  forall xs ps s, exists qs,
    for_of_acc xs ps (unlink_body this physical) s
      = (Normal (ps ++ qs)%list, sweep (map physical xs) s)
    /\ (healthy s -> Forall settled_ok qs).
Proof.
  intros Hh. induction xs as [|x xs IH]; intros ps s.
  - exists []. simpl. rewrite app_nil_r. split; [reflexivity|constructor].
  - rewrite for_of_acc_cons, (unlink_body_run _ _ _ _ _ _ Hh).
    destruct (IH (ps ++ [fst (send (UNLINK (physical x)) s)])%list
                (after (send (UNLINK (physical x))) s)) as (qs & Hrun & Hok).
    exists (fst (send (UNLINK (physical x)) s) :: qs).
    rewrite <- app_assoc in Hrun. split; [exact Hrun|].
    intros Hs. unfold after in Hok.
    rewrite send_unlink_healthy in * by exact Hs. simpl in *.
    constructor; [eexists; reflexivity|]. apply Hok. reflexivity.
Qed.

(** Without a handle the first [UNLINK] is never sent. *)
Lemma unlink_loop_no_client this (physical : string -> string) x xs ps s :
  redis this = None ->
  for_of_acc (x :: xs) ps (unlink_body this physical) s = (Throws no_client, s).
Proof.
  intros Hh. simpl. unfold unlink_body, client. rewrite Hh. run. reflexivity.
Qed.

Lemma cleanup_loop (tabs : list TableRef) s :
  for_of tabs (fun table => set_property (tableName table) []) s
    = (Normal tt, set_usedTablesPerKey (cleared (map tableName tabs)) s).
Proof.
  revert s. induction tabs as [|t tabs IH]; intros s; simpl.
  - destruct s; reflexivity.
  - run. rewrite IH. destruct s; reflexivity.
Qed.

Lemma cleared_lookup (names : list string) (m : gmap string (list string)) (t : string) :
  cleared names m !! t = if bool_decide (t ∈ names) then Some [] else m !! t.
Proof.
  revert m. induction names as [|n names IH]; intros m; simpl.
  - reflexivity.
  - fold (cleared names (<[n := []]> m)). rewrite IH.
    repeat case_bool_decide; try reflexivity; try set_solver.
    + assert (t = n) as -> by set_solver. apply lookup_insert_eq.
    + apply lookup_insert_ne. set_solver.
Qed.

Lemma Promise_all_state {A} (ps : list (Completion A)) s : after (Promise_all ps) s = s.
Proof.
  induction ps as [|[a|e] ps IH]; simpl; try reflexivity.
  unfold after in IH. run.
  destruct (Promise_all ps s) as [[r|e] s'] eqn:E; simpl in *; exact IH.
Qed.

Lemma Promise_all_settled {A} (ps : list (Completion A)) s :
  Forall settled_ok ps -> exists rs, Promise_all ps s = (Normal rs, s).
Proof.
  induction 1 as [|p ps [a ->] _ (rs & IH)]; simpl.
  - eexists; reflexivity.
  - run. rewrite IH. eexists; reflexivity.
Qed.
End Loops.

Section Collect.
Implicit Types (s : State) (names acc keys : list string).

Lemma Set_add_elem (set : list string) (key x : string) :
  x ∈ Set_add set key <-> x ∈ set \/ x = key.
Proof.
  unfold Set_add, includes. case_bool_decide; set_solver.
Qed.

Lemma fold_Set_add_elem keys acc (x : string) :
  x ∈ fold_left Set_add keys acc <-> x ∈ acc \/ x ∈ keys.
Proof.
  revert acc. induction keys as [|k keys IH]; intros acc; simpl.
  - set_solver.
  - rewrite IH, Set_add_elem. set_solver.
Qed.

Lemma gathered_elem s names acc (x : string) :
  x ∈ gathered s names acc <-> x ∈ acc \/ exists t, t ∈ names /\ x ∈ tracked s t.
Proof.
  revert acc. induction names as [|n names IH]; intros acc; simpl.
  - split; [auto|]. intros [H|(t & Ht & _)]; [exact H|inversion Ht].
  - fold (gathered s names (fold_left Set_add (tracked s n) acc)).
    rewrite IH, fold_Set_add_elem. split.
    + intros [[H|H]|(t & Ht & Hx)]; [auto| |].
      * right. exists n. split; [left|exact H].
      * right. exists t. split; [right; exact Ht|exact Hx].
    + intros [H|(t & Ht & Hx)]; [auto|].
      apply elem_of_cons in Ht as [->|Ht]; [auto|].
      right. exists t. auto.
Qed.

Lemma gathered_nil s names :
  gathered s names [] = [] <-> forall t, t ∈ names -> tracked s t = [].
Proof.
  split.
  - intros Hg t Ht. destruct (tracked s t) as [|x l] eqn:E; [reflexivity|].
    assert (Hx : x ∈ gathered s names []).
    { apply gathered_elem. right. exists t. split; [exact Ht|]. rewrite E. left. }
    rewrite Hg in Hx. inversion Hx.
  - intros Hall. destruct (gathered s names []) as [|x l] eqn:E; [reflexivity|].
    assert (Hx : x ∈ gathered s names []) by (rewrite E; left).
    apply gathered_elem in Hx as [Hx|(t & Ht & Hx)]; [inversion Hx|].
    rewrite (Hall t Ht) in Hx. inversion Hx.
Qed.

(** The first loop reads only. *)
Lemma collect_loop_state (tabs : list TableRef) acc s :
  after (for_of_acc tabs acc (fun keysToDelete table =>
    keys ← get_property (tableName table);
    match keys with
    | Undefined => mret keysToDelete
    | OwnArray keys => mret (fold_left Set_add keys keysToDelete)
    | Inherited => throw (TypeError "keys is not iterable")
    end)) s = s.
Proof.
  revert acc. induction tabs as [|t tabs IH]; intros acc; [reflexivity|].
  unfold after in *. rewrite for_of_acc_cons. unfold get_property. run.
  destruct (usedTablesPerKey s !! tableName t); simpl; [apply IH|].
  destruct (inherited (tableName t)); simpl; [reflexivity|apply IH].
Qed.

Lemma collect_state (tabs : list TableRef) s : after (collect tabs) s = s.
Proof. apply collect_loop_state. Qed.

Lemma collect_loop_run (tabs : list TableRef) acc s :
  Forall (trackable s) (map tableName tabs) ->
  for_of_acc tabs acc (fun keysToDelete table =>
    keys ← get_property (tableName table);
    match keys with
    | Undefined => mret keysToDelete
    | OwnArray keys => mret (fold_left Set_add keys keysToDelete)
    | Inherited => throw (TypeError "keys is not iterable")
    end) s = (Normal (gathered s (map tableName tabs) acc), s).
Proof.
  revert acc. induction tabs as [|t tabs IH]; intros acc Hall; [reflexivity|].
  apply Forall_cons in Hall as [Ht Hall].
  rewrite for_of_acc_cons. unfold get_property. run.
  unfold trackable in Ht. unfold tracked at 1.
  destruct (usedTablesPerKey s !! tableName t) eqn:E; simpl.
  - apply IH, Hall.
  - rewrite Ht by reflexivity. simpl. apply IH, Hall.
Qed.

Lemma collect_run (tabs : list TableRef) s :
  Forall (trackable s) (map tableName tabs) ->
  collect tabs s = (Normal (gathered s (map tableName tabs) []), s).
Proof. apply collect_loop_run. Qed.

(** A name found on [Object.prototype] stops the loop with a [TypeError]. *)
Lemma collect_inherited (tabs : list TableRef) s :
  ~ Forall (trackable s) (map tableName tabs) ->
  exists msg, collect tabs s = (Throws (TypeError msg), s).
Proof.
  unfold collect. generalize (@nil string) as acc.
  induction tabs as [|t tabs IH]; intros acc Hnot.
  - exfalso. apply Hnot. constructor.
  - rewrite for_of_acc_cons. unfold get_property. run.
    destruct (usedTablesPerKey s !! tableName t) eqn:E; simpl.
    + apply IH. intros Hall. apply Hnot. simpl. constructor; [|exact Hall].
      unfold trackable. rewrite E. discriminate.
    + destruct (inherited (tableName t)) eqn:Ei; simpl; [eauto|].
      apply IH. intros Hall. apply Hnot. simpl. constructor; [|exact Hall].
      intros _. exact Ei.
Qed.
End Collect.

(** ** [onMutate], in closed form *)

Section OnMutate.
Variable this : RedisDrizzleCache.
Implicit Types (s : State) (params : MutateParams).

Lemma onMutate_unfold params :
  onMutate this params =
    (keysToDelete ← collect (tablesArray params);
     if (0 <? Z.of_nat (length keysToDelete))
        || (0 <? Z.of_nat (length (tagsArray params))) then
       deletePromises ← for_of_acc (tagsArray params) []
         (unlink_body this (fun tag => formatKey this ("tag:" ++ tag)));
       deletePromises ← for_of_acc keysToDelete deletePromises
         (unlink_body this (formatKey this));
       for_of (tablesArray params) (fun table => set_property (tableName table) []);;
       Promise_all deletePromises;;
       mret tt
     else mret tt).
Proof. reflexivity. Qed.

Lemma guard_false (keys tags : list string) :
  (0 <? Z.of_nat (length keys)) || (0 <? Z.of_nat (length tags)) = false
  <-> keys = [] /\ tags = [].
Proof.
  destruct keys, tags; simpl; split; intros H; try reflexivity; try discriminate;
    try (split; reflexivity); destruct H; discriminate.
Qed.

(** Nothing to delete and no tag: the method does nothing at all. *)
Lemma onMutate_noop params s :
  tagsArray params = [] ->
  result (collect (tablesArray params)) s = Normal [] ->
  onMutate this params s = (Normal tt, s).
Proof.
  intros Htags Hkeys. rewrite onMutate_unfold.
  pose proof (collect_state (tablesArray params) s) as Hs.
  unfold result, after in *. unfold mbind, M_bind, bind.
  destruct (collect (tablesArray params) s) as [r s']. simpl in *. subst r s'.
  rewrite Htags. reflexivity.
Qed.

(** A table name found on [Object.prototype] ends the method before any
    command is sent and before the index is touched. *)
Lemma onMutate_inherited params s :
  ~ Forall (trackable s) (tableNames params) ->
  exists msg, onMutate this params s = (Throws (TypeError msg), s).
Proof.
  intros Hnot. destruct (collect_inherited _ _ Hnot) as [msg Hc].
  exists msg. rewrite onMutate_unfold. unfold mbind, M_bind, bind. rewrite Hc. reflexivity.
Qed.

Lemma onMutate_sweeps handle params s :
  redis this = Some handle ->
  Forall (trackable s) (tableNames params) ->
  ~ (gathered s (tableNames params) [] = [] /\ tagsArray params = []) ->
  after (onMutate this params) s
    = set_usedTablesPerKey (cleared (tableNames params))
        (sweep (physical_keys this (tagsArray params)
                  (gathered s (tableNames params) [])) s)
  /\ (healthy s -> result (onMutate this params) s = Normal tt).
Proof.
  intros Hh Hall Hwork. rewrite onMutate_unfold.
  unfold result, after, mbind, M_bind, bind.
  rewrite (collect_run _ _ Hall). fold (tableNames params).
  destruct ((0 <? Z.of_nat (length (gathered s (tableNames params) [])))
            || (0 <? Z.of_nat (length (tagsArray params)))) eqn:G.
  2:{ apply guard_false in G. contradiction. }
  destruct (unlink_loop this (fun tag => formatKey this ("tag:" ++ tag)) handle Hh
              (tagsArray params) [] s) as (qs1 & -> & Hok1).
  destruct (unlink_loop this (formatKey this) handle Hh
              (gathered s (tableNames params) []) ([] ++ qs1)%list
              (sweep (map (fun tag => formatKey this ("tag:" ++ tag)) (tagsArray params)) s))
    as (qs2 & -> & Hok2).
  rewrite <- sweep_app. fold (physical_keys this (tagsArray params)
                                (gathered s (tableNames params) [])).
  rewrite cleanup_loop. fold (tableNames params).
  pose proof (Promise_all_state (([] ++ qs1) ++ qs2)%list
                (set_usedTablesPerKey (cleared (tableNames params))
                   (sweep (physical_keys this (tagsArray params)
                             (gathered s (tableNames params) [])) s))) as Hst.
  unfold after in Hst.
  split.
  - destruct (Promise_all _ _) as [[r|e] s']; simpl in *; exact Hst.
  - intros Hs.
    assert (Hall' : Forall settled_ok (([] ++ qs1) ++ qs2)%list).
    { apply Forall_app. split; [apply Hok1, Hs|].
      apply Hok2. apply sweep_healthy, Hs. }
    destruct (Promise_all_settled _
                (set_usedTablesPerKey (cleared (tableNames params))
                   (sweep (physical_keys this (tagsArray params)
                             (gathered s (tableNames params) [])) s)) Hall') as (rs & ->).
    reflexivity.
Qed.
End OnMutate.

(** ** [get] and [put], in closed form *)

Section GetPut.
Variable this : RedisDrizzleCache.
Implicit Types (s : State) (key : string).

Lemma calculateTtl_run config s :
  calculateTtl this config s = (Normal (seconds this config (clock s)), s).
Proof.
  unfold calculateTtl, seconds. destruct config as [c|]; simpl; [|reflexivity].
  destruct (ex c), (px c), (exat c), (pxat c); reflexivity.
Qed.

Lemma get_run key s :
  get this key s =
    match redis this with
    | None => (Normal None, logged (get_failed this key) no_client s)
    | Some _ =>
        let s' := sent (GET (formatKey this key)) s in
        if lost s
        then (Normal None, logged (get_failed this key) (RedisError "Connection closed") s')
        else match readable s (formatKey this key) with
             | Some text =>
                 if String.eqb text EmptyString then (Normal None, s')
                 else match JSON.parse text with
                      | Normal rows => (Normal (Some rows), s')
                      | Throws e => (Normal None, logged (get_failed this key) e s')
                      end
             | None => (Normal None, s')
             end
    end.
Proof.
  unfold get, call, client, get_failed. destruct (redis this) as [h|]; [|reflexivity].
  run. unfold send, readable. destruct (lost s); [reflexivity|]. simpl.
  destruct (keyspace s !! formatKey this key) as [[text expiry]|]; [|reflexivity].
  simpl. destruct (clock s <? expiry); [|reflexivity].
  destruct (String.eqb text EmptyString); [reflexivity|].
  destruct (JSON.parse text); reflexivity.
Qed.

Lemma put_unfold key response tables isTag config :
  put this key response tables isTag config =
    (ttl ← calculateTtl this config;
     try_catch
       (call this (SETEX (formatKey this key) ttl (JSON.stringify response));;
        track key tables)
       (fun error => console_error (put_failed this key) error)).
Proof. reflexivity. Qed.

Lemma for_of_cons {A} (x : A) (xs : list A) (body : A -> M unit) s :
  for_of (x :: xs) body s
    = match body x s with
      | (Normal _, s') => for_of xs body s'
      | (Throws e, s') => (Throws e, s')
      end.
Proof. reflexivity. Qed.

Lemma track_cons key t tables s :
  track key (t :: tables) s =
    match usedTablesPerKey s !! t with
    | Some keys =>
        if includes keys key then track key tables s
        else track key tables (set_usedTablesPerKey (insert t (keys ++ [key])%list) s)
    | None =>
        if inherited t then (Throws (TypeError "keys.includes is not a function"), s)
        else track key tables (set_usedTablesPerKey (insert t [key]) s)
    end.
Proof.
  unfold track. rewrite for_of_cons. unfold get_property. run.
  destruct (usedTablesPerKey s !! t) as [keys|]; simpl.
  - destruct (includes keys key); reflexivity.
  - destruct (inherited t); reflexivity.
Qed.

(** The registration loop changes the index and nothing else. *)
Lemma track_frame key tables s :
  keyspace (after (track key tables) s) = keyspace s
  /\ clock (after (track key tables) s) = clock s
  /\ faults (after (track key tables) s) = faults s
  /\ wire (after (track key tables) s) = wire s
  /\ console (after (track key tables) s) = console s.
Proof.
  revert s. induction tables as [|t tables IH]; intros s; [simpl; auto|].
  unfold after in *. rewrite track_cons.
  destruct (usedTablesPerKey s !! t) as [keys|].
  - destruct (includes keys key); [apply IH|].
    destruct (IH (set_usedTablesPerKey (insert t (keys ++ [key])%list) s))
      as (-> & -> & -> & -> & ->). auto.
  - destruct (inherited t); [simpl; auto|].
    destruct (IH (set_usedTablesPerKey (insert t [key]) s))
      as (-> & -> & -> & -> & ->). auto.
Qed.

Lemma track_run key tables s :
  Forall (fun t => inherited t = false) tables ->
  track key tables s
    = (Normal tt, set_usedTablesPerKey (fun m => fold_left (register key) tables m) s).
Proof.
  revert s. induction tables as [|t tables IH]; intros s Hall.
  - destruct s; reflexivity.
  - apply Forall_cons in Hall as [Ht Hall]. rewrite track_cons. simpl.
    destruct (usedTablesPerKey s !! t) as [keys|] eqn:E.
    + assert (Hr : register key (usedTablesPerKey s) t
                   = if includes keys key then usedTablesPerKey s
                     else <[t := (keys ++ [key])%list]> (usedTablesPerKey s))
        by (unfold register; rewrite E; reflexivity).
      destruct (includes keys key); rewrite (IH _ Hall);
        unfold set_usedTablesPerKey; simpl; rewrite Hr; reflexivity.
    + assert (Hr : register key (usedTablesPerKey s) t = <[t := [key]]> (usedTablesPerKey s))
        by (unfold register; rewrite E; reflexivity).
      rewrite Ht, (IH _ Hall). unfold set_usedTablesPerKey; simpl.
      rewrite Hr; reflexivity.
Qed.

Lemma put_run key response tables isTag config s :
  put this key response tables isTag config s =
    let ttl := seconds this config (clock s) in
    let cmd := SETEX (formatKey this key) ttl (JSON.stringify response) in
    match redis this with
    | None => (Normal tt, logged (put_failed this key) no_client s)
    | Some _ =>
        if lost s
        then (Normal tt,
              logged (put_failed this key) (RedisError "Connection closed") (sent cmd s))
        else if 0 <? ttl then
          match track key tables
                  (set_keyspace
                     (insert (formatKey this key)
                        (JSON.stringify response, clock s + 1000 * ttl)) (sent cmd s)) with
          | (Normal _, s') => (Normal tt, s')
          | (Throws e, s') => (Normal tt, logged (put_failed this key) e s')
          end
        else (Normal tt,
              logged (put_failed this key)
                (RedisError "ERR invalid expire time in 'setex' command") (sent cmd s))
    end.
Proof.
  rewrite put_unfold. unfold mbind at 1, M_bind at 1, bind at 1.
  rewrite calculateTtl_run. unfold try_catch, call, client.
  destruct (redis this) as [h|]; [|reflexivity].
  run. unfold send. destruct (lost s); [reflexivity|]. simpl.
  destruct (0 <? seconds this config (clock s)); [|reflexivity]. simpl.
  destruct (track key tables _) as [[[]|e] s']; reflexivity.
Qed.
End GetPut.

(** ** More on [onMutate]: a missing handle, and what the method leaves alone *)

Section OnMutateFrame.
Variable this : RedisDrizzleCache.
Implicit Types (s : State) (params : MutateParams).

(** Without a handle, work to do ends in a [TypeError] at the first
    [UNLINK], before the clean-up. *)
Lemma onMutate_no_client params s :
  redis this = None ->
  Forall (trackable s) (tableNames params) ->
  ~ (gathered s (tableNames params) [] = [] /\ tagsArray params = []) ->
  onMutate this params s = (Throws no_client, s).
Proof.
  intros Hh Hall Hwork. rewrite onMutate_unfold.
  unfold mbind, M_bind, bind.
  rewrite (collect_run _ _ Hall). fold (tableNames params).
  destruct ((0 <? Z.of_nat (length (gathered s (tableNames params) [])))
            || (0 <? Z.of_nat (length (tagsArray params)))) eqn:G.
  2:{ apply guard_false in G. contradiction. }
  destruct (tagsArray params) as [|tag tags'] eqn:Et.
  - destruct (gathered s (tableNames params) []) as [|k ks] eqn:Ek.
    + exfalso. apply Hwork. auto.
    + change (for_of_acc [] [] _ s) with (@Normal (list (Completion Reply)) [], s).
      cbv iota beta. rewrite (unlink_loop_no_client this _ _ _ _ _ Hh). reflexivity.
  - rewrite (unlink_loop_no_client this _ _ _ _ _ Hh). reflexivity.
Qed.

(** Every way [onMutate] can go. *)
Lemma onMutate_cases params s :
  onMutate this params s = (Normal tt, s)
  \/ (exists e, onMutate this params s = (Throws e, s))
  \/ (exists handle, redis this = Some handle
      /\ Forall (trackable s) (tableNames params)
      /\ after (onMutate this params) s
         = set_usedTablesPerKey (cleared (tableNames params))
             (sweep (physical_keys this (tagsArray params)
                       (gathered s (tableNames params) [])) s)).
Proof.
  destruct (decide (Forall (trackable s) (tableNames params))) as [Hall|Hnot].
  2:{ right; left. destruct (onMutate_inherited this params s Hnot) as [msg H]. eauto. }
  destruct (decide (gathered s (tableNames params) [] = [] /\ tagsArray params = []))
    as [[Hk Ht]|Hwork].
  { left. apply onMutate_noop; [exact Ht|].
    unfold result. rewrite (collect_run _ _ Hall). simpl. fold (tableNames params).
    rewrite Hk. reflexivity. }
  destruct (redis this) as [handle|] eqn:Hh.
  - right; right. exists handle. split; [reflexivity|]. split; [exact Hall|].
    apply (onMutate_sweeps this handle params s Hh Hall Hwork).
  - right; left. exists no_client. apply onMutate_no_client; assumption.
Qed.

(** The tracked sets of tables that are not listed stay as they are. *)
Lemma onMutate_index_frame params s (t : string) :
  t ∉ tableNames params ->
  usedTablesPerKey (after (onMutate this params) s) !! t = usedTablesPerKey s !! t.
Proof.
  intros Hout.
  destruct (onMutate_cases params s) as [H|[[e H]|(h & _ & _ & H)]].
  - unfold after. rewrite H. reflexivity.
  - unfold after. rewrite H. reflexivity.
  - rewrite H. simpl. rewrite cleared_lookup.
    case_bool_decide; [contradiction|].
    destruct (sweep_frame (physical_keys this (tagsArray params)
                             (gathered s (tableNames params) [])) s) as (-> & _).
    reflexivity.
Qed.

(** Store entries other than the unlinked ones stay as they are. *)
Lemma onMutate_keyspace_frame params s (physical : string) :
  physical ∉ physical_keys this (tagsArray params) (gathered s (tableNames params) []) ->
  keyspace (after (onMutate this params) s) !! physical = keyspace s !! physical.
Proof.
  intros Hout.
  destruct (onMutate_cases params s) as [H|[[e H]|(h & _ & _ & H)]].
  - unfold after. rewrite H. reflexivity.
  - unfold after. rewrite H. reflexivity.
  - rewrite H. simpl. apply sweep_other_key. exact Hout.
Qed.

(** The clock, the console and the rest of the environment. *)
Lemma onMutate_env_frame params s :
  clock (after (onMutate this params) s) = clock s
  /\ console (after (onMutate this params) s) = console s
  /\ (healthy s -> healthy (after (onMutate this params) s)).
Proof.
  destruct (onMutate_cases params s) as [H|[[e H]|(h & _ & _ & H)]].
  - unfold after. rewrite H. auto.
  - unfold after. rewrite H. auto.
  - rewrite H. simpl.
    destruct (sweep_frame (physical_keys this (tagsArray params)
                             (gathered s (tableNames params) [])) s) as (_ & -> & _ & ->).
    split; [reflexivity|]. split; [reflexivity|].
    intros Hs. apply (sweep_healthy _ _ Hs).
Qed.

(** On a healthy connection a tracked key of a listed table loses its
    store entry, and the method returns. *)
Lemma onMutate_deletes handle params s (t key : string) :
  redis this = Some handle ->
  healthy s ->
  Forall (trackable s) (tableNames params) ->
  t ∈ tableNames params ->
  key ∈ tracked s t ->
  result (onMutate this params) s = Normal tt
  /\ keyspace (after (onMutate this params) s) !! formatKey this key = None
  /\ forall t', t' ∈ tableNames params ->
       usedTablesPerKey (after (onMutate this params) s) !! t' = Some [].
Proof.
  intros Hh Hs Hall Ht Hk.
  assert (Hin : key ∈ gathered s (tableNames params) []).
  { apply gathered_elem. right. eauto. }
  assert (Hwork : ~ (gathered s (tableNames params) [] = [] /\ tagsArray params = [])).
  { intros [Hnil _]. rewrite Hnil in Hin. inversion Hin. }
  destruct (onMutate_sweeps this handle params s Hh Hall Hwork) as [Hst Hres].
  split; [apply Hres, Hs|]. rewrite Hst. simpl. split.
  - apply (sweep_healthy _ _ Hs). unfold physical_keys.
    apply elem_of_app. right. apply list_elem_of_fmap. eauto.
  - intros t' Ht'. rewrite cleared_lookup. rewrite bool_decide_eq_true_2 by exact Ht'.
    reflexivity.
Qed.
End OnMutateFrame.

(* ===================================================================== *)
(** * The TTL written by [put] *)
(* ===================================================================== *)

Lemma floor_of_div (x : Z) : floor_of x 1000 (x / 1000).
Proof.
  unfold floor_of. pose proof (Z.div_mod x 1000 ltac:(lia)) as Hd.
  pose proof (Z.mod_pos_bound x 1000 ltac:(lia)) as Hb. lia.
Qed.

Lemma floor_of_unique (x q1 q2 : Z) : floor_of x 1000 q1 -> floor_of x 1000 q2 -> q1 = q2.
Proof. unfold floor_of. lia. Qed.

(** The rule names one TTL. *)
Lemma ttl_rule_functional d now config t1 t2 :
  ttl_rule d now config t1 -> ttl_rule d now config t2 -> t1 = t2.
Proof.
  intros H1 H2. inversion H1; subst; inversion H2; subst; try congruence;
    repeat match goal with
           | Ha : ?f ?c = Some ?a, Hb : ?f ?c = Some ?b |- _ =>
               assert (a = b) by congruence; subst; clear Hb
           end;
    try reflexivity;
    try (f_equal; f_equal; eapply floor_of_unique; eassumption);
    eapply floor_of_unique; eassumption.
Qed.

Lemma seconds_rule this config now_ms :
  ttl_rule (defaultTtl this) (now_ms / 1000) config (seconds this config now_ms).
Proof.
  unfold seconds. destruct config as [c|]; [|constructor].
  destruct (ex c) eqn:E1; [apply ttl_ex; exact E1|].
  destruct (px c) eqn:E2; [eapply ttl_px; eauto using floor_of_div|].
  destruct (exat c) eqn:E3; [eapply ttl_exat; eauto|].
  destruct (pxat c) eqn:E4; [eapply ttl_pxat; eauto using floor_of_div|].
  apply ttl_default; assumption.
Qed.

(** C1. Every [put] of an instance with a store handle sends exactly one
    command, [SETEX] of the physical key, whose TTL is the one the
    specification's precedence names ([ex], else [floor(px/1000)], else
    [max(0, exat - now)], else [max(0, floor(pxat/1000) - now)], else the
    default), with [now] the clock in whole seconds; when the command
    reaches the server and the TTL is positive, the entry expires that many
    seconds from now.  In particular [{ex:10, px:5000}] gives 10, and a
    config without hints, or no config, gives [defaultTtl], which is 300
    unless the constructor was given another. *)
Theorem put_ttl_precedence this handle key response tables isTag config s :
  redis this = Some handle ->
  exists ttl,
    ttl_rule (defaultTtl this) (clock s / 1000) config ttl
    /\ floor_of (clock s) 1000 (clock s / 1000)
    /\ wire (after (put this key response tables isTag config) s)
       = (wire s ++ [SETEX (formatKey this key) ttl (JSON.stringify response)])%list
    /\ (lost s = false -> 0 < ttl ->
        keyspace (after (put this key response tables isTag config) s) !! formatKey this key
        = Some (JSON.stringify response, clock s + 1000 * ttl))
    /\ (forall c, config = Some c -> ex c = Some 10 -> px c = Some 5000 -> ttl = 10)
    /\ (config = Some no_hints \/ config = None -> ttl = defaultTtl this)
    /\ (forall options s0 built,
          result (constructor (Some options)) s0 = Normal built ->
          defaultTtl built = default 300 (Options.defaultTtl options)).
Proof.
  intros Hh. exists (seconds this config (clock s)).
  split; [apply seconds_rule|]. split; [apply floor_of_div|].
  unfold after. rewrite put_run, Hh. cbv zeta.
  set (ttl := seconds this config (clock s)).
  set (cmd := SETEX (formatKey this key) ttl (JSON.stringify response)).
  set (s1 := set_keyspace _ (sent cmd s)).
  pose proof (track_frame key tables s1) as (Hks & _ & _ & Hw & _). unfold after in Hks, Hw.
  split; [|split; [|split; [|split]]].
  - destruct (lost s); [reflexivity|]. destruct (0 <? ttl); [|reflexivity].
    destruct (track key tables s1) as [[[]|e] s2]; simpl in *; rewrite Hw; reflexivity.
  - intros -> Hpos. apply Z.ltb_lt in Hpos. rewrite Hpos.
    destruct (track key tables s1) as [[[]|e] s2]; simpl in *; rewrite Hks;
      apply lookup_insert_eq.
  - intros c -> He _. subst ttl. unfold seconds. rewrite He. reflexivity.
  - intros [-> | ->]; reflexivity.
  - intros options s0 built [= <-]. reflexivity.
Qed.

(** Worked example for C1: on the deployment of client.ts, [{ex:10, px:5000}]
    is written with 10 seconds and an empty config with the default 300. *)
Lemma put_ttl_precedence_witness :
  wire (after (put db_cache "q1" one_row ["users"] false
                 (Some {| ex := Some 10; px := Some 5000; exat := None; pxat := None |})) boot)
    = [SETEX "drizzle:db:q1" 10 (JSON.stringify one_row)]
  /\ wire (after (put db_cache "q1" one_row ["users"] false (Some no_hints)) boot)
    = [SETEX "drizzle:db:q1" 300 (JSON.stringify one_row)].
Proof.
  split.
  - destruct (put_ttl_precedence db_cache local_redis "q1" one_row ["users"] false
                (Some {| ex := Some 10; px := Some 5000; exat := None; pxat := None |})
                boot eq_refl) as (ttl & _ & _ & Hw & _ & H10 & _ & _).
    rewrite Hw, (H10 _ eq_refl eq_refl eq_refl). reflexivity.
  - destruct (put_ttl_precedence db_cache local_redis "q1" one_row ["users"] false
                (Some no_hints) boot eq_refl) as (ttl & _ & _ & Hw & _ & _ & Hd & _).
    rewrite Hw, (Hd (or_introl eq_refl)). reflexivity.
Defined.

(* ===================================================================== *)
(** * Invalidation: the short circuit and idempotence *)
(* ===================================================================== *)

(** C9. When the normalised tag list is empty and the first loop computes an
    empty deletion set, [onMutate] returns at once: no command goes on the
    wire and the whole state, the keyspace included, is as before.  In
    particular [onMutate({tags: [], tables: []})] does nothing in any
    state. *)
Theorem onMutate_short_circuit this params s :
  tagsArray params = [] ->
  result (collect (tablesArray params)) s = Normal [] ->
  result (onMutate this params) s = Normal tt
  /\ wire (after (onMutate this params) s) = wire s
  /\ keyspace (after (onMutate this params) s) = keyspace s
  /\ after (onMutate this params) s = s
  /\ forall s0, onMutate this {| tags := Many []; tables := Many [] |} s0 = (Normal tt, s0).
Proof.
  intros Htags Hkeys. unfold result, after.
  rewrite (onMutate_noop this params s Htags Hkeys). simpl.
  repeat split; reflexivity.
Qed.

(** Worked example for C9: a sweep over a table nothing is tracked under,
    after an unrelated [put], sends nothing. *)
Lemma onMutate_short_circuit_witness :
  let s := after (put db_cache "q1" one_row ["users"] false None) boot in
  wire (after (onMutate db_cache {| tags := Many []; tables := Many [ByName "posts"] |}) s)
  = wire s.
Proof.
  intros s.
  apply (onMutate_short_circuit db_cache
           {| tags := Many []; tables := Many [ByName "posts"] |} s);
    vm_compute; reflexivity.
Defined.

(** C7. Once [onMutate({tags: [], tables})] has returned, every listed table
    has an empty tracked key set, also a table nothing was tracked under; so
    the same call again, with no [put] in between, computes an empty
    deletion set, returns normally, sends nothing and changes nothing. *)
Theorem onMutate_idempotent this (listed : OneOrMany TableRef) s :
  let params := {| tags := Many []; tables := listed |} in
  result (onMutate this params) s = Normal tt ->
  let s1 := after (onMutate this params) s in
  (forall t, t ∈ tableNames params -> tracked s1 t = [])
  /\ result (collect (tablesArray params)) s1 = Normal []
  /\ result (onMutate this params) s1 = Normal tt
  /\ wire (after (onMutate this params) s1) = wire s1
  /\ after (onMutate this params) s1 = s1.
Proof.
  intros params Hret s1.
  assert (Hempty : forall t, t ∈ tableNames params -> tracked s1 t = []).
  { subst s1. destruct (onMutate_cases this params s) as [H|[[e H]|(h & Hh & Hall & H)]].
    - unfold after. rewrite H. simpl.
      destruct (decide (Forall (trackable s) (tableNames params))) as [Hall|Hnot].
      + apply gathered_nil.
        destruct (decide (gathered s (tableNames params) [] = [])) as [Hg|Hg]; [exact Hg|].
        exfalso.
        destruct (redis this) as [h|] eqn:Hh.
        * assert (Hwork : ~ (gathered s (tableNames params) [] = [] /\ tagsArray params = []))
            by (intros [? _]; contradiction).
          destruct (onMutate_sweeps this h params s Hh Hall Hwork) as [Hst _].
          unfold after in Hst. rewrite H in Hst. simpl in Hst.
          apply (f_equal wire) in Hst. simpl in Hst.
          destruct (sweep_frame (physical_keys this (tagsArray params)
                                   (gathered s (tableNames params) [])) s)
            as (_ & _ & Hw & _).
          rewrite Hw in Hst.
          apply (f_equal (@length Command)) in Hst.
          rewrite length_app, length_map in Hst. unfold physical_keys in Hst.
          rewrite length_app, !length_map in Hst.
          destruct (gathered s (tableNames params) []); [contradiction|simpl in Hst; lia].
        * rewrite (onMutate_no_client this params s Hh Hall) in H; [discriminate|].
          intros [? _]; contradiction.
      + destruct (onMutate_inherited this params s Hnot) as [msg Hm].
        rewrite Hm in H. discriminate.
    - unfold result in Hret. rewrite H in Hret. discriminate.
    - intros t Ht. rewrite H. unfold tracked. simpl.
      rewrite cleared_lookup, bool_decide_eq_true_2 by exact Ht. reflexivity. }
  assert (Hall1 : Forall (trackable s1) (tableNames params)).
  { subst s1. destruct (onMutate_cases this params s) as [H|[[e H]|(h & Hh & Hall & H)]].
    - unfold after. rewrite H. simpl.
      destruct (decide (Forall (trackable s) (tableNames params))) as [Hall|Hnot];
        [exact Hall|].
      destruct (onMutate_inherited this params s Hnot) as [msg Hm].
      rewrite Hm in H. discriminate.
    - unfold result in Hret. rewrite H in Hret. discriminate.
    - rewrite H. apply Forall_forall. intros t Ht. unfold trackable. simpl.
      rewrite cleared_lookup, bool_decide_eq_true_2 by exact Ht. discriminate. }
  assert (Hcollect : result (collect (tablesArray params)) s1 = Normal []).
  { unfold result. rewrite (collect_run _ _ Hall1). simpl.
    fold (tableNames params). f_equal. apply gathered_nil. exact Hempty. }
  split; [exact Hempty|]. split; [exact Hcollect|].
  unfold result, after.
  rewrite (onMutate_noop this params s1 eq_refl Hcollect). simpl. auto.
Qed.

(** Worked example for C7: two sweeps of [users] in a row; the first
    unlinks the tracked key, the second sends nothing. *)
Lemma onMutate_idempotent_witness :
  let params := {| tags := Many []; tables := Many [ByName "users"; ByName "posts"] |} in
  let s := after (put db_cache "q1" one_row ["users"] false None) boot in
  let s1 := after (onMutate db_cache params) s in
  wire s1 = (wire s ++ [UNLINK "drizzle:db:q1"])%list
  /\ tracked s1 "posts" = []
  /\ wire (after (onMutate db_cache params) s1) = wire s1.
Proof.
  intros params s s1.
  destruct (onMutate_idempotent db_cache (Many [ByName "users"; ByName "posts"]) s)
    as (Hempty & _ & _ & Hwire & _); [vm_compute; reflexivity|].
  split; [vm_compute; reflexivity|]. split; [|exact Hwire].
  apply Hempty. vm_compute. set_solver.
Defined.

(* ===================================================================== *)
(** * Invalidation by table *)
(* ===================================================================== *)

Section Reads.
Variable this : RedisDrizzleCache.
Implicit Types (s : State) (key : string).

(** What [get] returns is decided by the entry under the physical key,
    the clock and the fate of the one command it sends. *)
Lemma get_result_depends key s s' :
  keyspace s' !! formatKey this key = keyspace s !! formatKey this key ->
  clock s' = clock s ->
  lost s' = lost s ->
  result (get this key) s' = result (get this key) s.
Proof.
  intros Hk Hc Hl. unfold result. rewrite !get_run.
  destruct (redis this); [|reflexivity]. cbv zeta. rewrite Hl.
  destruct (lost s); [reflexivity|].
  unfold readable. rewrite Hk, Hc.
  destruct (keyspace s !! formatKey this key) as [[text expiry]|]; [|reflexivity].
  destruct (clock s <? expiry); [|reflexivity].
  destruct (String.eqb text EmptyString); [reflexivity|].
  destruct (JSON.parse text); reflexivity.
Qed.

(** No entry under the physical key: [get] returns absent. *)
Lemma get_absent key s :
  keyspace s !! formatKey this key = None -> result (get this key) s = Normal None.
Proof.
  intros Hk. unfold result. rewrite get_run.
  destruct (redis this); [|reflexivity]. cbv zeta.
  destruct (lost s); [reflexivity|]. unfold readable. rewrite Hk. reflexivity.
Qed.

Lemma healthy_not_lost s : healthy s -> lost s = false.
Proof. unfold healthy, lost. intros ->. reflexivity. Qed.
End Reads.

(** C3. Let [k2] be registered under every table of a non-empty list, and
    [k1] under none of them (its tables are disjoint from the list).  On a
    healthy connection, [onMutate({tags: [], tables})] over that list
    returns, removes the store entry of [k2] and leaves the store entry of
    [k1] and the tracked sets of every table [k1] is registered under as
    they were: [get(k1)] returns what it returned before, [get(k2)] returns
    absent. *)
Theorem onMutate_scoped this handle (k1 k2 : string) (listed : list TableRef) s :
  redis this = Some handle ->
  healthy s ->
  listed <> [] ->
  (forall t, t ∈ map tableName listed ->
     exists keys, usedTablesPerKey s !! t = Some keys /\ k2 ∈ keys) ->
  (forall t, t ∈ map tableName listed -> k1 ∉ tracked s t) ->
  let params := {| tags := Many []; tables := Many listed |} in
  let s' := after (onMutate this params) s in
  result (onMutate this params) s = Normal tt
  /\ keyspace s' !! formatKey this k2 = None
  /\ result (get this k2) s' = Normal None
  /\ keyspace s' !! formatKey this k1 = keyspace s !! formatKey this k1
  /\ (forall t, k1 ∈ tracked s t -> usedTablesPerKey s' !! t = usedTablesPerKey s !! t)
  /\ result (get this k1) s' = result (get this k1) s.
Proof.
  intros Hh Hs Hne Hk2 Hk1 params s'.
  assert (Hall : Forall (trackable s) (tableNames params)).
  { apply Forall_forall. intros t Ht. destruct (Hk2 t Ht) as (keys & E & _).
    unfold trackable. rewrite E. discriminate. }
  destruct listed as [|t0 listed']; [contradiction|].
  assert (Ht0 : tableName t0 ∈ tableNames params) by left.
  destruct (Hk2 _ Ht0) as (keys0 & E0 & Hin0).
  assert (Htr : k2 ∈ tracked s (tableName t0)) by (unfold tracked; rewrite E0; exact Hin0).
  destruct (onMutate_deletes this handle params s _ k2 Hh Hs Hall Ht0 Htr)
    as (Hret & Hgone & _).
  assert (Hkeep : keyspace s' !! formatKey this k1 = keyspace s !! formatKey this k1).
  { apply onMutate_keyspace_frame. unfold physical_keys.
    intros Hin. apply elem_of_app in Hin as [Hin|Hin]; [inversion Hin|].
    apply list_elem_of_fmap in Hin as (k & Heq & Hin).
    apply formatKey_inj in Heq. subst k.
    apply gathered_elem in Hin as [Hin|(t & Ht & Hin)]; [inversion Hin|].
    exact (Hk1 t Ht Hin). }
  split; [exact Hret|]. split; [exact Hgone|].
  split; [apply get_absent; exact Hgone|].
  split; [exact Hkeep|]. split.
  - intros t Ht. apply onMutate_index_frame.
    intros Hin. exact (Hk1 t Hin Ht).
  - destruct (onMutate_env_frame this params s) as (Hc & _ & Hh').
    apply get_result_depends; [exact Hkeep|exact Hc|].
    rewrite !healthy_not_lost; auto.
Qed.

(** Worked example for C3: [q1] under [users], [q2] under [posts], then a
    mutation of [posts]. *)
Lemma onMutate_scoped_witness :
  let s := after (put db_cache "q1" one_row ["users"] false None;;
                  put db_cache "q2" (JsArray []) ["posts"] false None) boot in
  let s' := after (onMutate db_cache {| tags := Many []; tables := Many [ByName "posts"] |}) s in
  result (get db_cache "q2") s' = Normal None
  /\ result (get db_cache "q1") s' = Normal (Some one_row)
  /\ tracked s' "users" = ["q1"].
Proof.
  intros s s'.
  destruct (onMutate_scoped db_cache local_redis "q1" "q2" [ByName "posts"] s)
    as (_ & _ & Hq2 & _ & Hidx & Hq1).
  - reflexivity.
  - vm_compute. reflexivity.
  - discriminate.
  - intros t Ht. apply list_elem_of_singleton in Ht. subst t.
    exists ["q2"]. split; [vm_compute; reflexivity|left].
  - intros t Ht. apply list_elem_of_singleton in Ht. subst t.
    replace (tracked s "posts") with ["q2"] by (vm_compute; reflexivity).
    intros H. apply list_elem_of_singleton in H. discriminate.
  - split; [exact Hq2|]. split.
    + fold s' in Hq1. rewrite Hq1. vm_compute. reflexivity.
    + unfold tracked. fold s' in Hidx. rewrite (Hidx "users").
      * vm_compute. reflexivity.
      * vm_compute. left.
Defined.

(** C10. A key registered under two tables [A] and [B]: a mutation of [A]
    alone returns, removes the key's store entry and empties the tracked set
    of [A], and changes the tracked set of no other table, so the key is
    still in the set of [B]; a later mutation of [B] returns, sends an
    [UNLINK] for the key although its entry is already gone, and the entry
    stays gone. *)
Theorem onMutate_touches_listed_tables_only
    this handle (A B key : string) (keysA keysB : list string) s :
  redis this = Some handle ->
  healthy s ->
  A <> B ->
  usedTablesPerKey s !! A = Some keysA -> key ∈ keysA ->
  usedTablesPerKey s !! B = Some keysB -> key ∈ keysB ->
  let s1 := after (mutate_table this A) s in
  let s2 := after (mutate_table this B) s1 in
  result (mutate_table this A) s = Normal tt
  /\ keyspace s1 !! formatKey this key = None
  /\ usedTablesPerKey s1 !! A = Some []
  /\ (forall t, t <> A -> usedTablesPerKey s1 !! t = usedTablesPerKey s !! t)
  /\ usedTablesPerKey s1 !! B = Some keysB
  /\ result (mutate_table this B) s1 = Normal tt
  /\ (exists keys, key ∈ keys
        /\ wire s2 = (wire s1 ++ map (fun k => UNLINK (formatKey this k)) keys)%list)
  /\ keyspace s2 !! formatKey this key = None
  /\ usedTablesPerKey s2 !! B = Some [].
Proof.
  intros Hh Hs HAB HA HinA HB HinB s1 s2. unfold mutate_table in *.
  set (pA := {| tags := Many []; tables := Many [ByName A] |}) in *.
  set (pB := {| tags := Many []; tables := Many [ByName B] |}) in *.
  assert (HallA : Forall (trackable s) (tableNames pA)).
  { repeat constructor. unfold trackable. simpl. rewrite HA. discriminate. }
  assert (HtrA : key ∈ tracked s A) by (unfold tracked; rewrite HA; exact HinA).
  destruct (onMutate_deletes this handle pA s A key Hh Hs HallA ltac:(left) HtrA)
    as (HretA & HgoneA & HclrA).
  assert (Hframe : forall t, t <> A -> usedTablesPerKey s1 !! t = usedTablesPerKey s !! t).
  { intros t Ht. apply onMutate_index_frame. simpl.
    intros Hin. apply list_elem_of_singleton in Hin. contradiction. }
  assert (HB1 : usedTablesPerKey s1 !! B = Some keysB).
  { rewrite Hframe by congruence. exact HB. }
  destruct (onMutate_env_frame this pA s) as (_ & _ & Hs1). specialize (Hs1 Hs).
  fold s1 in Hs1, HgoneA.
  assert (HallB : Forall (trackable s1) (tableNames pB)).
  { repeat constructor. unfold trackable. simpl. rewrite HB1. discriminate. }
  assert (HtrB : key ∈ tracked s1 B) by (unfold tracked; rewrite HB1; exact HinB).
  destruct (onMutate_deletes this handle pB s1 B key Hh Hs1 HallB ltac:(left) HtrB)
    as (HretB & HgoneB & HclrB).
  assert (HinG : key ∈ gathered s1 (tableNames pB) []).
  { apply gathered_elem. right. exists B. split; [left|exact HtrB]. }
  assert (Hwork : ~ (gathered s1 (tableNames pB) [] = [] /\ tagsArray pB = [])).
  { intros [Hnil _]. rewrite Hnil in HinG. inversion HinG. }
  destruct (onMutate_sweeps this handle pB s1 Hh HallB Hwork) as [Hst _].
  split; [exact HretA|]. split; [exact HgoneA|].
  split; [apply HclrA; left|]. split; [exact Hframe|]. split; [exact HB1|].
  split; [exact HretB|]. split; [|split; [exact HgoneB|apply HclrB; left]].
  exists (gathered s1 (tableNames pB) []). split; [exact HinG|].
  subst s2. rewrite Hst.
  change (wire (set_usedTablesPerKey ?f ?x)) with (wire x).
  destruct (sweep_frame (physical_keys this (tagsArray pB) (gathered s1 (tableNames pB) []))
              s1) as (_ & _ & Hw & _).
  rewrite Hw. unfold physical_keys. change (tagsArray pB) with (@nil string).
  cbn [map app]. rewrite List.map_map. reflexivity.
Qed.

(** Worked example for C10: [q1] reads [users] and [posts]. *)
Lemma onMutate_touches_listed_tables_only_witness :
  let s := after (put db_cache "q1" one_row ["users"; "posts"] false None) boot in
  let s1 := after (mutate_table db_cache "users") s in
  let s2 := after (mutate_table db_cache "posts") s1 in
  keyspace s1 !! "drizzle:db:q1" = None
  /\ usedTablesPerKey s1 !! "users" = Some []
  /\ usedTablesPerKey s1 !! "posts" = Some ["q1"]
  /\ wire s2 = (wire s1 ++ [UNLINK "drizzle:db:q1"])%list.
Proof.
  intros s s1 s2.
  destruct (onMutate_touches_listed_tables_only db_cache local_redis "users" "posts" "q1"
              ["q1"] ["q1"] s)
    as (_ & Hgone & HA & _ & HB & _ & _ & _ & _);
    try (vm_compute; reflexivity); try discriminate; try left.
  split; [exact Hgone|]. split; [exact HA|]. split; [exact HB|].
  vm_compute. reflexivity.
Defined.

(* ===================================================================== *)
(** * Failures stay inside [get] and [put] *)
(* ===================================================================== *)

Lemma call_run this cmd s :
  call this cmd s = match redis this with
                    | Some _ => send cmd s
                    | None => (Throws no_client, s)
                    end.
Proof. unfold call, client. destruct (redis this); reflexivity. Qed.

(** C4. [get] always completes normally.  It returns absent when no live
    entry is stored under the physical key, when the read fails (no handle,
    or the command is lost), and when the stored payload does not parse; a
    failed read and a payload that does not parse leave one line on the
    console (an empty payload counts as no entry and is not parsed).  A
    result other than absent is the parse of the stored payload. *)
Theorem get_never_raises this key s :
  (exists rows, result (get this key) s = Normal rows)
  /\ (readable s (formatKey this key) = None -> result (get this key) s = Normal None)
  /\ (redis this = None \/ lost s = true ->
      result (get this key) s = Normal None
      /\ exists e, console (after (get this key) s)
                   = (console s ++ [(get_failed this key, e)])%list)
  /\ (forall text e,
        readable s (formatKey this key) = Some text -> JSON.parse text = Throws e ->
        result (get this key) s = Normal None
        /\ (redis this <> None -> lost s = false -> text <> EmptyString ->
            console (after (get this key) s)
            = (console s ++ [(get_failed this key, e)])%list))
  /\ (forall rows, result (get this key) s = Normal (Some rows) ->
        exists text, readable s (formatKey this key) = Some text
                     /\ JSON.parse text = Normal rows).
Proof.
  unfold result, after. rewrite get_run.
  destruct (redis this) as [h|] eqn:Hh; cbv zeta.
  2:{ simpl. split; [eauto|]. split; [auto|].
      split; [intros _; split; [reflexivity|eexists; reflexivity]|].
      split; [intros text e _ _; split; [reflexivity|intros Hc; contradiction]|].
      intros rows; discriminate. }
  destruct (lost s) eqn:Hl.
  { simpl. split; [eauto|]. split; [auto|].
    split; [intros _; split; [reflexivity|eexists; reflexivity]|].
    split; [intros text e _ _; split; [reflexivity|intros _ Hc; discriminate]|].
    intros rows; discriminate. }
  destruct (readable s (formatKey this key)) as [text|] eqn:Hr.
  2:{ simpl. split; [eauto|]. split; [auto|].
      split; [intros [Hc|Hc]; discriminate|].
      split; [intros text e Hc; discriminate|].
      intros rows; discriminate. }
  destruct (String.eqb text EmptyString) eqn:He.
  { apply String.eqb_eq in He. subst text. simpl.
    split; [eauto|]. split; [auto|].
    split; [intros [Hc|Hc]; discriminate|].
    split; [intros text e [= <-] _; split; [reflexivity|intros _ _ Hc; contradiction]|].
    intros rows; discriminate. }
  destruct (JSON.parse text) as [rows|e] eqn:Hp; simpl.
  - split; [eauto|]. split; [discriminate|].
    split; [intros [Hc|Hc]; discriminate|].
    split; [intros text' e' [= <-] Hp'; congruence|].
    intros rows' [= <-]. eauto.
  - split; [eauto|]. split; [discriminate|].
    split; [intros [Hc|Hc]; discriminate|].
    split; [intros text' e' [= <-] Hp'; split; [reflexivity|intros _ _ _; congruence]|].
    intros rows; discriminate.
Qed.

(** Worked example for C4: a payload that is no JSON is a miss, with one
    line on the console. *)
Lemma get_never_raises_witness :
  result (get db_cache "q1") corrupt = Normal None
  /\ length (console (after (get db_cache "q1") corrupt)) = 1%nat.
Proof.
  destruct (get_never_raises db_cache "q1" corrupt) as (_ & _ & _ & Hbad & _).
  destruct (Hbad "{oops" (SyntaxError "Unexpected token in JSON")) as [Hres Hlog];
    try (vm_compute; reflexivity).
  split; [exact Hres|]. rewrite Hlog; [reflexivity|discriminate|reflexivity|discriminate].
Defined.

(** C6. [put] always completes normally.  When the store write fails (no
    handle, a lost command, or a TTL the server refuses), the error is put
    on the console and the index is exactly as before; so the index changes
    only when the write has succeeded. *)
Theorem put_never_raises this key response tables isTag config s :
  let write := call this (SETEX (formatKey this key) (seconds this config (clock s))
                            (JSON.stringify response)) in
  let s' := after (put this key response tables isTag config) s in
  result (calculateTtl this config) s = Normal (seconds this config (clock s))
  /\ result (put this key response tables isTag config) s = Normal tt
  /\ (forall e, result write s = Throws e ->
        usedTablesPerKey s' = usedTablesPerKey s
        /\ console s' = (console s ++ [(put_failed this key, e)])%list)
  /\ (usedTablesPerKey s' <> usedTablesPerKey s -> exists reply, result write s = Normal reply).
Proof.
  intros write s'. subst write s'. unfold result, after.
  rewrite calculateTtl_run, put_run, call_run. cbv zeta.
  split; [reflexivity|].
  destruct (redis this) as [h|].
  2:{ simpl. split; [reflexivity|]. split; [intros e [= <-]; auto|].
      intros H. contradiction. }
  unfold send. destruct (lost s).
  { simpl. split; [reflexivity|]. split; [intros e [= <-]; auto|].
    intros H. contradiction. }
  simpl serve. destruct (0 <? seconds this config (clock s)).
  2:{ simpl. split; [reflexivity|]. split; [intros e [= <-]; auto|].
      intros H. contradiction. }
  simpl. destruct (track key tables _) as [[[]|e'] s2]; simpl.
  - split; [reflexivity|]. split; [intros e; discriminate|]. eauto.
  - split; [reflexivity|]. split; [intros e; discriminate|]. eauto.
Qed.

(** Worked example for C6: the connection drops for the [SETEX]. *)
Lemma put_never_raises_witness :
  let down := {| usedTablesPerKey := {[ "users" := ["q0"] ]}; keyspace := ∅;
                 clock := 1700000000000; faults := [true]; wire := []; console := [] |} in
  usedTablesPerKey (after (put db_cache "q1" one_row ["users"; "posts"] false None) down)
    = {[ "users" := ["q0"] ]}
  /\ length (console (after (put db_cache "q1" one_row ["users"; "posts"] false None) down))
     = 1%nat.
Proof.
  intros down.
  destruct (put_never_raises db_cache "q1" one_row ["users"; "posts"] false None down)
    as (_ & _ & Hfail & _).
  destruct (Hfail (RedisError "Connection closed")) as [Hidx Hlog];
    [vm_compute; reflexivity|].
  split; [exact Hidx|]. rewrite Hlog. reflexivity.
Defined.

(* ===================================================================== *)
(** * Construction *)
(* ===================================================================== *)

(** C5, as stated, fails: constructing from options without a store handle
    completes normally. *)
Lemma constructor_accepts_missing_handle :
  ~ (forall config s,
       Options.redis config = None ->
       exists e, result (constructor (Some config)) s = Throws e).
Proof.
  intros H. destruct (H no_store boot eq_refl) as [e He]. discriminate.
Qed.

(** C5, amended. Given an options object the constructor never raises and
    checks nothing: it copies the handle as given, present or not, fills in
    the defaults (300 seconds, the namespace [drizzle], the strategy [all])
    and starts with an empty index; it raises only when called with no
    options object at all.  An instance built without a handle sends no
    command: [get] returns absent and [put] returns normally, each with a
    [TypeError] on the console, and [put] registers nothing. *)
Theorem constructor_never_raises config s :
  (exists e, constructor None s = (Throws (TypeError e), s))
  /\ exists this,
      result (constructor (Some config)) s = Normal this
      /\ redis this = Options.redis config
      /\ defaultTtl this = default 300 (Options.defaultTtl config)
      /\ namespace this = default "drizzle" (Options.namespace config)
      /\ strategy this = default strategy_all (Options.strategy config)
      /\ usedTablesPerKey (after (constructor (Some config)) s) = ∅
      /\ (Options.redis config = None ->
          forall key rows tables isTag hints s',
            result (get this key) s' = Normal None
            /\ after (get this key) s' = logged (get_failed this key) no_client s'
            /\ result (put this key rows tables isTag hints) s' = Normal tt
            /\ after (put this key rows tables isTag hints) s'
               = logged (put_failed this key) no_client s').
Proof.
  split; [eexists; reflexivity|].
  eexists. split; [reflexivity|]. simpl. repeat (split; [reflexivity|]).
  intros Hnone key rows tbls isTag hints s'.
  unfold result, after. rewrite get_run, put_run. simpl. rewrite Hnone.
  repeat split; reflexivity.
Qed.

(** The deployment of client.ts is what the constructor builds from its
    options. *)
Lemma constructor_db_cache s :
  result (constructor (Some db_options)) s = Normal db_cache.
Proof. reflexivity. Qed.

(* ===================================================================== *)
(** * Invalidation after a [put] *)
(* ===================================================================== *)

(** C2, at the table name [constructor]. [put] writes the entry, but the
    look-up [usedTablesPerKey[table]] finds [Object.prototype.constructor],
    so the key is not registered and the [TypeError] of [keys.includes] is
    only logged; the [onMutate] for that table then rejects with a
    [TypeError] before anything is unlinked, and [get] still returns the
    rows. *)
Theorem onMutate_misses_prototype_names :
  let s1 := after (put db_cache "q1" one_row ["constructor"] false None) boot in
  let sweep_it := onMutate db_cache {| tags := Many []; tables := Many [ByName "constructor"] |} in
  keyspace s1 !! "drizzle:db:q1" = Some (JSON.stringify one_row, 1700000300000)
  /\ usedTablesPerKey s1 = ∅
  /\ console s1 = [(put_failed db_cache "q1", TypeError "keys.includes is not a function")]
  /\ result sweep_it s1 = Throws (TypeError "keys is not iterable")
  /\ after sweep_it s1 = s1
  /\ result (get db_cache "q1") (after sweep_it s1) = Normal (Some one_row).
Proof. vm_compute. repeat split; reflexivity. Qed.

Lemma register_elem (key : string) (m : gmap string (list string)) (t : string) :
  exists keys, register key m t !! t = Some keys /\ key ∈ keys.
Proof.
  unfold register. destruct (m !! t) as [keys|] eqn:E.
  - unfold includes. case_bool_decide.
    + exists keys. auto.
    + exists (keys ++ [key])%list. rewrite lookup_insert_eq. split; [reflexivity|].
      apply elem_of_app. right. left.
  - exists [key]. rewrite lookup_insert_eq. split; [reflexivity|left].
Qed.

(** For a table name that [Object.prototype] does not define, on a healthy
    connection: a [put] whose write succeeds, then the mutation of the
    table, leaves no entry under the key, and [get] returns absent from
    then on. *)
Lemma put_then_onMutate this handle key rows (t : string) isTag config s :
  redis this = Some handle ->
  healthy s ->
  inherited t = false ->
  0 < seconds this config (clock s) ->
  let s1 := after (put this key rows [t] isTag config) s in
  let s2 := after (mutate_table this t) s1 in
  keyspace s1 !! formatKey this key
    = Some (JSON.stringify rows, clock s + 1000 * seconds this config (clock s))
  /\ result (mutate_table this t) s1 = Normal tt
  /\ keyspace s2 !! formatKey this key = None
  /\ forall d, result (get this key) (elapse d s2) = Normal None.
Proof.
  intros Hh Hs Ht Hpos s1 s2.
  assert (Hs1 : s1 = set_usedTablesPerKey (fun m => register key m t)
                       (set_keyspace
                          (insert (formatKey this key)
                             (JSON.stringify rows,
                              clock s + 1000 * seconds this config (clock s)))
                          (sent (SETEX (formatKey this key) (seconds this config (clock s))
                                   (JSON.stringify rows)) s))).
  { subst s1. unfold after. rewrite put_run, Hh. cbv zeta.
    rewrite (healthy_not_lost s Hs). apply Z.ltb_lt in Hpos. rewrite Hpos.
    rewrite track_run by (repeat constructor; exact Ht). reflexivity. }
  assert (Hk1 : keyspace s1 !! formatKey this key
                = Some (JSON.stringify rows, clock s + 1000 * seconds this config (clock s))).
  { rewrite Hs1. simpl. apply lookup_insert_eq. }
  assert (Hh1 : healthy s1).
  { rewrite Hs1. unfold healthy in *. simpl. rewrite Hs. reflexivity. }
  destruct (register_elem key (usedTablesPerKey s) t) as (keys & Hreg & Hin).
  assert (Hidx : usedTablesPerKey s1 !! t = Some keys).
  { rewrite Hs1. simpl. exact Hreg. }
  set (params := {| tags := Many []; tables := Many [ByName t] |}).
  assert (Hall : Forall (trackable s1) (tableNames params)).
  { repeat constructor. unfold trackable. simpl. rewrite Hidx. discriminate. }
  assert (Htr : key ∈ tracked s1 t) by (unfold tracked; rewrite Hidx; exact Hin).
  destruct (onMutate_deletes this handle params s1 t key Hh Hh1 Hall ltac:(left) Htr)
    as (Hret & Hgone & _).
  split; [exact Hk1|]. split; [exact Hret|]. split; [exact Hgone|].
  intros d. apply get_absent. exact Hgone.
Qed.

Section Registering.
Variable key : string.
Implicit Types (m : gmap string (list string)) (t : string).

Lemma register_other m t t' : t' <> t -> register key m t !! t' = m !! t'.
Proof.
  intros Hne. unfold register. destruct (m !! t) as [keys|].
  - destruct (includes keys key); [reflexivity|]. apply lookup_insert_ne. congruence.
  - apply lookup_insert_ne. congruence.
Qed.

Lemma register_self m t : registered key (register key m t) t.
Proof. apply register_elem. Qed.

Lemma register_keeps_others m t t' (k : string) :
  k <> key ->
  (k ∈ default [] (register key m t !! t') <-> k ∈ default [] (m !! t')).
Proof.
  intros Hk. destruct (decide (t' = t)) as [->|Hne].
  2:{ rewrite register_other by exact Hne. reflexivity. }
  unfold register. destruct (m !! t) as [keys|] eqn:E.
  - destruct (includes keys key).
    + rewrite E. reflexivity.
    + rewrite lookup_insert_eq. simpl. rewrite elem_of_app, list_elem_of_singleton.
      split; [intros [H|H]; [exact H|contradiction]|auto].
  - rewrite lookup_insert_eq. simpl. rewrite list_elem_of_singleton.
    split; [contradiction|inversion 1].
Qed.

Lemma register_registered m t t' :
  registered key m t' -> registered key (register key m t) t'.
Proof.
  intros (keys & E & Hin). destruct (decide (t' = t)) as [->|Hne].
  - apply register_self.
  - exists keys. rewrite register_other by exact Hne. auto.
Qed.

Lemma registers_all (tables : list string) m :
  let m' := fold_left (register key) tables m in
  (forall t, t ∈ tables -> registered key m' t)
  /\ (forall t, registered key m t -> registered key m' t)
  /\ (forall t, t ∉ tables -> m' !! t = m !! t)
  /\ (forall t k, k <> key -> (k ∈ default [] (m' !! t) <-> k ∈ default [] (m !! t))).
Proof.
  revert m. induction tables as [|t0 tables IH]; intros m; cbn [fold_left].
  - split; [intros t Ht; inversion Ht|]. split; [auto|]. split; [auto|]. reflexivity.
  - destruct (IH (register key m t0)) as (Hin & Hkeep & Hout & Hothers).
    split; [|split; [|split]].
    + intros t Ht. apply elem_of_cons in Ht as [->|Ht]; [|auto].
      apply Hkeep, register_self.
    + intros t Ht. apply Hkeep, register_registered, Ht.
    + intros t Ht. rewrite Hout by set_solver. apply register_other. set_solver.
    + intros t k Hk. rewrite (Hothers t k Hk). apply register_keeps_others. exact Hk.
Qed.
End Registering.

(** A [put] whose write succeeds registers its key under each of its tables,
    when no table name is one of [Object.prototype]; the tracked sets keep
    every other key, and other tables are not touched. *)
Lemma put_registers this handle key rows (tables : list string) isTag config s :
  redis this = Some handle ->
  lost s = false ->
  0 < seconds this config (clock s) ->
  Forall (fun t => inherited t = false) tables ->
  let s' := after (put this key rows tables isTag config) s in
  keyspace s' !! formatKey this key
    = Some (JSON.stringify rows, clock s + 1000 * seconds this config (clock s))
  /\ (forall physical, physical <> formatKey this key ->
        keyspace s' !! physical = keyspace s !! physical)
  /\ (forall t, t ∈ tables -> registered key (usedTablesPerKey s') t)
  /\ (forall t, t ∉ tables -> usedTablesPerKey s' !! t = usedTablesPerKey s !! t)
  /\ (forall t k, k <> key -> (k ∈ tracked s' t <-> k ∈ tracked s t))
  /\ faults s' = tail (faults s)
  /\ clock s' = clock s.
Proof.
  intros Hh Hl Hpos Hall s'. subst s'. unfold after.
  rewrite put_run, Hh. cbv zeta. rewrite Hl. apply Z.ltb_lt in Hpos. rewrite Hpos.
  rewrite (track_run key tables _ Hall). simpl.
  destruct (registers_all key tables (usedTablesPerKey s)) as (Hin & _ & Hout & Hothers).
  split; [apply lookup_insert_eq|].
  split; [intros physical Hne; apply lookup_insert_ne; congruence|].
  split; [exact Hin|]. split; [exact Hout|]. split; [exact Hothers|]. auto.
Qed.

(* ===================================================================== *)
(** * JSON: what [stringify] writes, [parse] reads back *)
(* ===================================================================== *)

Section ReadBack.
Import JSON.

Lemma append_nil_l (b : string) : (EmptyString ++ b)%string = b.
Proof. reflexivity. Qed.

Lemma append_cons (x : ascii) (a b : string) : (String x a ++ b)%string = String x (a ++ b).
Proof. reflexivity. Qed.

Lemma append_assoc' (a b c : string) : ((a ++ b) ++ c)%string = (a ++ (b ++ c))%string.
Proof.
  induction a as [|x a IH]; [reflexivity|].
  rewrite !append_cons, IH. reflexivity.
Qed.

Lemma parse_chars_escape (c : ascii) (tail : string) :
  parse_chars (escape c ++ tail) = cons_char c (parse_chars tail).
Proof.
  destruct c as [[] [] [] [] [] [] [] []]; reflexivity.
Qed.

Lemma parse_chars_quote (s rest : string) :
  parse_chars (escape_all s ++ String dquote rest) = Some (s, rest).
Proof.
  induction s as [|c s IH].
  - reflexivity.
  - change (escape_all (String c s)) with (escape c ++ escape_all s)%string.
    rewrite append_assoc', parse_chars_escape, IH. reflexivity.
Qed.


Lemma span_digits_text (d : Decimal.uint) (rest : string) :
  stops_number rest = true ->
  span_digits (NilEmpty.string_of_uint d ++ rest) = (NilEmpty.string_of_uint d, rest).
Proof.
  intros Hrest. induction d; cbn [NilEmpty.string_of_uint];
    rewrite ?append_cons; try (cbn [span_digits]; rewrite IHd; reflexivity).
  rewrite append_nil_l. destruct rest as [|c rest]; [reflexivity|].
  cbn [span_digits]. unfold stops_number in Hrest.
  destruct (is_digit c); [discriminate|reflexivity].
Qed.

Lemma to_uint_unorm (p : positive) : Decimal.unorm (Pos.to_uint p) = Pos.to_uint p.
Proof.
  rewrite <- (DecimalPos.Unsigned.to_of (Pos.to_uint p)).
  rewrite DecimalPos.Unsigned.of_to. reflexivity.
Qed.

Lemma to_uint_no_leading_zero (p : positive) (u : Decimal.uint) : Pos.to_uint p <> Decimal.D0 u.
Proof.
  intros H. pose proof (to_uint_unorm p) as Hn. rewrite H in Hn.
  rewrite DecimalFacts.unorm_D0 in Hn. destruct u as [|u|u|u|u|u|u|u|u|u|u].
  - apply (DecimalPos.Unsigned.to_uint_nonzero p). exact H.
  - pose proof (DecimalFacts.nb_digits_unorm (Decimal.D0 u) ltac:(discriminate)) as Hl. rewrite Hn in Hl. simpl in Hl. lia.
  - pose proof (DecimalFacts.nb_digits_unorm (Decimal.D1 u) ltac:(discriminate)) as Hl. rewrite Hn in Hl. simpl in Hl. lia.
  - pose proof (DecimalFacts.nb_digits_unorm (Decimal.D2 u) ltac:(discriminate)) as Hl. rewrite Hn in Hl. simpl in Hl. lia.
  - pose proof (DecimalFacts.nb_digits_unorm (Decimal.D3 u) ltac:(discriminate)) as Hl. rewrite Hn in Hl. simpl in Hl. lia.
  - pose proof (DecimalFacts.nb_digits_unorm (Decimal.D4 u) ltac:(discriminate)) as Hl. rewrite Hn in Hl. simpl in Hl. lia.
  - pose proof (DecimalFacts.nb_digits_unorm (Decimal.D5 u) ltac:(discriminate)) as Hl. rewrite Hn in Hl. simpl in Hl. lia.
  - pose proof (DecimalFacts.nb_digits_unorm (Decimal.D6 u) ltac:(discriminate)) as Hl. rewrite Hn in Hl. simpl in Hl. lia.
  - pose proof (DecimalFacts.nb_digits_unorm (Decimal.D7 u) ltac:(discriminate)) as Hl. rewrite Hn in Hl. simpl in Hl. lia.
  - pose proof (DecimalFacts.nb_digits_unorm (Decimal.D8 u) ltac:(discriminate)) as Hl. rewrite Hn in Hl. simpl in Hl. lia.
  - pose proof (DecimalFacts.nb_digits_unorm (Decimal.D9 u) ltac:(discriminate)) as Hl. rewrite Hn in Hl. simpl in Hl. lia.
Qed.

Lemma stops_continued (rest : string) :
  stops_number rest = true ->
  match rest with
  | String c _ => Ascii.eqb c "." || Ascii.eqb c "e" || Ascii.eqb c "E"
  | EmptyString => false
  end = false.
Proof.
  destruct rest as [|c rest]; [reflexivity|]. unfold stops_number.
  destruct (is_digit c), (Ascii.eqb c "."), (Ascii.eqb c "e"), (Ascii.eqb c "E");
    simpl; congruence.
Qed.

Lemma uint_text_roundtrip (d : Decimal.uint) :
  d <> Decimal.Nil -> NilZero.uint_of_string (NilEmpty.string_of_uint d) = Some d.
Proof.
  intros Hd. rewrite <- (NilZero.usu d Hd). destruct d; [contradiction|..]; reflexivity.
Qed.

(** The tail of [parse_number], once the digits are split off. *)
Lemma parse_number_tail (neg : bool) (d : Decimal.uint) (rest : string) :
  d <> Decimal.Nil ->
  (d = Decimal.D0 Decimal.Nil \/ forall u, d <> Decimal.D0 u) ->
  stops_number rest = true ->
  (let ds := NilEmpty.string_of_uint d in
   let continued :=
     match rest with
     | String c _ => Ascii.eqb c "." || Ascii.eqb c "e" || Ascii.eqb c "E"
     | EmptyString => false
     end in
   match ds with
   | EmptyString => None
   | String c (String _ _ as more) =>
       if Ascii.eqb c "0" || continued then None
       else match NilZero.uint_of_string ds with
            | Some d => Some (if neg then - Z.of_uint d else Z.of_uint d, rest)
            | None => None
            end
   | _ =>
       if continued then None
       else match NilZero.uint_of_string ds with
            | Some d => Some (if neg then - Z.of_uint d else Z.of_uint d, rest)
            | None => None
            end
   end) = Some (if neg then - Z.of_uint d else Z.of_uint d, rest).
Proof.
  intros Hd Hlead Hrest. cbv zeta.
  rewrite (stops_continued rest Hrest), (uint_text_roundtrip d Hd).
  destruct d as [|u|u|u|u|u|u|u|u|u|u]; [contradiction|..];
    cbn [NilEmpty.string_of_uint];
    try (destruct (NilEmpty.string_of_uint u); reflexivity).
  destruct Hlead as [Hz|Hnz].
  - injection Hz as ->. reflexivity.
  - exfalso. apply (Hnz u). reflexivity.
Qed.

Lemma parse_number_unsigned (d : Decimal.uint) (rest : string) :
  d <> Decimal.Nil ->
  (d = Decimal.D0 Decimal.Nil \/ forall u, d <> Decimal.D0 u) ->
  stops_number rest = true ->
  parse_number (NilEmpty.string_of_uint d ++ rest) = Some (Z.of_uint d, rest).
Proof.
  intros Hd Hlead Hrest. unfold parse_number.
  assert (Hhead :
    match (NilEmpty.string_of_uint d ++ rest)%string with
    | String c s' =>
        if Ascii.eqb c "-" then (true, s')
        else (false, (NilEmpty.string_of_uint d ++ rest)%string)
    | EmptyString => (false, (NilEmpty.string_of_uint d ++ rest)%string)
    end = (false, (NilEmpty.string_of_uint d ++ rest)%string)).
  { destruct d; [contradiction|..]; reflexivity. }
  rewrite Hhead, (span_digits_text d rest Hrest).
  apply (parse_number_tail false d rest Hd Hlead Hrest).
Qed.

Lemma parse_number_signed (d : Decimal.uint) (rest : string) :
  d <> Decimal.Nil ->
  (d = Decimal.D0 Decimal.Nil \/ forall u, d <> Decimal.D0 u) ->
  stops_number rest = true ->
  parse_number (String "-" (NilEmpty.string_of_uint d ++ rest)) = Some (- Z.of_uint d, rest).
Proof.
  intros Hd Hlead Hrest. unfold parse_number.
  change (Ascii.eqb "-" "-") with true. cbv iota beta.
  rewrite (span_digits_text d rest Hrest).
  apply (parse_number_tail true d rest Hd Hlead Hrest).
Qed.

Lemma parse_number_digits (n : Z) (rest : string) :
  stops_number rest = true ->
  parse_number (JSON.digits n ++ rest) = Some (n, rest).
Proof.
  intros Hrest. unfold JSON.digits.
  pose proof (DecimalZ.of_to n) as Hn.
  destruct n as [|p|p]; cbn [Z.to_int NilZero.string_of_int] in *.
  - apply (parse_number_unsigned (Decimal.D0 Decimal.Nil) rest); [discriminate|left; reflexivity|exact Hrest].
  - assert (Hd : Pos.to_uint p <> Decimal.Nil) by apply DecimalPos.Unsigned.to_uint_nonnil.
    replace (NilZero.string_of_uint (Pos.to_uint p))
      with (NilEmpty.string_of_uint (Pos.to_uint p))
      by (destruct (Pos.to_uint p); [contradiction|..]; reflexivity).
    rewrite parse_number_unsigned; [|exact Hd|right; apply to_uint_no_leading_zero|exact Hrest].
    cbn [Z.of_int] in Hn. rewrite Hn. reflexivity.
  - assert (Hd : Pos.to_uint p <> Decimal.Nil) by apply DecimalPos.Unsigned.to_uint_nonnil.
    replace (NilZero.string_of_uint (Pos.to_uint p))
      with (NilEmpty.string_of_uint (Pos.to_uint p))
      by (destruct (Pos.to_uint p); [contradiction|..]; reflexivity).
    rewrite append_cons.
    rewrite parse_number_signed; [|exact Hd|right; apply to_uint_no_leading_zero|exact Hrest].
    cbn [Z.of_int] in Hn. rewrite Hn. reflexivity.
Qed.


Lemma JsValue_induction (P : JsValue -> Prop) :
  P JsNull ->
  (forall b, P (JsBool b)) ->
  (forall n, P (JsNumber n)) ->
  (forall s, P (JsString s)) ->
  (forall ms, P (JsDate ms)) ->
  (forall elems, Forall P elems -> P (JsArray elems)) ->
  (forall props, Forall (fun p => P (snd p)) props -> P (JsObject props)) ->
  forall v, P v.
Proof.
  intros Hnull Hbool Hnum Hstr Hdate Harr Hobj.
  fix IH 1. intros [|b|n|s|ms|elems|props].
  - exact Hnull.
  - apply Hbool.
  - apply Hnum.
  - apply Hstr.
  - apply Hdate.
  - apply Harr. induction elems as [|e elems IHl]; constructor; [apply IH|exact IHl].
  - apply Hobj. induction props as [|[k e] props IHl]; constructor; [apply IH|exact IHl].
Qed.

Lemma digits_head (n : Z) :
  exists c tl, JSON.digits n = String c tl /\ (is_digit c = true \/ c = "-"%char).
Proof.
  unfold JSON.digits. destruct n as [|p|p]; cbn [Z.to_int NilZero.string_of_int].
  - exists "0"%char, EmptyString. split; [reflexivity|left; reflexivity].
  - pose proof (DecimalPos.Unsigned.to_uint_nonnil p) as Hd.
    destruct (Pos.to_uint p); [contradiction|..];
      eexists _, _; (split; [reflexivity|left; reflexivity]).
  - eexists _, _. split; [reflexivity|right; reflexivity].
Qed.

Lemma stringify_head (v : JsValue) :
  exists c tl, stringify v = String c tl /\ opens c = true.
Proof.
  destruct v as [|[]|n|s|ms|elems|props]; try (eexists _, _; split; reflexivity).
  - destruct (digits_head n) as (c & tl & E & Hc). exists c, tl. split; [exact E|].
    destruct Hc as [Hc| ->]; [|reflexivity].
    destruct c as [[] [] [] [] [] [] [] []]; try discriminate; reflexivity.
  - cbn [stringify]. destruct (valid_time ms); eexists _, _; split; reflexivity.
Qed.

Lemma skip_ws_stays (c : ascii) (tl : string) :
  is_ws c = false -> skip_ws (String c tl) = String c tl.
Proof. intros H. cbn [skip_ws]. rewrite H. reflexivity. Qed.

Lemma skip_ws_opens (c : ascii) (tl : string) :
  opens c = true -> skip_ws (String c tl) = String c tl.
Proof.
  intros H. cbn [skip_ws]. unfold opens in H. destruct (is_ws c); [discriminate|reflexivity].
Qed.

(** One step of each parser, by the first character. *)

Lemma parse_value_number (fuel : nat) (c : ascii) (tl : string) :
  is_digit c = true \/ c = "-"%char ->
  parse_value (S fuel) (String c tl)
  = match parse_number (String c tl) with
    | Some (n, rest) => Some (JsNumber n, rest)
    | None => None
    end.
Proof.
  intros [H| ->]; [|reflexivity].
  destruct c as [[] [] [] [] [] [] [] []]; try discriminate H; reflexivity.
Qed.

Lemma parse_value_string (fuel : nat) (tl : string) :
  parse_value (S fuel) (String dquote tl)
  = match parse_chars tl with
    | Some (body, rest) => Some (JsString body, rest)
    | None => None
    end.
Proof. reflexivity. Qed.

Lemma parse_value_array (fuel : nat) (tl : string) :
  parse_value (S fuel) (String "[" tl)
  = match skip_ws tl with
    | String c1 rest as s1 =>
        if Ascii.eqb c1 "]" then Some (JsArray [], rest)
        else match parse_elements fuel s1 with
             | Some (elems, rest') => Some (JsArray elems, rest')
             | None => None
             end
    | EmptyString => None
    end.
Proof. reflexivity. Qed.

Lemma parse_value_object (fuel : nat) (tl : string) :
  parse_value (S fuel) (String "{" tl)
  = match skip_ws tl with
    | String c1 rest as s1 =>
        if Ascii.eqb c1 "}" then Some (JsObject [], rest)
        else match parse_members fuel s1 with
             | Some (members, rest') => Some (JsObject (define_all members), rest')
             | None => None
             end
    | EmptyString => None
    end.
Proof. reflexivity. Qed.

Lemma parse_elements_step (fuel : nat) (s : string) :
  parse_elements (S fuel) s
  = match parse_value fuel s with
    | Some (v, s1) =>
        match skip_ws s1 with
        | String c s2 =>
            if Ascii.eqb c "," then
              match parse_elements fuel s2 with
              | Some (vs, rest) => Some (v :: vs, rest)
              | None => None
              end
            else if Ascii.eqb c "]" then Some ([v], s2)
            else None
        | EmptyString => None
        end
    | None => None
    end.
Proof. reflexivity. Qed.

Lemma parse_members_step (fuel : nat) (tl : string) :
  parse_members (S fuel) (String dquote tl)
  = match parse_chars tl with
    | Some (k, s2) =>
        match skip_ws s2 with
        | String colon s3 =>
            if Ascii.eqb colon ":" then
              match parse_value fuel s3 with
              | Some (v, s4) =>
                  match skip_ws s4 with
                  | String c s5 =>
                      if Ascii.eqb c "," then
                        match parse_members fuel s5 with
                        | Some (ms, rest) => Some ((k, v) :: ms, rest)
                        | None => None
                        end
                      else if Ascii.eqb c "}" then Some ([(k, v)], s5)
                      else None
                  | EmptyString => None
                  end
              | None => None
              end
            else None
        | EmptyString => None
        end
    | None => None
    end.
Proof. reflexivity. Qed.

Lemma joined_cons {A} (item : A -> string) (x y : A) (l : list A) :
  joined item (x :: y :: l) = (item x ++ "," ++ joined item (y :: l))%string.
Proof. reflexivity. Qed.

Lemma parse_elements_joined (elems : list JsValue) :
  elems <> [] ->
  Forall reads_back elems ->
  forall fuel rest,
    (weights elems <= fuel)%nat ->
    parse_elements fuel (joined stringify elems ++ String "]" rest) = Some (elems, rest).
Proof.
  intros Hne Hall. induction Hall as [|e elems He Hall IH]; [contradiction|].
  intros fuel rest Hfuel. unfold weights in Hfuel. cbn [fold_right] in Hfuel.
  fold (weights elems) in Hfuel.
  destruct fuel as [|fuel]; [lia|]. rewrite parse_elements_step.
  destruct elems as [|e' elems'].
  - cbn [joined]. rewrite (He fuel (String "]" rest)) by (try reflexivity; lia).
    reflexivity.
  - rewrite joined_cons, !append_assoc', append_cons, append_nil_l.
    rewrite (He fuel) by (try reflexivity; lia).
    rewrite skip_ws_stays by reflexivity.
    change (Ascii.eqb "," ",") with true. cbv iota.
    rewrite IH by (try discriminate; lia). reflexivity.
Qed.

Lemma member_text_app (k : string) (v : JsValue) (tail : string) :
  (member_text (k, v) ++ tail)%string
  = String dquote (escape_all k ++ String dquote (String ":" (stringify v ++ tail))).
Proof.
  unfold member_text, quote. cbn [fst snd].
  repeat (rewrite ?append_assoc', ?append_cons, ?append_nil_l). reflexivity.
Qed.

Lemma parse_members_joined (props : list (string * JsValue)) :
  props <> [] ->
  Forall (fun p => reads_back (snd p)) props ->
  forall fuel rest,
    (member_weights props <= fuel)%nat ->
    parse_members fuel (joined member_text props ++ String "}" rest) = Some (props, rest).
Proof.
  intros Hne Hall. induction Hall as [|[k v] props Hv Hall IH]; [contradiction|].
  intros fuel rest Hfuel. unfold member_weights in Hfuel. cbn [fold_right snd] in Hfuel.
  fold (member_weights props) in Hfuel. cbn [snd] in Hv.
  destruct fuel as [|fuel]; [lia|].
  destruct props as [|p' props'].
  - cbn [joined]. rewrite member_text_app, parse_members_step, parse_chars_quote.
    rewrite skip_ws_stays by reflexivity.
    change (Ascii.eqb ":" ":") with true. cbv iota.
    rewrite (Hv fuel) by (try reflexivity; lia). reflexivity.
  - rewrite joined_cons, append_assoc', member_text_app, parse_members_step,
      parse_chars_quote.
    rewrite skip_ws_stays by reflexivity.
    change (Ascii.eqb ":" ":") with true. cbv iota.
    rewrite !append_assoc', append_cons, append_nil_l.
    rewrite (Hv fuel) by (try reflexivity; lia).
    rewrite skip_ws_stays by reflexivity.
    change (Ascii.eqb "," ",") with true. cbv iota.
    rewrite IH by (try discriminate; lia). reflexivity.
Qed.

Lemma define_fresh (props : list (string * JsValue)) (k : string) (v : JsValue) :
  k ∉ map fst props -> define props k v = (props ++ [(k, v)])%list.
Proof.
  induction props as [|[k' v'] props IH]; intros Hk; [reflexivity|].
  cbn [define]. destruct (String.eqb k' k) eqn:E.
  - apply String.eqb_eq in E. subst k'. exfalso. apply Hk. left.
  - rewrite IH; [reflexivity|]. intros Hin. apply Hk. right. exact Hin.
Qed.

Lemma define_all_distinct (props : list (string * JsValue)) :
  NoDup (map fst props) -> define_all props = props.
Proof.
  unfold define_all.
  assert (H : forall acc, NoDup (map fst (acc ++ props)) ->
              fold_left (fun acc m => define acc (fst m) (snd m)) props acc
              = (acc ++ props)%list).
  { induction props as [|[k v] props IH]; intros acc Hnd; cbn [fold_left].
    - rewrite app_nil_r. reflexivity.
    - cbn [fst snd]. rewrite define_fresh.
      + rewrite IH; rewrite <- app_assoc; [reflexivity|exact Hnd].
      + rewrite map_app in Hnd. apply NoDup_app in Hnd as (_ & Hdis & _).
        intros Hin. apply (Hdis k Hin). left. }
  intros Hnd. apply (H [] Hnd).
Qed.

Lemma joined_head (elems : list JsValue) (tail : string) :
  elems <> [] ->
  exists c tl, (joined stringify elems ++ tail)%string = String c tl /\ opens c = true.
Proof.
  destruct elems as [|e elems]; [contradiction|]. intros _.
  destruct (stringify_head e) as (c & tl & E & Hc).
  destruct elems as [|e' elems'].
  - cbn [joined]. rewrite E, append_cons. eauto.
  - rewrite joined_cons, E, append_assoc', append_cons. eauto.
Qed.

Lemma members_head (props : list (string * JsValue)) (tail : string) :
  props <> [] ->
  exists tl, (joined member_text props ++ tail)%string = String dquote tl.
Proof.
  destruct props as [|[k v] props]; [contradiction|]. intros _.
  destruct props as [|p' props'].
  - cbn [joined]. rewrite member_text_app. eauto.
  - rewrite joined_cons, append_assoc', member_text_app. eauto.
Qed.

Lemma forallb_Forall_reads (elems : list JsValue) :
  Forall (fun v => plain v = true -> reads_back v) elems ->
  forallb plain elems = true ->
  Forall reads_back elems.
Proof.
  induction 1 as [|e elems He _ IH]; intros Hp; [constructor|].
  cbn [forallb] in Hp. apply andb_true_iff in Hp as [Hp1 Hp2].
  constructor; auto.
Qed.

Lemma forallb_Forall_reads_members (props : list (string * JsValue)) :
  Forall (fun p => plain (snd p) = true -> reads_back (snd p)) props ->
  forallb (fun p => plain (snd p)) props = true ->
  Forall (fun p => reads_back (snd p)) props.
Proof.
  induction 1 as [|e elems He _ IH]; intros Hp; [constructor|].
  cbn [forallb] in Hp. apply andb_true_iff in Hp as [Hp1 Hp2].
  constructor; auto.
Qed.

Lemma stringify_reads_back (v : JsValue) : plain v = true -> reads_back v.
Proof.
  induction v as [|b|n|s|ms|elems IH|props IH] using JsValue_induction;
    intros Hplain fuel rest Hfuel Hrest.
  - destruct fuel as [|fuel]; [cbn in Hfuel; lia|]. reflexivity.
  - destruct fuel as [|fuel]; [cbn in Hfuel; lia|]. destruct b; reflexivity.
  - destruct fuel as [|fuel]; [cbn in Hfuel; lia|]. cbn [stringify].
    destruct (digits_head n) as (c & tl & E & Hc).
    rewrite E, append_cons, (parse_value_number fuel c _ Hc).
    rewrite <- append_cons, <- E, (parse_number_digits n rest Hrest). reflexivity.
  - destruct fuel as [|fuel]; [cbn in Hfuel; lia|]. cbn [stringify]. unfold quote.
    repeat (rewrite ?append_assoc', ?append_cons, ?append_nil_l).
    rewrite parse_value_string, parse_chars_quote. reflexivity.
  - discriminate.
  - destruct fuel as [|fuel]; [cbn in Hfuel; lia|].
    cbn [plain] in Hplain. cbn [weight] in Hfuel. fold (weights elems) in Hfuel.
    cbn [stringify].
    repeat (rewrite ?append_assoc', ?append_cons, ?append_nil_l).
    rewrite parse_value_array.
    destruct elems as [|e elems'].
    + reflexivity.
    + destruct (joined_head (e :: elems') (String "]" rest) ltac:(discriminate))
        as (c & tl & E & Hc).
      rewrite E, (skip_ws_opens c tl Hc).
      assert (Hclose : Ascii.eqb c "]" = false).
      { unfold opens in Hc. destruct (Ascii.eqb c "]"); [|reflexivity].
        destruct (is_ws c); discriminate. }
      rewrite Hclose, <- E.
      rewrite parse_elements_joined;
        [reflexivity|discriminate|apply forallb_Forall_reads; assumption|lia].
  - destruct fuel as [|fuel]; [cbn in Hfuel; lia|].
    cbn [plain] in Hplain. apply andb_true_iff in Hplain as [Hplain Hdistinct].
    apply bool_decide_eq_true in Hdistinct.
    cbn [weight] in Hfuel. fold (member_weights props) in Hfuel.
    cbn [stringify]. fold (joined member_text props).
    change (joined (fun p => quote (fst p) ++ ":" ++ stringify (snd p))%string props)
      with (joined member_text props).
    repeat (rewrite ?append_assoc', ?append_cons, ?append_nil_l).
    rewrite parse_value_object.
    destruct props as [|p props'].
    + reflexivity.
    + destruct (members_head (p :: props') (String "}" rest) ltac:(discriminate)) as (tl & E).
      rewrite E, skip_ws_stays by reflexivity.
      change (Ascii.eqb dquote "}") with false. cbv iota. rewrite <- E.
      rewrite parse_members_joined;
        [|discriminate|apply forallb_Forall_reads_members; assumption|lia].
      rewrite (define_all_distinct _ Hdistinct). reflexivity.
Qed.

Lemma length_append' (a b : string) :
  String.length (a ++ b) = (String.length a + String.length b)%nat.
Proof.
  induction a as [|c a IH]; [reflexivity|].
  rewrite append_cons. cbn [String.length]. rewrite IH. reflexivity.
Qed.

Lemma append_nil_r' (a : string) : (a ++ EmptyString)%string = a.
Proof.
  induction a as [|c a IH]; [reflexivity|]. rewrite append_cons, IH. reflexivity.
Qed.

Lemma weights_length (elems : list JsValue) :
  Forall (fun v => (weight v <= String.length (stringify v))%nat) elems ->
  (weights elems <= String.length (joined stringify elems) + 1)%nat.
Proof.
  induction 1 as [|e elems He Hall IH]; [cbn; lia|].
  unfold weights in *. cbn [fold_right].
  destruct elems as [|e' elems'].
  - cbn [joined fold_right]. lia.
  - rewrite joined_cons, !length_append'. cbn [String.length]. lia.
Qed.

Lemma member_weights_length (props : list (string * JsValue)) :
  Forall (fun p => (weight (snd p) <= String.length (stringify (snd p)))%nat) props ->
  (member_weights props <= String.length (joined member_text props) + 1)%nat.
Proof.
  induction 1 as [|[k v] props He Hall IH]; [cbn; lia|].
  unfold member_weights in *. cbn [fold_right snd] in *.
  assert (Hm : (String.length (stringify v) <= String.length (member_text (k, v)))%nat).
  { unfold member_text. cbn [fst snd]. rewrite !length_append'. lia. }
  destruct props as [|p' props'].
  - cbn [joined fold_right]. lia.
  - rewrite joined_cons, !length_append'. cbn [String.length]. lia.
Qed.

Lemma weight_length (v : JsValue) : (weight v <= String.length (stringify v))%nat.
Proof.
  induction v as [|b|n|s|ms|elems IH|props IH] using JsValue_induction.
  - cbn. lia.
  - destruct b; cbn; lia.
  - cbn [weight stringify]. destruct (digits_head n) as (c & tl & -> & _).
    cbn [String.length]. lia.
  - cbn [weight stringify]. unfold quote. cbn [String.length]. lia.
  - cbn [weight stringify]. destruct (valid_time ms); [unfold quote|]; cbn [String.length]; lia.
  - cbn [weight stringify]. fold (weights elems).
    pose proof (weights_length elems IH) as Hw.
    rewrite !length_append'. cbn [String.length]. lia.
  - cbn [weight stringify]. fold (member_weights props).
    change (joined (fun p => quote (fst p) ++ ":" ++ stringify (snd p))%string props)
      with (joined member_text props).
    pose proof (member_weights_length props IH) as Hw.
    rewrite !length_append'. cbn [String.length]. lia.
Qed.

(** [JSON.parse(JSON.stringify(v))] is [v] for a value without dates. *)
Lemma parse_stringify (v : JsValue) :
  plain v = true -> JSON.parse (stringify v) = Normal v.
Proof.
  intros Hplain. unfold JSON.parse.
  pose proof (stringify_reads_back v Hplain
                (2 * String.length (stringify v) + 2)%nat EmptyString) as H.
  rewrite append_nil_r' in H. rewrite H; [reflexivity| |reflexivity].
  pose proof (weight_length v). lia.
Qed.
End ReadBack.

(* ===================================================================== *)
(** * [put] then [get] *)
(* ===================================================================== *)




(* ===================================================================== *)
(** * The index stays free of duplicates *)
(* ===================================================================== *)

Lemma track_index_ok key (tables : list string) s :
  index_ok (usedTablesPerKey s) ->
  index_ok (usedTablesPerKey (after (track key tables) s)).
Proof.
  revert s. induction tables as [|t tables IH]; intros s Hok; [exact Hok|].
  unfold after in *. rewrite track_cons.
  destruct (usedTablesPerKey s !! t) as [keys|] eqn:E.
  - destruct (includes keys key) eqn:Ei; [apply IH, Hok|].
    apply IH. intros t' keys' Hl. simpl in Hl.
    destruct (decide (t' = t)) as [->|Hne].
    + rewrite lookup_insert_eq in Hl. injection Hl as <-.
      apply NoDup_app. split; [exact (Hok t keys E)|]. split; [|apply NoDup_singleton].
      intros x Hx Hx'. apply list_elem_of_singleton in Hx'. subst x.
      unfold includes in Ei. apply bool_decide_eq_false in Ei. contradiction.
    + rewrite lookup_insert_ne in Hl by congruence. exact (Hok t' keys' Hl).
  - destruct (inherited t); [exact Hok|].
    apply IH. intros t' keys' Hl. simpl in Hl.
    destruct (decide (t' = t)) as [->|Hne].
    + rewrite lookup_insert_eq in Hl. injection Hl as <-. apply NoDup_singleton.
    + rewrite lookup_insert_ne in Hl by congruence. exact (Hok t' keys' Hl).
Qed.

(** X2. The tracked key sets never hold a key twice: the property holds of
    the empty index a constructor leaves, and [put] and [onMutate] keep it,
    whatever their arguments and however the store answers. *)
Theorem index_stays_duplicate_free this key rows tables isTag config params s :
  index_ok (usedTablesPerKey s) ->
  index_ok (usedTablesPerKey (after (put this key rows tables isTag config) s))
  /\ index_ok (usedTablesPerKey (after (onMutate this params) s))
  /\ forall options s0,
       index_ok (usedTablesPerKey (after (constructor (Some options)) s0)).
Proof.
  intros Hok. split; [|split].
  - unfold after. rewrite put_run. cbv zeta.
    destruct (redis this); [|exact Hok].
    destruct (lost s); [exact Hok|].
    destruct (0 <? seconds this config (clock s)); [|exact Hok].
    match goal with |- context [track key tables ?s1] =>
      pose proof (track_index_ok key tables s1 Hok) as Ht;
      unfold after in Ht; destruct (track key tables s1) as [[[]|e] s2] end;
      exact Ht.
  - destruct (onMutate_cases this params s) as [H|[[e H]|(h & _ & _ & H)]].
    + unfold after. rewrite H. exact Hok.
    + unfold after. rewrite H. exact Hok.
    + rewrite H. simpl. intros t keys Hl. rewrite cleared_lookup in Hl.
      case_bool_decide.
      * injection Hl as <-. constructor.
      * destruct (sweep_frame (physical_keys this (tagsArray params)
                                 (gathered s (tableNames params) [])) s) as (Hi & _).
        rewrite Hi in Hl. exact (Hok t keys Hl).
  - intros options s0 t keys Hl. simpl in Hl. rewrite lookup_empty in Hl. discriminate.
Qed.

Lemma index_stays_duplicate_free_witness :
  let s := after (put db_cache "q1" one_row ["users"; "users"; "posts"] false None;;
                  put db_cache "q1" one_row ["users"] false None) boot in
  usedTablesPerKey s !! "users" = Some ["q1"]
  /\ index_ok (usedTablesPerKey s).
Proof.
  intros s. split; [vm_compute; reflexivity|].
  assert (H1 : index_ok (usedTablesPerKey
                 (after (put db_cache "q1" one_row ["users"; "users"; "posts"] false None) boot))).
  { apply (index_stays_duplicate_free db_cache "q1" one_row ["users"; "users"; "posts"]
             false None {| tags := Many []; tables := Many [] |} boot).
    intros t keys Hl. vm_compute in Hl. discriminate. }
  apply (index_stays_duplicate_free db_cache "q1" one_row ["users"] false None
           {| tags := Many []; tables := Many [] |} _ H1).
Defined.

(* ===================================================================== *)
(** * What [onMutate] sends *)
(* ===================================================================== *)

Lemma Set_add_NoDup (set : list string) (key : string) :
  NoDup set -> NoDup (Set_add set key).
Proof.
  intros Hnd. unfold Set_add, includes. case_bool_decide; [exact Hnd|].
  apply NoDup_app. split; [exact Hnd|]. split; [|apply NoDup_singleton].
  intros x Hx Hx'. apply list_elem_of_singleton in Hx'. subst x. contradiction.
Qed.

Lemma fold_Set_add_NoDup (keys acc : list string) :
  NoDup acc -> NoDup (fold_left Set_add keys acc).
Proof.
  revert acc. induction keys as [|k keys IH]; intros acc Hnd; [exact Hnd|].
  simpl. apply IH, Set_add_NoDup, Hnd.
Qed.

Lemma gathered_NoDup s (names acc : list string) :
  NoDup acc -> NoDup (gathered s names acc).
Proof.
  revert acc. induction names as [|n names IH]; intros acc Hnd; [exact Hnd|].
  simpl. apply IH, fold_Set_add_NoDup, Hnd.
Qed.

(** X3. With a store handle and table names that are found as own
    properties or not at all, [onMutate] sends exactly one [UNLINK] per tag,
    in order, and then exactly one per tracked key of the listed tables: a
    key tracked under several listed tables is unlinked once, and nothing
    else is sent. *)
Theorem onMutate_unlinks_each_key_once this handle params s :
  redis this = Some handle ->
  Forall (trackable s) (tableNames params) ->
  exists keys,
    NoDup keys
    /\ (forall k, k ∈ keys <-> exists t, t ∈ tableNames params /\ k ∈ tracked s t)
    /\ wire (after (onMutate this params) s)
       = (wire s ++ map (fun tag => UNLINK (tag_key this tag)) (tagsArray params)
                 ++ map (fun k => UNLINK (formatKey this k)) keys)%list.
Proof.
  intros Hh Hall. exists (gathered s (tableNames params) []).
  split; [apply gathered_NoDup; constructor|]. split.
  { intros k. rewrite gathered_elem. split.
    - intros [H|H]; [inversion H|exact H].
    - auto. }
  destruct (decide (gathered s (tableNames params) [] = [] /\ tagsArray params = []))
    as [[Hk Ht]|Hwork].
  - rewrite Hk, Ht. simpl. rewrite app_nil_r.
    unfold after. rewrite onMutate_noop; [reflexivity|exact Ht|].
    unfold result. rewrite (collect_run _ _ Hall). simpl. fold (tableNames params).
    rewrite Hk. reflexivity.
  - destruct (onMutate_sweeps this handle params s Hh Hall Hwork) as [Hst _].
    rewrite Hst.
    change (wire (set_usedTablesPerKey ?f ?x)) with (wire x).
    destruct (sweep_frame (physical_keys this (tagsArray params)
                             (gathered s (tableNames params) [])) s) as (_ & _ & Hw & _).
    rewrite Hw. unfold physical_keys. rewrite map_app, !List.map_map. reflexivity.
Qed.

Lemma onMutate_unlinks_each_key_once_witness :
  let s := after (put db_cache "q1" one_row ["users"; "posts"] false None) boot in
  wire (after (onMutate db_cache
                 {| tags := Many ["t"]; tables := Many [ByName "users"; ByName "posts"] |}) s)
  = (wire s ++ [UNLINK "drizzle:db:tag:t"; UNLINK "drizzle:db:q1"])%list.
Proof.
  intros s.
  destruct (onMutate_unlinks_each_key_once db_cache local_redis
              {| tags := Many ["t"]; tables := Many [ByName "users"; ByName "posts"] |} s
              eq_refl) as (keys & Hnd & Hin & Hw).
  - repeat constructor; vm_compute; discriminate.
  - rewrite Hw. f_equal. simpl. f_equal.
    assert (Hq : "q1" ∈ keys).
    { apply Hin. exists "users". split; [left|]. vm_compute. left. }
    assert (Honly : forall k, k ∈ keys -> k = "q1").
    { intros k Hk. apply Hin in Hk as (t & Ht & Hk). simpl in Ht.
      apply elem_of_cons in Ht as [->|Ht].
      - vm_compute in Hk. apply list_elem_of_singleton in Hk. exact Hk.
      - apply list_elem_of_singleton in Ht. subst t.
        vm_compute in Hk. apply list_elem_of_singleton in Hk. exact Hk. }
    destruct keys as [|k1 keys]; [inversion Hq|].
    rewrite (Honly k1 ltac:(left)) in *.
    destruct keys as [|k2 keys]; [reflexivity|].
    exfalso. apply NoDup_cons in Hnd as [Hnot _]. apply Hnot.
    rewrite (Honly k2 ltac:(right; left)). left.
Defined.

(* ===================================================================== *)
(** * Invalidation by tag *)
(* ===================================================================== *)

(** X1. Tags need no tracking: with a store handle, [onMutate] with tags and
    no tables sends one [UNLINK] of [namespace:tag:<tag>] per tag, in order,
    in any state, and leaves the index as it is; on a healthy connection it
    returns and those entries are gone, and no other entry is touched. *)
Theorem onMutate_tags_only this handle (names : list string) s :
  redis this = Some handle ->
  names <> [] ->
  let params := {| tags := Many names; tables := Many [] |} in
  let s' := after (onMutate this params) s in
  wire s' = (wire s ++ map (fun tag => UNLINK (namespace this ++ ":tag:" ++ tag)) names)%list
  /\ usedTablesPerKey s' = usedTablesPerKey s
  /\ (forall physical, physical ∉ map (tag_key this) names ->
        keyspace s' !! physical = keyspace s !! physical)
  /\ (healthy s ->
      result (onMutate this params) s = Normal tt
      /\ forall tag, tag ∈ names -> keyspace s' !! tag_key this tag = None).
Proof.
  intros Hh Hne params s'.
  assert (Hall : Forall (trackable s) (tableNames params)) by constructor.
  assert (Hwork : ~ (gathered s (tableNames params) [] = [] /\ tagsArray params = [])).
  { intros [_ Ht]. contradiction. }
  destruct (onMutate_sweeps this handle params s Hh Hall Hwork) as [Hst Hres].
  assert (Hkeys : physical_keys this (tagsArray params) (gathered s (tableNames params) [])
                  = map (tag_key this) names).
  { unfold physical_keys. simpl. rewrite app_nil_r. reflexivity. }
  rewrite Hkeys in Hst. subst s'. rewrite Hst.
  destruct (sweep_frame (map (tag_key this) names) s) as (Hi & _ & Hw & _).
  split; [|split; [|split]].
  - simpl. rewrite Hw, List.map_map. reflexivity.
  - simpl. exact Hi.
  - intros physical Hout. simpl. apply sweep_other_key. exact Hout.
  - intros Hs. split; [apply Hres, Hs|].
    intros tag Hin. simpl. apply (sweep_healthy _ _ Hs).
    apply list_elem_of_fmap. eauto.
Qed.

(** Worked example for X1: a tag nothing was ever put under. *)
Lemma onMutate_tags_only_witness :
  let s' := after (onMutate db_cache {| tags := Many ["report-cache"]; tables := Many [] |})
              boot in
  wire s' = [UNLINK "drizzle:db:tag:report-cache"]
  /\ usedTablesPerKey s' = ∅.
Proof.
  intros s'.
  destruct (onMutate_tags_only db_cache local_redis ["report-cache"] boot eq_refl)
    as (Hw & Hi & _); [discriminate|].
  split; [exact Hw|exact Hi].
Defined.

(** X4. A query key that starts with [tag:] shares its physical key with a
    tag: on a healthy connection, invalidating the tag [x] removes the entry
    that [put("tag:" + x, ...)] wrote, although no table was named. *)
Theorem tag_invalidation_hits_tag_named_keys this handle (x : string) rows tables isTag config s :
  redis this = Some handle ->
  healthy s ->
  0 < seconds this config (clock s) ->
  Forall (fun t => inherited t = false) tables ->
  let s1 := after (put this ("tag:" ++ x) rows tables isTag config) s in
  let s2 := after (onMutate this {| tags := Many [x]; tables := Many [] |}) s1 in
  formatKey this ("tag:" ++ x) = tag_key this x
  /\ keyspace s1 !! formatKey this ("tag:" ++ x)
     = Some (JSON.stringify rows, clock s + 1000 * seconds this config (clock s))
  /\ keyspace s2 !! formatKey this ("tag:" ++ x) = None
  /\ result (get this ("tag:" ++ x)) s2 = Normal None.
Proof.
  intros Hh Hs Hpos Hall s1 s2.
  destruct (put_registers this handle ("tag:" ++ x) rows tables isTag config s Hh
              (healthy_not_lost s Hs) Hpos Hall) as (Hk & _ & _ & _ & _ & Hf & _).
  fold s1 in Hk, Hf.
  assert (Hs1 : healthy s1).
  { unfold healthy in *. rewrite Hf, Hs. reflexivity. }
  destruct (onMutate_tags_only this handle [x] s1 Hh ltac:(discriminate))
    as (_ & _ & _ & Hgone).
  destruct (Hgone Hs1) as [_ Hgone'].
  assert (Hnone : keyspace s2 !! formatKey this ("tag:" ++ x) = None)
    by (apply Hgone'; left).
  split; [reflexivity|]. split; [exact Hk|]. split; [exact Hnone|].
  apply get_absent. exact Hnone.
Qed.

Lemma tag_invalidation_hits_tag_named_keys_witness :
  let s1 := after (put db_cache "tag:report" one_row [] false None) boot in
  let s2 := after (onMutate db_cache {| tags := Many ["report"]; tables := Many [] |}) s1 in
  result (get db_cache "tag:report") s1 = Normal (Some one_row)
  /\ result (get db_cache "tag:report") s2 = Normal None.
Proof.
  intros s1 s2. split; [vm_compute; reflexivity|].
  apply (tag_invalidation_hits_tag_named_keys db_cache local_redis "report" one_row []
           false None boot); try reflexivity. constructor.
Defined.

(* ===================================================================== *)
(** * A lost [UNLINK] *)
(* ===================================================================== *)

Lemma unlink_loop_lost this (physical : string -> string) handle x xs s :
  redis this = Some handle ->
  lost s = true ->
  exists qs,
    for_of_acc (x :: xs) [] (unlink_body this physical) s
    = (Normal (Throws (RedisError "Connection closed") :: qs),
       sweep (map physical (x :: xs)) s).
Proof.
  intros Hh Hl. rewrite for_of_acc_cons, (unlink_body_run _ _ _ _ _ _ Hh).
  destruct (unlink_loop this physical handle Hh xs
              ([] ++ [fst (send (UNLINK (physical x)) s)])%list
              (after (send (UNLINK (physical x))) s)) as (qs & Hrun & _).
  exists qs. rewrite Hrun. unfold send. rewrite Hl. reflexivity.
Qed.

(** X5. When the first [UNLINK] of an [onMutate] is lost on the way, the
    method rejects with the connection error, but the clean-up has already
    run: every listed table has an empty tracked set, the entry whose
    [UNLINK] was lost is still in the store, and a repeated [onMutate] over
    the same tables sends nothing, so that entry stays until its TTL. *)
Theorem onMutate_lost_unlink_leaves_stale_entry this handle params s first others :
  redis this = Some handle ->
  Forall (trackable s) (tableNames params) ->
  physical_keys this (tagsArray params) (gathered s (tableNames params) []) = first :: others ->
  first ∉ others ->
  lost s = true ->
  let s' := after (onMutate this params) s in
  result (onMutate this params) s = Throws (RedisError "Connection closed")
  /\ (forall t, t ∈ tableNames params -> usedTablesPerKey s' !! t = Some [])
  /\ keyspace s' !! first = keyspace s !! first
  /\ (tagsArray params = [] -> onMutate this params s' = (Normal tt, s')).
Proof.
  intros Hh Hall Hkeys Hfresh Hl s'.
  assert (Hwork : ~ (gathered s (tableNames params) [] = [] /\ tagsArray params = [])).
  { intros [Hk Ht]. rewrite Hk, Ht in Hkeys. discriminate. }
  destruct (onMutate_sweeps this handle params s Hh Hall Hwork) as [Hst _].
  fold s' in Hst. rewrite Hkeys in Hst.
  assert (Hres : result (onMutate this params) s = Throws (RedisError "Connection closed")).
  { rewrite onMutate_unfold. unfold result, mbind, M_bind, bind.
    rewrite (collect_run _ _ Hall). fold (tableNames params).
    destruct ((0 <? Z.of_nat (length (gathered s (tableNames params) [])))
              || (0 <? Z.of_nat (length (tagsArray params)))) eqn:G.
    2:{ apply guard_false in G. contradiction. }
    destruct (tagsArray params) as [|tag tags'] eqn:Et.
    - destruct (gathered s (tableNames params) []) as [|k ks] eqn:Ek;
        [exfalso; apply Hwork; auto|].
      change (for_of_acc [] [] _ s) with (@Normal (list (Completion Reply)) [], s).
      cbv iota beta.
      destruct (unlink_loop_lost this (formatKey this) handle k ks s Hh Hl) as (qs & ->).
      rewrite cleanup_loop. reflexivity.
    - destruct (unlink_loop_lost this (fun tag => formatKey this ("tag:" ++ tag)) handle
                  tag tags' s Hh Hl) as (qs & ->).
      destruct (unlink_loop this (formatKey this) handle Hh
                  (gathered s (tableNames params) [])
                  (Throws (RedisError "Connection closed") :: qs)
                  (sweep (map (fun tag => formatKey this ("tag:" ++ tag)) (tag :: tags')) s))
        as (qs2 & -> & _).
      rewrite cleanup_loop. reflexivity. }
  split; [exact Hres|]. split; [|split].
  - intros t Ht. rewrite Hst. simpl.
    rewrite cleared_lookup, bool_decide_eq_true_2 by exact Ht. reflexivity.
  - rewrite Hst. simpl. fold (sweep others (after (send (UNLINK first)) s)).
    rewrite sweep_other_key by exact Hfresh.
    unfold after, send. rewrite Hl. reflexivity.
  - intros Ht. apply onMutate_noop; [exact Ht|].
    assert (Hall' : Forall (trackable s') (tableNames params)).
    { apply Forall_forall. intros t Hin. unfold trackable. rewrite Hst. simpl.
      rewrite cleared_lookup, bool_decide_eq_true_2 by exact Hin. discriminate. }
    unfold result. rewrite (collect_run _ _ Hall'). simpl. fold (tableNames params).
    f_equal. apply gathered_nil. intros t Hin. unfold tracked. rewrite Hst. simpl.
    rewrite cleared_lookup, bool_decide_eq_true_2 by exact Hin. reflexivity.
Qed.

(** Worked example for X5: the connection drops for the one [UNLINK]; a
    later sweep on a connection that is up again sends nothing, and [get]
    still returns the rows. *)
Lemma onMutate_lost_unlink_leaves_stale_entry_witness :
  let s0 := after (put db_cache "q1" one_row ["users"] false None) boot in
  let s := mkState (usedTablesPerKey s0) (keyspace s0) (clock s0) [true] (wire s0) (console s0) in
  let s' := after (mutate_table db_cache "users") s in
  result (mutate_table db_cache "users") s = Throws (RedisError "Connection closed")
  /\ mutate_table db_cache "users" s' = (Normal tt, s')
  /\ result (get db_cache "q1") s' = Normal (Some one_row).
Proof.
  intros s0 s s'.
  destruct (onMutate_lost_unlink_leaves_stale_entry db_cache local_redis
              {| tags := Many []; tables := Many [ByName "users"] |} s
              "drizzle:db:q1" []) as (Hres & _ & _ & Hretry);
    try (vm_compute; reflexivity).
  - repeat constructor.
  - inversion 1.
  - split; [exact Hres|]. split; [apply Hretry; reflexivity|].
    vm_compute. reflexivity.
Defined.

(* ===================================================================== *)
(** * More on [put] *)
(* ===================================================================== *)

Lemma track_app key (pre post : list string) s :
  Forall (fun t => inherited t = false) pre ->
  track key (pre ++ post) s
  = track key post (set_usedTablesPerKey (fun m => fold_left (register key) pre m) s).
Proof.
  revert s. induction pre as [|t pre IH]; intros s Hall.
  - destruct s; reflexivity.
  - apply Forall_cons in Hall as [Ht Hall].
    change ((t :: pre) ++ post)%list with (t :: (pre ++ post))%list.
    rewrite track_cons.
    destruct (usedTablesPerKey s !! t) as [keys|] eqn:E.
    + assert (Hr : register key (usedTablesPerKey s) t
                   = if includes keys key then usedTablesPerKey s
                     else <[t := (keys ++ [key])%list]> (usedTablesPerKey s))
        by (unfold register; rewrite E; reflexivity).
      destruct (includes keys key); rewrite (IH _ Hall);
        unfold set_usedTablesPerKey; simpl; rewrite Hr; reflexivity.
    + assert (Hr : register key (usedTablesPerKey s) t = <[t := [key]]> (usedTablesPerKey s))
        by (unfold register; rewrite E; reflexivity).
      rewrite Ht, (IH _ Hall). unfold set_usedTablesPerKey; simpl.
      rewrite Hr; reflexivity.
Qed.

(** X6. A table name that [Object.prototype] defines stops the registration
    loop of [put]: the entry is written and the tables listed before that
    name are registered, the tables listed after it are not, the
    [TypeError] goes to the console and [put] returns normally. *)
Theorem put_stops_registering_at_prototype_name
    this handle key rows (before after_it : list string) (t : string) isTag config s :
  redis this = Some handle ->
  lost s = false ->
  0 < seconds this config (clock s) ->
  Forall (fun t => inherited t = false) before ->
  inherited t = true ->
  usedTablesPerKey s !! t = None ->
  let s' := after (put this key rows (before ++ t :: after_it) isTag config) s in
  result (put this key rows (before ++ t :: after_it) isTag config) s = Normal tt
  /\ keyspace s' !! formatKey this key
     = Some (JSON.stringify rows, clock s + 1000 * seconds this config (clock s))
  /\ usedTablesPerKey s' = fold_left (register key) before (usedTablesPerKey s)
  /\ (forall t', t' ∈ after_it -> t' ∉ before ->
        usedTablesPerKey s' !! t' = usedTablesPerKey s !! t')
  /\ console s'
     = (console s ++ [(put_failed this key, TypeError "keys.includes is not a function")])%list.
Proof.
  intros Hh Hl Hpos Hall Ht Hnone s'. subst s'. unfold result, after.
  rewrite put_run, Hh. cbv zeta. rewrite Hl. apply Z.ltb_lt in Hpos. rewrite Hpos.
  rewrite (track_app key before (t :: after_it) _ Hall), track_cons.
  destruct (registers_all key before (usedTablesPerKey s)) as (_ & _ & Hout & _).
  assert (Hbefore : t ∉ before).
  { intros Hin. rewrite Forall_forall in Hall. rewrite (Hall t Hin) in Ht. discriminate. }
  simpl. rewrite (Hout t Hbefore), Hnone, Ht. simpl.
  split; [reflexivity|]. split; [apply lookup_insert_eq|]. split; [reflexivity|].
  split; [|reflexivity].
  intros t' _ Hout'. apply Hout. exact Hout'.
Qed.

Lemma put_stops_registering_at_prototype_name_witness :
  let s' := after (put db_cache "q1" one_row ["users"; "toString"; "posts"] false None) boot in
  usedTablesPerKey s' = {[ "users" := ["q1"] ]}
  /\ usedTablesPerKey s' !! "posts" = None
  /\ length (console s') = 1%nat.
Proof.
  intros s'.
  destruct (put_stops_registering_at_prototype_name db_cache local_redis "q1" one_row
              ["users"] ["posts"] "toString" false None boot)
    as (_ & _ & Hidx & Hafter & Hlog); try reflexivity.
  - repeat constructor.
  - cbn [app] in Hidx, Hafter, Hlog. fold s' in Hidx, Hafter, Hlog.
    split; [rewrite Hidx; reflexivity|].
    split; [rewrite Hafter; [reflexivity|left|]|rewrite Hlog; reflexivity].
    intros H. apply list_elem_of_singleton in H. discriminate.
Defined.





(** X9. [get] only reads: whatever the state and the answer, it changes
    neither the store nor the index nor the clock, and sends the one [GET]
    of the physical key (nothing at all without a handle). *)
Theorem get_only_reads this key s :
  keyspace (after (get this key) s) = keyspace s
  /\ usedTablesPerKey (after (get this key) s) = usedTablesPerKey s
  /\ clock (after (get this key) s) = clock s
  /\ wire (after (get this key) s)
     = (wire s ++ match redis this with
                  | Some _ => [GET (formatKey this key)]
                  | None => []
                  end)%list.
Proof.
  unfold after. rewrite get_run.
  destruct (redis this); cbv zeta.
  2:{ simpl. rewrite app_nil_r. repeat split; reflexivity. }
  destruct (lost s); [repeat split; reflexivity|].
  destruct (readable s (formatKey this key)) as [text|]; [|repeat split; reflexivity].
  destruct (String.eqb text EmptyString); [repeat split; reflexivity|].
  destruct (JSON.parse text); repeat split; reflexivity.
Qed.

Lemma track_others key (tables : list string) s :
  (forall t, t ∉ tables ->
     usedTablesPerKey (after (track key tables) s) !! t = usedTablesPerKey s !! t)
  /\ (forall t k, k <> key ->
        (k ∈ tracked (after (track key tables) s) t <-> k ∈ tracked s t)).
Proof.
  revert s. induction tables as [|t0 tables IH]; intros s; [split; reflexivity|].
  unfold after in *. rewrite track_cons.
  destruct (usedTablesPerKey s !! t0) as [keys|] eqn:E.
  - destruct (includes keys key).
    + destruct (IH s) as [Hout Hk]. split; [|exact Hk].
      intros t Ht. apply Hout. set_solver.
    + destruct (IH (set_usedTablesPerKey (insert t0 (keys ++ [key])%list) s)) as [Hout Hk].
      split.
      * intros t Ht. rewrite Hout by set_solver. simpl.
        apply lookup_insert_ne. set_solver.
      * intros t k Hne. rewrite (Hk t k Hne). unfold tracked. simpl.
        destruct (decide (t = t0)) as [->|Hn].
        -- rewrite lookup_insert_eq, E. simpl.
           rewrite elem_of_app, list_elem_of_singleton.
           split; [intros [H|H]; [exact H|contradiction]|auto].
        -- rewrite lookup_insert_ne by congruence. reflexivity.
  - destruct (inherited t0); [split; reflexivity|].
    destruct (IH (set_usedTablesPerKey (insert t0 [key]) s)) as [Hout Hk].
    split.
    + intros t Ht. rewrite Hout by set_solver. simpl.
      apply lookup_insert_ne. set_solver.
    + intros t k Hne. rewrite (Hk t k Hne). unfold tracked. simpl.
      destruct (decide (t = t0)) as [->|Hn].
      * rewrite lookup_insert_eq, E. simpl. rewrite list_elem_of_singleton.
        split; [contradiction|inversion 1].
      * rewrite lookup_insert_ne by congruence. reflexivity.
Qed.

(** X10. [put] touches what is its own and nothing else, whether it
    succeeds or fails: every store entry under another physical key is as
    before, the tracked set of every table it was not given is as before,
    and no other key is added to or removed from any tracked set. *)
Theorem put_leaves_the_rest this key rows tables isTag config s :
  let s' := after (put this key rows tables isTag config) s in
  (forall physical, physical <> formatKey this key ->
     keyspace s' !! physical = keyspace s !! physical)
  /\ (forall t, t ∉ tables -> usedTablesPerKey s' !! t = usedTablesPerKey s !! t)
  /\ (forall t k, k <> key -> (k ∈ tracked s' t <-> k ∈ tracked s t))
  /\ clock s' = clock s.
Proof.
  intros s'. subst s'. unfold after. rewrite put_run. cbv zeta.
  assert (Hsame : forall s0 : State,
            keyspace s0 = keyspace s -> usedTablesPerKey s0 = usedTablesPerKey s ->
            clock s0 = clock s ->
            (forall physical, physical <> formatKey this key ->
               keyspace s0 !! physical = keyspace s !! physical)
            /\ (forall t, t ∉ tables -> usedTablesPerKey s0 !! t = usedTablesPerKey s !! t)
            /\ (forall t k, k <> key -> (k ∈ tracked s0 t <-> k ∈ tracked s t))
            /\ clock s0 = clock s).
  { intros s0 Hks Hi Hc. unfold tracked. rewrite Hks, Hi, Hc.
    split; [reflexivity|]. split; [reflexivity|]. split; [reflexivity|reflexivity]. }
  destruct (redis this); [|apply Hsame; reflexivity].
  destruct (lost s); [apply Hsame; reflexivity|].
  destruct (0 <? seconds this config (clock s)); [|apply Hsame; reflexivity].
  clear Hsame.
  match goal with |- context [track key tables ?s1] =>
    pose proof (track_others key tables s1) as [Hout Hk];
    pose proof (track_frame key tables s1) as (Hks & Hc & _);
    unfold after in Hout, Hk, Hks, Hc;
    destruct (track key tables s1) as [[[]|e] s2] end; simpl in *.
  - split; [intros p Hp; rewrite Hks; apply lookup_insert_ne; congruence|].
    split; [exact Hout|]. split; [exact Hk|exact Hc].
  - split; [intros p Hp; rewrite Hks; apply lookup_insert_ne; congruence|].
    split; [exact Hout|]. split; [exact Hk|exact Hc].
Qed.

(* ===================================================================== *)
(** * The arguments of [onMutate] *)
(* ===================================================================== *)

Lemma collect_by_name (l1 l2 : list TableRef) s :
  map tableName l1 = map tableName l2 -> collect l1 s = collect l2 s.
Proof.
  unfold collect. generalize (@nil string) as acc. revert l2 s.
  induction l1 as [|x l1 IH]; intros [|y l2] s acc Heq; try discriminate; [reflexivity|].
  injection Heq as Hxy Heq. rewrite !for_of_acc_cons. cbv beta. rewrite Hxy.
  match goal with
  | |- match ?m with _ => _ end = _ => destruct m as [[acc'|e] s1]
  end; [apply IH; exact Heq|reflexivity].
Qed.

Lemma cleanup_by_name (l1 l2 : list TableRef) s :
  map tableName l1 = map tableName l2 ->
  for_of l1 (fun table => set_property (tableName table) []) s
  = for_of l2 (fun table => set_property (tableName table) []) s.
Proof. intros Heq. rewrite !cleanup_loop, Heq. reflexivity. Qed.

(** X11. [onMutate] sees its arguments only through the normalised tag list
    and the table names: a single value is the array of that value, an empty
    string is no value at all, and a [Table] object stands for its name. *)
Theorem onMutate_normalises this (p1 p2 : MutateParams) s :
  tagsArray p1 = tagsArray p2 ->
  tableNames p1 = tableNames p2 ->
  onMutate this p1 s = onMutate this p2 s.
Proof.
  intros Ht Hn. rewrite !onMutate_unfold. unfold mbind, M_bind, bind.
  rewrite (collect_by_name (tablesArray p1) (tablesArray p2) s Hn), Ht.
  destruct (collect (tablesArray p2) s) as [[keys|e] s1]; [|reflexivity].
  destruct ((0 <? Z.of_nat (length keys)) || (0 <? Z.of_nat (length (tagsArray p2))));
    [|reflexivity].
  destruct (for_of_acc (tagsArray p2) [] _ s1) as [[ps|e] s2]; [|reflexivity].
  destruct (for_of_acc keys ps _ s2) as [[ps2|e] s3]; [|reflexivity].
  rewrite (cleanup_by_name (tablesArray p1) (tablesArray p2) s3 Hn). reflexivity.
Qed.

(** Worked example for X11: a [Table] object and an empty tag string against
    the name in an array and no tag. *)
Lemma onMutate_normalises_witness :
  let s := after (put db_cache "q1" one_row ["users"] false None) boot in
  onMutate db_cache {| tags := One EmptyString;
                       tables := One (ByTable {| table_name := "users" |}) |} s
  = onMutate db_cache {| tags := Many []; tables := Many [ByName "users"] |} s.
Proof.
  intros s. apply onMutate_normalises; reflexivity.
Defined.

(* ===================================================================== *)
(** * From [put] to [onMutate] *)
(* ===================================================================== *)

(** X12. A [put] whose write succeeds registers its key under each of its
    tables, so that a mutation of any one of them removes the entry: on a
    healthy connection and with table names that [Object.prototype] does not
    define, [put] under [tables], then [onMutate] over a list that shares a
    table with them, leaves [get] returning absent, at any later time. *)
Theorem put_then_onMutate_any_table
    this handle key rows (tables : list string) (listed : list TableRef)
    (tags : list string) (t : string) isTag config s (d : Z) :
  redis this = Some handle ->
  healthy s ->
  0 < seconds this config (clock s) ->
  Forall (fun t => inherited t = false) tables ->
  Forall (fun t => inherited t = false) (map tableName listed) ->
  t ∈ tables ->
  t ∈ map tableName listed ->
  let s1 := after (put this key rows tables isTag config) s in
  let params := {| tags := Many tags; tables := Many listed |} in
  let s2 := after (onMutate this params) s1 in
  (forall t', t' ∈ tables -> registered key (usedTablesPerKey s1) t')
  /\ result (onMutate this params) s1 = Normal tt
  /\ keyspace s2 !! formatKey this key = None
  /\ result (get this key) (elapse d s2) = Normal None.
Proof.
  intros Hh Hs Hpos Hall Hlisted Ht Htl s1 params s2.
  destruct (put_registers this handle key rows tables isTag config s Hh
              (healthy_not_lost s Hs) Hpos Hall) as (_ & _ & Hreg & _ & _ & Hf & _).
  fold s1 in Hreg, Hf.
  assert (Hs1 : healthy s1) by (unfold healthy in *; rewrite Hf, Hs; reflexivity).
  assert (Htrack : Forall (trackable s1) (tableNames params)).
  { eapply Forall_impl; [exact Hlisted|]. intros t' Hi _. exact Hi. }
  destruct (Hreg t Ht) as (keys & E & Hin).
  assert (Htr : key ∈ tracked s1 t) by (unfold tracked; rewrite E; exact Hin).
  destruct (onMutate_deletes this handle params s1 t key Hh Hs1 Htrack Htl Htr)
    as (Hret & Hgone & _).
  split; [exact Hreg|]. split; [exact Hret|]. split; [exact Hgone|].
  apply get_absent. exact Hgone.
Qed.

Lemma put_then_onMutate_any_table_witness :
  let s1 := after (put db_cache "q1" one_row ["users"; "posts"] false None) boot in
  let s2 := after (onMutate db_cache
                     {| tags := Many []; tables := Many [ByName "orders"; ByName "posts"] |}) s1 in
  result (get db_cache "q1") s1 = Normal (Some one_row)
  /\ result (get db_cache "q1") s2 = Normal None.
Proof.
  intros s1 s2. split; [vm_compute; reflexivity|].
  apply (put_then_onMutate_any_table db_cache local_redis "q1" one_row ["users"; "posts"]
           [ByName "orders"; ByName "posts"] [] "posts" false None boot 0);
    try reflexivity; try (repeat constructor).
Defined.

(** X13. The index does not outlive its instance: a newly constructed
    instance starts from an empty index, so its [onMutate] without tags
    sends nothing and removes nothing, whatever tables it is given and
    whatever an earlier instance has written to the same store. *)
Theorem fresh_instance_invalidates_nothing options (listed : OneOrMany TableRef) s :
  forall this,
    result (constructor (Some options)) s = Normal this ->
    let s1 := after (constructor (Some options)) s in
    let params := {| tags := Many []; tables := listed |} in
    keyspace s1 = keyspace s
    /\ after (onMutate this params) s1 = s1
    /\ forall key, result (get this key) (after (onMutate this params) s1)
                   = result (get this key) s.
Proof.
  intros this Hthis s1 params.
  assert (Hstay : after (onMutate this params) s1 = s1).
  { destruct (decide (Forall (trackable s1) (tableNames params))) as [Hall|Hnot].
    - unfold after. rewrite onMutate_noop; [reflexivity|reflexivity|].
      unfold result. rewrite (collect_run _ _ Hall). simpl. fold (tableNames params).
      f_equal. apply gathered_nil. intros t _. reflexivity.
    - destruct (onMutate_inherited this params s1 Hnot) as [msg H].
      unfold after. rewrite H. reflexivity. }
  split; [reflexivity|]. split; [exact Hstay|].
  intros key. rewrite Hstay. apply get_result_depends; reflexivity.
Qed.

(** Worked example for X13: an entry written before a restart survives the
    mutation of its table after it. *)
Lemma fresh_instance_invalidates_nothing_witness :
  let s := after (put db_cache "q1" one_row ["users"] false None) boot in
  let s1 := after (constructor (Some db_options)) s in
  result (get db_cache "q1") (after (mutate_table db_cache "users") s1)
  = Normal (Some one_row).
Proof.
  intros s s1.
  destruct (fresh_instance_invalidates_nothing db_options (Many [ByName "users"]) s
              db_cache eq_refl) as (_ & _ & Hget).
  unfold mutate_table. fold s1 in Hget. rewrite Hget. vm_compute. reflexivity.
Defined.

(* ===================================================================== *)
(** * The latency chart *)
(* ===================================================================== *)

Section ArrayBuiltins.
Context {A : Type}.

Lemma findIndex_found (P : A -> Prop) `{forall x, Decision (P x)} (l : list A) :
  findIndex P l <> -1 ->
  exists i x, findIndex P l = Z.of_nat i /\ l !! i = Some x /\ P x
              /\ forall j y, l !! j = Some y -> (j < i)%nat -> ~ P y.
Proof.
  unfold findIndex. destruct (list_find P l) as [[i x]|] eqn:E; [|congruence].
  intros _. apply list_find_Some in E. destruct E as (Hl & HP & Hfirst).
  exists i, x. repeat split; try assumption.
Qed.

Lemma findIndex_first (P : A -> Prop) `{forall x, Decision (P x)} (l : list A) i x :
  l !! i = Some x -> P x ->
  (forall j y, l !! j = Some y -> (j < i)%nat -> ~ P y) ->
  findIndex P l = Z.of_nat i.
Proof.
  intros Hl HP Hfirst. unfold findIndex.
  assert (E : list_find P l = Some (i, x)) by (apply list_find_Some; auto).
  rewrite E. reflexivity.
Qed.

Lemma slice_inside (l : list A) (a b : nat) :
  (a <= b)%nat -> (b < length l)%nat ->
  slice l (Z.of_nat a) (Z.of_nat b + 1) = take (S b - a) (drop a l).
Proof.
  intros Hab Hb. unfold slice, relative.
  assert (E1 : (Z.of_nat a <? 0) = false) by (apply Z.ltb_ge; lia).
  assert (E2 : (Z.of_nat b + 1 <? 0) = false) by (apply Z.ltb_ge; lia).
  rewrite E1, E2.
  replace (Z.to_nat (Z.min (Z.of_nat a) (Z.of_nat (length l)))) with a by lia.
  replace (Z.to_nat (Z.min (Z.of_nat b + 1) (Z.of_nat (length l)))) with (S b) by lia.
  reflexivity.
Qed.

Lemma slice_splits (l : list A) (a b : nat) :
  (a <= b)%nat -> (b < length l)%nat ->
  l = (take a l ++ slice l (Z.of_nat a) (Z.of_nat b + 1) ++ drop (S b) l)%list
  /\ length (slice l (Z.of_nat a) (Z.of_nat b + 1)) = (S b - a)%nat.
Proof.
  intros Hab Hb. rewrite (slice_inside l a b Hab Hb). split.
  - rewrite <- (take_drop a l) at 1. f_equal.
    rewrite <- (take_drop (S b - a) (drop a l)) at 1. f_equal.
    rewrite drop_drop. f_equal. lia.
  - rewrite length_take, length_drop. lia.
Qed.
End ArrayBuiltins.

Section ChartLemmas.
Context {number : Type}.
Implicit Types (data : list (LatencyChart.LatencyDataPoint number)).
Implicit Types (st : LatencyChart.ChartState number).

(** What a release does, in the one case where it zooms. *)
Lemma handleMouseUp_cases data st :
  let st' := LatencyChart.handleMouseUp data st in
  LatencyChart.refAreaLeft st' = None /\ LatencyChart.refAreaRight st' = None
  /\ (LatencyChart.zoomedData st' = LatencyChart.zoomedData st
      \/ exists (i j : nat) (p q : LatencyChart.LatencyDataPoint number) (a b : option string),
           truthy (LatencyChart.refAreaLeft st) = true
           /\ ((a = LatencyChart.refAreaLeft st
                /\ b = or_else (LatencyChart.refAreaRight st) (LatencyChart.refAreaLeft st))
               \/ (b = LatencyChart.refAreaLeft st
                   /\ a = or_else (LatencyChart.refAreaRight st) (LatencyChart.refAreaLeft st)))
           /\ (i <= j)%nat
           /\ data !! i = Some p /\ Some (LatencyChart.date p) = a
           /\ data !! j = Some q /\ Some (LatencyChart.date q) = b
           /\ LatencyChart.zoomedData st'
              = Some (slice data (Z.of_nat i) (Z.of_nat j + 1))).
Proof.
  unfold LatencyChart.handleMouseUp.
  destruct (truthy (LatencyChart.refAreaLeft st)) eqn:Hl; simpl;
    [|split; [reflexivity|split; [reflexivity|left; reflexivity]]].
  set (P := fun d : LatencyChart.LatencyDataPoint number => Some (LatencyChart.date d) = LatencyChart.refAreaLeft st).
  set (Q := fun d : LatencyChart.LatencyDataPoint number => Some (LatencyChart.date d)
                 = or_else (LatencyChart.refAreaRight st) (LatencyChart.refAreaLeft st)).
  destruct (findIndex P data =? -1) eqn:E1; simpl;
    [split; [reflexivity|split; [reflexivity|left; reflexivity]]|].
  destruct (findIndex Q data =? -1) eqn:E2; simpl;
    [split; [reflexivity|split; [reflexivity|left; reflexivity]]|].
  apply Z.eqb_neq in E1, E2.
  destruct (findIndex_found P data E1) as (i & p & Ei & Hi & HP & _).
  destruct (findIndex_found Q data E2) as (j & q & Ej & Hj & HQ & _).
  rewrite Ei, Ej.
  destruct (Z.of_nat i <? Z.of_nat j) eqn:Hlt; simpl;
    (split; [reflexivity|split; [reflexivity|right]]).
  - apply Z.ltb_lt in Hlt.
    exists i, j, p, q, (LatencyChart.refAreaLeft st),
      (or_else (LatencyChart.refAreaRight st) (LatencyChart.refAreaLeft st)).
    split; [reflexivity|]. split; [left; split; reflexivity|].
    split; [lia|]. repeat (split; [assumption|]). reflexivity.
  - apply Z.ltb_ge in Hlt.
    exists j, i, q, p,
      (or_else (LatencyChart.refAreaRight st) (LatencyChart.refAreaLeft st)),
      (LatencyChart.refAreaLeft st).
    split; [reflexivity|]. split; [right; split; reflexivity|].
    split; [lia|]. repeat (split; [assumption|]). reflexivity.
Qed.

Lemma stretch_of_slice data (i j : nat) :
  (i <= j)%nat -> (j < length data)%nat ->
  LatencyChart.stretch_of (slice data (Z.of_nat i) (Z.of_nat j + 1)) data
  /\ slice data (Z.of_nat i) (Z.of_nat j + 1) <> [].
Proof.
  intros Hij Hj. destruct (slice_splits data i j Hij Hj) as [Hsplit Hlen]. split.
  - exists (take i data), (drop (S j) data). exact Hsplit.
  - intros E. rewrite E in Hlen. simpl in Hlen. lia.
Qed.

End ChartLemmas.

Section Dragging.
Context {number : Type}.
Implicit Types (data : list (LatencyChart.LatencyDataPoint number)).
Implicit Types (st : LatencyChart.ChartState number).

Lemma truthy_nonempty (a : string) : a <> "" -> truthy (Some a) = true.
Proof. destruct a; [congruence|reflexivity]. Qed.

(** The state a drag from [a] to [b] leaves before the release. *)
Lemma drag_selects data st (a b : string) :
  a <> "" -> b <> "" ->
  fold_left (LatencyChart.handle data) (LatencyChart.drag a b) st
  = LatencyChart.handleMouseUp data
      {| LatencyChart.refAreaLeft := Some a;
         LatencyChart.refAreaRight := Some b;
         LatencyChart.zoomedData := LatencyChart.zoomedData st |}.
Proof.
  intros Ha Hb. destruct a; [congruence|]. destruct b; [congruence|]. reflexivity.
Qed.

(** A release with both boundaries found. *)
Lemma handleMouseUp_found data st (a b : string) (i j : nat) :
  a <> "" ->
  LatencyChart.refAreaLeft st = Some a ->
  or_else (LatencyChart.refAreaRight st) (LatencyChart.refAreaLeft st) = Some b ->
  findIndex (fun d : LatencyChart.LatencyDataPoint number =>
               Some (LatencyChart.date d) = Some a) data = Z.of_nat i ->
  findIndex (fun d : LatencyChart.LatencyDataPoint number =>
               Some (LatencyChart.date d) = Some b) data = Z.of_nat j ->
  LatencyChart.handleMouseUp data st
  = {| LatencyChart.refAreaLeft := None;
       LatencyChart.refAreaRight := None;
       LatencyChart.zoomedData :=
         Some (slice data (Z.of_nat (i `min` j)) (Z.of_nat (i `max` j) + 1)) |}.
Proof.
  intros Ha Hl Hor Hi Hj. unfold LatencyChart.handleMouseUp.
  rewrite Hor, Hl, (truthy_nonempty a Ha). cbn [negb].
  rewrite Hi, Hj.
  assert (E1 : (Z.of_nat i =? -1) = false) by (apply Z.eqb_neq; lia).
  assert (E2 : (Z.of_nat j =? -1) = false) by (apply Z.eqb_neq; lia).
  rewrite E1, E2. simpl.
  destruct (Z.of_nat i <? Z.of_nat j) eqn:Hlt.
  - apply Z.ltb_lt in Hlt.
    replace (i `min` j)%nat with i by lia. replace (i `max` j)%nat with j by lia.
    reflexivity.
  - apply Z.ltb_ge in Hlt.
    replace (i `min` j)%nat with j by lia. replace (i `max` j)%nat with i by lia.
    reflexivity.
Qed.

(** A release with a boundary that no point carries. *)
Lemma handleMouseUp_missing data st (a b : string) :
  a <> "" ->
  LatencyChart.refAreaLeft st = Some a ->
  or_else (LatencyChart.refAreaRight st) (LatencyChart.refAreaLeft st) = Some b ->
  (findIndex (fun d : LatencyChart.LatencyDataPoint number =>
                Some (LatencyChart.date d) = Some a) data = -1
   \/ findIndex (fun d : LatencyChart.LatencyDataPoint number =>
                   Some (LatencyChart.date d) = Some b) data = -1) ->
  LatencyChart.handleMouseUp data st
  = {| LatencyChart.refAreaLeft := None;
       LatencyChart.refAreaRight := None;
       LatencyChart.zoomedData := LatencyChart.zoomedData st |}.
Proof.
  intros Ha Hl Hor H. unfold LatencyChart.handleMouseUp.
  rewrite Hor, Hl, (truthy_nonempty a Ha). cbn [negb].
  destruct H as [H|H]; rewrite H; [reflexivity|].
  rewrite orb_true_r. reflexivity.
Qed.

Lemma or_else_nonempty (b : string) (a : option string) :
  b <> "" -> or_else (Some b) a = Some b.
Proof. intros Hb. unfold or_else. rewrite (truthy_nonempty b Hb). reflexivity. Qed.

(** With no date repeated, a point is found where it is. *)
Lemma findIndex_date data (k : nat) (p : LatencyChart.LatencyDataPoint number) :
  NoDup (map LatencyChart.date data) ->
  data !! k = Some p ->
  findIndex (fun d : LatencyChart.LatencyDataPoint number =>
               Some (LatencyChart.date d) = Some (LatencyChart.date p)) data
  = Z.of_nat k.
Proof.
  intros Hnd Hk. apply (findIndex_first _ data k p Hk); [reflexivity|].
  intros j y Hj Hlt Heq. injection Heq as Heq.
  assert (Hjk : j = k).
  { eapply NoDup_lookup; [exact Hnd| |].
    - rewrite list_lookup_fmap, Hj. simpl. reflexivity.
    - rewrite list_lookup_fmap, Hk. simpl. f_equal. symmetry. exact Heq. }
  lia.
Qed.

End Dragging.

Lemma findIndex_absent {A : Type} (P : A -> Prop) `{forall x, Decision (P x)} (l : list A) :
  findIndex P l = -1 -> forall x, x ∈ l -> ~ P x.
Proof.
  unfold findIndex. destruct (list_find P l) as [[i y]|] eqn:E; [lia|].
  intros _. apply list_find_None in E. rewrite Forall_forall in E. exact E.
Qed.

(** X14. Releasing the mouse always ends the selection.  It zooms exactly
    when a selection was started and both of its boundary labels are dates
    of points of the full [data]; the zoom then runs from the first point
    that carries the one label to the first point that carries the other,
    whichever comes first, and is not empty.  In every other case the zoom
    stays as it was. *)
Theorem handleMouseUp_zooms_to_a_stretch {number : Type}
    (data : list (LatencyChart.LatencyDataPoint number))
    (st : LatencyChart.ChartState number) :
  let st' := LatencyChart.handleMouseUp data st in
  let rightBoundary :=
    or_else (LatencyChart.refAreaRight st) (LatencyChart.refAreaLeft st) in
  let found (label : option string) :=
    exists p, p ∈ data /\ Some (LatencyChart.date p) = label in
  LatencyChart.refAreaLeft st' = None
  /\ LatencyChart.refAreaRight st' = None
  /\ (~ (truthy (LatencyChart.refAreaLeft st) = true
         /\ found (LatencyChart.refAreaLeft st) /\ found rightBoundary) ->
      LatencyChart.zoomedData st' = LatencyChart.zoomedData st)
  /\ (truthy (LatencyChart.refAreaLeft st) = true ->
      found (LatencyChart.refAreaLeft st) -> found rightBoundary ->
      exists (i j : nat) (p q : LatencyChart.LatencyDataPoint number),
        data !! i = Some p
        /\ Some (LatencyChart.date p) = LatencyChart.refAreaLeft st
        /\ (forall k r, data !! k = Some r -> (k < i)%nat ->
              Some (LatencyChart.date r) <> LatencyChart.refAreaLeft st)
        /\ data !! j = Some q
        /\ Some (LatencyChart.date q) = rightBoundary
        /\ (forall k r, data !! k = Some r -> (k < j)%nat ->
              Some (LatencyChart.date r) <> rightBoundary)
        /\ LatencyChart.zoomedData st'
           = Some (take (S (i `max` j) - i `min` j) (drop (i `min` j) data))
        /\ take (S (i `max` j) - i `min` j) (drop (i `min` j) data) <> []).
Proof.
  intros st' rightBoundary found.
  destruct (handleMouseUp_cases data st) as (Hl & Hr & _).
  split; [exact Hl|]. split; [exact Hr|].
  destruct (truthy (LatencyChart.refAreaLeft st)) eqn:Ht.
  2:{ split; [|discriminate]. intros _. subst st'.
      unfold LatencyChart.handleMouseUp. rewrite Ht. reflexivity. }
  destruct (LatencyChart.refAreaLeft st) as [a|] eqn:Ea; [|discriminate].
  assert (Ha : a <> "") by (intros ->; discriminate).
  assert (Hb : exists b, rightBoundary = Some b).
  { subst rightBoundary. unfold or_else.
    destruct (truthy (LatencyChart.refAreaRight st)) eqn:Hright; [|eauto].
    destruct (LatencyChart.refAreaRight st) as [b|]; [eauto|discriminate]. }
  destruct Hb as [b Eb].
  assert (Hor : or_else (LatencyChart.refAreaRight st) (LatencyChart.refAreaLeft st) = Some b)
    by (rewrite Ea; exact Eb).
  set (P := fun d : LatencyChart.LatencyDataPoint number =>
              Some (LatencyChart.date d) = Some a).
  set (Q := fun d : LatencyChart.LatencyDataPoint number =>
              Some (LatencyChart.date d) = Some b).
  split.
  - intros Hnot. subst st'.
    destruct (decide (findIndex P data = -1)) as [E1|E1].
    { rewrite (handleMouseUp_missing data st a b Ha Ea Hor (or_introl E1)). reflexivity. }
    destruct (decide (findIndex Q data = -1)) as [E2|E2].
    { rewrite (handleMouseUp_missing data st a b Ha Ea Hor (or_intror E2)). reflexivity. }
    exfalso. apply Hnot.
    destruct (findIndex_found P data E1) as (i & p & _ & Hi & HP & _).
    destruct (findIndex_found Q data E2) as (j & q & _ & Hj & HQ & _).
    split; [reflexivity|]. split.
    + exists p. split; [eapply list_elem_of_lookup_2; exact Hi|exact HP].
    + exists q. split; [eapply list_elem_of_lookup_2; exact Hj|].
      rewrite Eb. exact HQ.
  - intros _ (p0 & Hp0 & Hp0a) (q0 & Hq0 & Hq0b). rewrite Eb in Hq0b.
    assert (E1 : findIndex P data <> -1)
      by (intros E; exact (findIndex_absent P data E p0 Hp0 Hp0a)).
    assert (E2 : findIndex Q data <> -1)
      by (intros E; exact (findIndex_absent Q data E q0 Hq0 Hq0b)).
    destruct (findIndex_found P data E1) as (i & p & Ei & Hi & HP & Hfirsti).
    destruct (findIndex_found Q data E2) as (j & q & Ej & Hj & HQ & Hfirstj).
    exists i, j, p, q.
    split; [exact Hi|]. split; [exact HP|]. split; [exact Hfirsti|].
    split; [exact Hj|]. split; [rewrite Eb; exact HQ|].
    split; [rewrite Eb; exact Hfirstj|].
    assert (Hil : (i < length data)%nat) by (apply lookup_lt_is_Some; eauto).
    assert (Hjl : (j < length data)%nat) by (apply lookup_lt_is_Some; eauto).
    subst st'. rewrite (handleMouseUp_found data st a b i j Ha Ea Hor Ei Ej).
    cbn [LatencyChart.zoomedData].
    rewrite (slice_inside data (i `min` j) (i `max` j)) by lia.
    split; [reflexivity|].
    intros E. apply (f_equal length) in E.
    rewrite length_take, length_drop in E. simpl in E. lia.
Qed.


(** X16. The direction of a drag does not matter: pressing at [a] and
    releasing at [b] leaves the chart in the state that pressing at [b] and
    releasing at [a] leaves it in. *)
Theorem drag_direction_does_not_matter {number : Type}
    (data : list (LatencyChart.LatencyDataPoint number))
    (st : LatencyChart.ChartState number) (a b : string) :
  a <> "" -> b <> "" ->
  fold_left (LatencyChart.handle data) (LatencyChart.drag a b) st
  = fold_left (LatencyChart.handle data) (LatencyChart.drag b a) st.
Proof.
  intros Ha Hb. rewrite !drag_selects by assumption.
  set (P := fun d : LatencyChart.LatencyDataPoint number =>
              Some (LatencyChart.date d) = Some a).
  set (Q := fun d : LatencyChart.LatencyDataPoint number =>
              Some (LatencyChart.date d) = Some b).
  set (sab := {| LatencyChart.refAreaLeft := Some a;
                 LatencyChart.refAreaRight := Some b;
                 LatencyChart.zoomedData := LatencyChart.zoomedData st |}).
  set (sba := {| LatencyChart.refAreaLeft := Some b;
                 LatencyChart.refAreaRight := Some a;
                 LatencyChart.zoomedData := LatencyChart.zoomedData st |}).
  assert (Hab : or_else (LatencyChart.refAreaRight sab) (LatencyChart.refAreaLeft sab)
                = Some b) by (apply or_else_nonempty; exact Hb).
  assert (Hba : or_else (LatencyChart.refAreaRight sba) (LatencyChart.refAreaLeft sba)
                = Some a) by (apply or_else_nonempty; exact Ha).
  destruct (decide (findIndex P data = -1)) as [E1|E1].
  { rewrite (handleMouseUp_missing data sab a b Ha eq_refl Hab (or_introl E1)).
    rewrite (handleMouseUp_missing data sba b a Hb eq_refl Hba (or_intror E1)).
    reflexivity. }
  destruct (decide (findIndex Q data = -1)) as [E2|E2].
  { rewrite (handleMouseUp_missing data sab a b Ha eq_refl Hab (or_intror E2)).
    rewrite (handleMouseUp_missing data sba b a Hb eq_refl Hba (or_introl E2)).
    reflexivity. }
  destruct (findIndex_found P data E1) as (i & p & Ei & _).
  destruct (findIndex_found Q data E2) as (j & q & Ej & _).
  rewrite (handleMouseUp_found data sab a b i j Ha eq_refl Hab Ei Ej).
  rewrite (handleMouseUp_found data sba b a j i Hb eq_refl Hba Ej Ei).
  rewrite (Nat.min_comm j i), (Nat.max_comm j i). reflexivity.
Qed.

(** Worked example for X16, on three measurements. *)
Lemma drag_direction_does_not_matter_witness :
  LatencyChart.zoomedData
    (fold_left (LatencyChart.handle LatencyChart.three_points)
       (LatencyChart.drag "2024-01-03" "2024-01-02") LatencyChart.initial)
  = Some (drop 1 LatencyChart.three_points).
Proof.
  rewrite (drag_direction_does_not_matter LatencyChart.three_points
             LatencyChart.initial "2024-01-03" "2024-01-02"); [|discriminate|discriminate].
  vm_compute. reflexivity.
Defined.

(** X17. A click, that is a press and a release with no move between them,
    on a label that [data] has zooms to one point: the first one that
    carries the label. *)
Theorem click_zooms_to_one_point {number : Type}
    (data : list (LatencyChart.LatencyDataPoint number))
    (st : LatencyChart.ChartState number) (a : string) :
  a <> "" ->
  a ∈ map LatencyChart.date data ->
  exists (k : nat) (p : LatencyChart.LatencyDataPoint number),
    data !! k = Some p
    /\ LatencyChart.date p = a
    /\ (forall j q, data !! j = Some q -> (j < k)%nat -> LatencyChart.date q <> a)
    /\ fold_left (LatencyChart.handle data)
         [LatencyChart.MouseDown (LatencyChart.at_label a); LatencyChart.MouseUp] st
       = {| LatencyChart.refAreaLeft := None;
            LatencyChart.refAreaRight := None;
            LatencyChart.zoomedData := Some [p] |}.
Proof.
  intros Ha Hin.
  set (P := fun d : LatencyChart.LatencyDataPoint number =>
              Some (LatencyChart.date d) = Some a).
  assert (E : findIndex P data <> -1).
  { unfold findIndex. destruct (list_find P data) as [[i x]|] eqn:E; [lia|].
    exfalso. apply list_find_None in E.
    apply list_elem_of_fmap in Hin. destruct Hin as (p & -> & Hp).
    rewrite Forall_forall in E. apply (E p Hp). reflexivity. }
  destruct (findIndex_found P data E) as (k & p & Ek & Hk & HP & Hfirst).
  injection HP as HP.
  exists k, p. split; [exact Hk|]. split; [exact HP|]. split.
  { intros j q Hj Hlt Hq. apply (Hfirst j q Hj Hlt). unfold P. congruence. }
  set (s1 := {| LatencyChart.refAreaLeft := Some a;
                LatencyChart.refAreaRight := None;
                LatencyChart.zoomedData := LatencyChart.zoomedData st |}).
  assert (Hdown : fold_left (LatencyChart.handle data)
            [LatencyChart.MouseDown (LatencyChart.at_label a); LatencyChart.MouseUp] st
          = LatencyChart.handleMouseUp data s1).
  { destruct a; [congruence|]. reflexivity. }
  rewrite Hdown.
  rewrite (handleMouseUp_found data s1 a a k k Ha eq_refl eq_refl Ek Ek).
  rewrite Nat.min_id, Nat.max_id.
  assert (Hlen : (k < length data)%nat) by (apply lookup_lt_is_Some; eauto).
  rewrite (slice_inside data k k (le_n k) Hlen).
  replace (S k - k)%nat with 1%nat by lia.
  rewrite (drop_S data p k Hk). reflexivity.
Qed.

Lemma click_zooms_to_one_point_witness :
  exists p,
    LatencyChart.date p = "2024-01-02"
    /\ LatencyChart.zoomedData
         (fold_left (LatencyChart.handle LatencyChart.three_points)
            [LatencyChart.MouseDown (LatencyChart.at_label "2024-01-02");
             LatencyChart.MouseUp] LatencyChart.initial)
       = Some [p].
Proof.
  destruct (click_zooms_to_one_point LatencyChart.three_points LatencyChart.initial
              "2024-01-02") as (k & p & _ & Hp & _ & Hz).
  - discriminate.
  - vm_compute. set_solver.
  - exists p. split; [exact Hp|]. rewrite Hz. reflexivity.
Defined.

(** X18. With no date repeated in [data], zooming inside a zoom narrows
    it: when the chart shows a stretch of [data] and the user drags between
    two of the points shown, the new zoom is a stretch of what was shown,
    and runs from one of the two points to the other. *)
Theorem drag_inside_zoom_narrows {number : Type}
    (data : list (LatencyChart.LatencyDataPoint number))
    (st : LatencyChart.ChartState number)
    (p q : LatencyChart.LatencyDataPoint number) :
  NoDup (map LatencyChart.date data) ->
  LatencyChart.stretch_of (LatencyChart.displayData data st) data ->
  p ∈ LatencyChart.displayData data st ->
  q ∈ LatencyChart.displayData data st ->
  LatencyChart.date p <> "" ->
  LatencyChart.date q <> "" ->
  exists zoomed,
    LatencyChart.zoomedData
      (fold_left (LatencyChart.handle data)
         (LatencyChart.drag (LatencyChart.date p) (LatencyChart.date q)) st)
    = Some zoomed
    /\ LatencyChart.stretch_of zoomed (LatencyChart.displayData data st)
    /\ ((head zoomed = Some p /\ last zoomed = Some q)
        \/ (head zoomed = Some q /\ last zoomed = Some p)).
Proof.
  intros Hnd (before & after_it & Hdata) Hp Hq Hpd Hqd.
  set (shown := LatencyChart.displayData data st) in *.
  apply list_elem_of_lookup in Hp, Hq.
  destruct Hp as [i Hi]. destruct Hq as [j Hj].
  assert (Hil : (i < length shown)%nat) by (apply lookup_lt_is_Some; eauto).
  assert (Hjl : (j < length shown)%nat) by (apply lookup_lt_is_Some; eauto).
  assert (Hat : forall k x, shown !! k = Some x -> data !! (length before + k)%nat = Some x).
  { intros k x Hk. rewrite Hdata. rewrite lookup_app_r by lia.
    replace (length before + k - length before)%nat with k by lia.
    rewrite lookup_app_l by (apply lookup_lt_is_Some; eauto). exact Hk. }
  pose proof (findIndex_date data _ p Hnd (Hat i p Hi)) as Ei.
  pose proof (findIndex_date data _ q Hnd (Hat j q Hj)) as Ej.
  rewrite (drag_selects data st _ _ Hpd Hqd).
  set (s1 := {| LatencyChart.refAreaLeft := Some (LatencyChart.date p);
                LatencyChart.refAreaRight := Some (LatencyChart.date q);
                LatencyChart.zoomedData := LatencyChart.zoomedData st |}).
  rewrite (handleMouseUp_found data s1 _ _ _ _ Hpd eq_refl
             (or_else_nonempty _ _ Hqd) Ei Ej).
  cbn [LatencyChart.zoomedData].
  assert (Hends : exists lo hi : nat,
            (lo <= hi)%nat /\ (hi < length shown)%nat
            /\ ((length before + i) `min` (length before + j))%nat
               = (length before + lo)%nat
            /\ ((length before + i) `max` (length before + j))%nat
               = (length before + hi)%nat
            /\ ((shown !! lo = Some p /\ shown !! hi = Some q)
                \/ (shown !! lo = Some q /\ shown !! hi = Some p))).
  { destruct (decide (i <= j)%nat).
    - exists i, j. repeat (split; [lia|]). left. split; assumption.
    - exists j, i. repeat (split; [lia|]). right. split; assumption. }
  destruct Hends as (lo & hi & Hlohi & Hhi & -> & -> & Hpq).
  assert (Hlen : length data = (length before + length shown + length after_it)%nat)
    by (rewrite Hdata, !length_app; lia).
  assert (Hslice : slice data (Z.of_nat (length before + lo))
                     (Z.of_nat (length before + hi) + 1)
                   = take (S hi - lo) (drop lo shown)).
  { rewrite slice_inside by lia.
    replace (S (length before + hi) - (length before + lo))%nat with (S hi - lo)%nat by lia.
    rewrite Hdata at 1. rewrite <- drop_drop, drop_app_length.
    rewrite drop_app_le by lia.
    rewrite take_app_le by (rewrite length_drop; lia). reflexivity. }
  rewrite Hslice.
  exists (take (S hi - lo) (drop lo shown)). split; [reflexivity|]. split.
  - exists (take lo shown), (drop (S hi) shown).
    rewrite <- (take_drop lo shown) at 1. f_equal.
    rewrite <- (take_drop (S hi - lo) (drop lo shown)) at 1. f_equal.
    rewrite drop_drop. f_equal. lia.
  - assert (Hhead : forall x, shown !! lo = Some x ->
                      head (take (S hi - lo) (drop lo shown)) = Some x).
    { intros x Hx. rewrite head_lookup, lookup_take_lt by lia. rewrite lookup_drop.
      replace (lo + 0)%nat with lo by lia. exact Hx. }
    assert (Hlast : forall x, shown !! hi = Some x ->
                      last (take (S hi - lo) (drop lo shown)) = Some x).
    { intros x Hx. rewrite last_lookup, length_take, length_drop.
      replace (Init.Nat.pred ((S hi - lo) `min` (length shown - lo)))%nat
        with (hi - lo)%nat by lia.
      rewrite lookup_take_lt by lia. rewrite lookup_drop.
      replace (lo + (hi - lo))%nat with hi by lia. exact Hx. }
    destruct Hpq as [[Hlo' Hhi']|[Hlo' Hhi']]; [left|right]; split; auto.
Qed.

(** Worked example for X18: inside the zoom on the last two of three
    measurements, a click on the last one. *)
Lemma drag_inside_zoom_narrows_witness :
  let st := fold_left (LatencyChart.handle LatencyChart.three_points)
              (LatencyChart.drag "2024-01-02" "2024-01-03") LatencyChart.initial in
  exists p,
    LatencyChart.displayData LatencyChart.three_points st !! 1%nat = Some p
    /\ exists zoomed,
         LatencyChart.zoomedData
           (fold_left (LatencyChart.handle LatencyChart.three_points)
              (LatencyChart.drag (LatencyChart.date p) (LatencyChart.date p)) st)
         = Some zoomed
         /\ head zoomed = Some p.
Proof.
  intros st.
  destruct (LatencyChart.displayData LatencyChart.three_points st !! 1%nat)
    as [p|] eqn:Hp; [|vm_compute in Hp; discriminate].
  exists p. split; [reflexivity|].
  assert (Hin : p ∈ LatencyChart.displayData LatencyChart.three_points st)
    by (eapply list_elem_of_lookup_2; exact Hp).
  assert (Hd : LatencyChart.date p <> "")
    by (vm_compute in Hp; injection Hp as <-; discriminate).
  destruct (drag_inside_zoom_narrows LatencyChart.three_points st p p)
    as (zoomed & Hz & _ & Hends); try assumption.
  - vm_compute. repeat constructor; set_solver.
  - exists (take 1 LatencyChart.three_points), []. vm_compute. reflexivity.
  - exists zoomed. split; [exact Hz|]. destruct Hends as [[H _]|[H _]]; exact H.
Defined.

(* ===================================================================== *)
(** * The row of a monitor *)
(* ===================================================================== *)

Lemma or_text_nonempty (a : option string) (text : string) :
  text <> "" -> or_text a text <> "".
Proof. intros Ht. destruct a as [[|c rest]|]; simpl; congruence. Qed.


Section Handlers.
Variable w : MonitorRow.World.
Variable schedule : MonitorRow.Schedule.

Lemma handleTogglePause_run (ui : MonitorRow.UI) :
  let request :=
    if MonitorRow.isPaused schedule
    then MonitorRow.resumeSchedule (MonitorRow.id schedule)
    else MonitorRow.pauseSchedule (MonitorRow.id schedule) in
  let text :=
    if MonitorRow.isPaused schedule then "Monitor resumed" else "Monitor paused" in
  let failed thrown :=
    MonitorRow.ToastError (MonitorRow.errorMessage thrown "Failed to update monitor") in
  MonitorRow.handleTogglePause w schedule ui
  = (inl tt,
     {| MonitorRow.isPausing := false;
        MonitorRow.effects :=
          (MonitorRow.effects ui
           ++ MonitorRow.MutateAsync request
              :: match MonitorRow.settles w request with
                 | Some thrown => [failed thrown]
                 | None =>
                     MonitorRow.ToastSuccess text :: MonitorRow.OnRefetch
                     :: match MonitorRow.onRefetch w with
                        | Some thrown => [failed thrown]
                        | None => []
                        end
                 end)%list |}).
Proof.
  unfold MonitorRow.handleTogglePause, MonitorRow.finally, MonitorRow.catch,
    MonitorRow.mutateAsync, MonitorRow.toast_success, MonitorRow.toast_error,
    MonitorRow.effect, MonitorRow.setIsPausing,
    mbind, MonitorRow.Run_bind, MonitorRow.and_then.
  destruct (MonitorRow.isPaused schedule); simpl;
    (match goal with
     | |- context [MonitorRow.settles w ?r] => destruct (MonitorRow.settles w r)
     end; simpl;
     [|destruct (MonitorRow.onRefetch w); simpl]);
    repeat rewrite <- app_assoc; reflexivity.
Qed.

Lemma handleDelete_run (ui : MonitorRow.UI) :
  let request := MonitorRow.deleteSchedule (MonitorRow.id schedule) in
  let failed thrown :=
    MonitorRow.ToastError (MonitorRow.errorMessage thrown "Failed to delete monitor") in
  MonitorRow.handleDelete w schedule ui
  = (inl tt,
     {| MonitorRow.isPausing := MonitorRow.isPausing ui;
        MonitorRow.effects :=
          (MonitorRow.effects ui
           ++ MonitorRow.MutateAsync request
              :: match MonitorRow.settles w request with
                 | Some thrown => [failed thrown]
                 | None =>
                     MonitorRow.ToastSuccess "Monitor deleted" :: MonitorRow.OnDelete
                     :: match MonitorRow.onDelete w with
                        | Some thrown => [failed thrown]
                        | None => []
                        end
                 end)%list |}).
Proof.
  unfold MonitorRow.handleDelete, MonitorRow.catch,
    MonitorRow.mutateAsync, MonitorRow.toast_success, MonitorRow.toast_error,
    MonitorRow.effect, mbind, MonitorRow.Run_bind, MonitorRow.and_then.
  simpl.
  destruct (MonitorRow.settles w _); simpl;
    [|destruct (MonitorRow.onDelete w); simpl];
    repeat rewrite <- app_assoc; reflexivity.
Qed.

End Handlers.

(** X20. Pausing or resuming never rejects and never leaves the row busy:
    whatever the server answers and whatever the page's [onRefetch] does,
    [handleTogglePause] returns with [isPausing] false, has sent exactly one
    request, to resume a paused monitor and to pause a running one, and has
    shown at least one toast.  [onRefetch] is called exactly when the
    request succeeded, and an error toast is shown exactly when the request
    failed or [onRefetch] threw, with the message of what was thrown. *)
Theorem handleTogglePause_settles (w : MonitorRow.World)
    (schedule : MonitorRow.Schedule) (ui : MonitorRow.UI) :
  let request :=
    if MonitorRow.isPaused schedule
    then MonitorRow.resumeSchedule (MonitorRow.id schedule)
    else MonitorRow.pauseSchedule (MonitorRow.id schedule) in
  let run := MonitorRow.handleTogglePause w schedule ui in
  exists new,
    fst run = inl tt
    /\ MonitorRow.isPausing (snd run) = false
    /\ MonitorRow.effects (snd run) = (MonitorRow.effects ui ++ new)%list
    /\ List.filter MonitorRow.is_request new = [MonitorRow.MutateAsync request]
    /\ (1 <= length (List.filter MonitorRow.is_toast new) <= 2)%nat
    /\ (MonitorRow.OnRefetch ∈ new <-> MonitorRow.settles w request = None)
    /\ (forall text,
          MonitorRow.ToastError text ∈ new <->
          exists thrown,
            text = MonitorRow.errorMessage thrown "Failed to update monitor"
            /\ (MonitorRow.settles w request = Some thrown
                \/ (MonitorRow.settles w request = None
                    /\ MonitorRow.onRefetch w = Some thrown))).
Proof.
  intros request run. subst run. rewrite handleTogglePause_run. fold request.
  eexists. split; [reflexivity|]. split; [reflexivity|]. split; [reflexivity|].
  destruct (MonitorRow.settles w request) as [thrown|] eqn:Es;
    [|destruct (MonitorRow.onRefetch w) as [thrown|] eqn:Er];
    (split; [reflexivity|]); (split; [simpl; lia|]); split.
  - split; [|discriminate]. intros H. set_solver.
  - intros text. split.
    + intros H. exists thrown. split; [set_solver|left; reflexivity].
    + intros (t & -> & [[= ->]|[[=] _]]). set_solver.
  - split; [reflexivity|]. intros _. set_solver.
  - intros text. split.
    + intros H. exists thrown. split; [set_solver|right; split; reflexivity].
    + intros (t & -> & [[=]|[_ [= ->]]]). set_solver.
  - split; [reflexivity|]. intros _. set_solver.
  - intros text. split.
    + intros H. set_solver.
    + intros (t & _ & [[=]|[_ [=]]]).
Qed.

(** X21. Deleting never rejects either: [handleDelete] sends one request to
    delete this monitor and leaves [isPausing] alone; the page's [onDelete]
    is called exactly when the request succeeded, and otherwise, or when
    [onDelete] threw, an error toast carries the message of what was
    thrown. *)
Theorem handleDelete_settles (w : MonitorRow.World)
    (schedule : MonitorRow.Schedule) (ui : MonitorRow.UI) :
  let request := MonitorRow.deleteSchedule (MonitorRow.id schedule) in
  let run := MonitorRow.handleDelete w schedule ui in
  exists new,
    fst run = inl tt
    /\ MonitorRow.isPausing (snd run) = MonitorRow.isPausing ui
    /\ MonitorRow.effects (snd run) = (MonitorRow.effects ui ++ new)%list
    /\ List.filter MonitorRow.is_request new = [MonitorRow.MutateAsync request]
    /\ (MonitorRow.OnDelete ∈ new <-> MonitorRow.settles w request = None)
    /\ (MonitorRow.ToastSuccess "Monitor deleted" ∈ new
        <-> MonitorRow.settles w request = None)
    /\ (forall text,
          MonitorRow.ToastError text ∈ new <->
          exists thrown,
            text = MonitorRow.errorMessage thrown "Failed to delete monitor"
            /\ (MonitorRow.settles w request = Some thrown
                \/ (MonitorRow.settles w request = None
                    /\ MonitorRow.onDelete w = Some thrown))).
Proof.
  intros request run. subst run. rewrite handleDelete_run. fold request.
  eexists. split; [reflexivity|]. split; [reflexivity|]. split; [reflexivity|].
  destruct (MonitorRow.settles w request) as [thrown|] eqn:Es;
    [|destruct (MonitorRow.onDelete w) as [thrown|] eqn:Er];
    (split; [reflexivity|]); split; [| split | | split | | split].
  - split; [|discriminate]. intros H. set_solver.
  - split; [|discriminate]. intros H. set_solver.
  - intros text. split.
    + intros H. exists thrown. split; [set_solver|left; reflexivity].
    + intros (t & -> & [[= ->]|[[=] _]]). set_solver.
  - split; [reflexivity|]. intros _. set_solver.
  - split; [reflexivity|]. intros _. set_solver.
  - intros text. split.
    + intros H. exists thrown. split; [set_solver|right; split; reflexivity].
    + intros (t & -> & [[=]|[_ [= ->]]]). set_solver.
  - split; [reflexivity|]. intros _. set_solver.
  - split; [reflexivity|]. intros _. set_solver.
  - intros text. split.
    + intros H. set_solver.
    + intros (t & _ & [[=]|[_ [=]]]).
Qed.

(* ===================================================================== *)
(** * The database client *)
(* ===================================================================== *)

(** What [put] and [get] send, with a store handle. *)
Lemma put_get_wire this handle key rows tables isTag config s :
  redis this = Some handle ->
  wire (after (put this key rows tables isTag config) s)
  = (wire s ++ [SETEX (formatKey this key) (seconds this config (clock s))
                  (JSON.stringify rows)])%list
  /\ wire (after (get this key) s) = (wire s ++ [GET (formatKey this key)])%list.
Proof.
  intros Hh. unfold after. split.
  - rewrite put_run, Hh. cbv zeta.
    destruct (lost s); [reflexivity|].
    destruct (0 <? seconds this config (clock s)); [|reflexivity].
    match goal with
    | |- context [track key tables ?s1] =>
        destruct (track_frame key tables s1) as (_ & _ & _ & Hw & _);
        unfold after in Hw; destruct (track key tables s1) as [[[]|e] s2]
    end; simpl in *; rewrite Hw; reflexivity.
  - rewrite get_run, Hh. cbv zeta.
    destruct (lost s); [reflexivity|].
    destruct (readable s (formatKey this key)) as [text|]; [|reflexivity].
    destruct (String.eqb text EmptyString); [reflexivity|].
    destruct (JSON.parse text); reflexivity.
Qed.

(** X23. Loading the client with both variables set exports a database
    with a cache whose handle is for [REDIS_URL], and sends nothing.  That
    cache keeps every entry under the key prefixed with [drizzle:db:]: a
    [put] without TTL hints sends one [SETEX] of that key with 300 seconds
    and the JSON text of the rows, and a [get] sends one [GET] of it, in
    every state. *)
Theorem client_cache_commands (env : Client.Env) (s0 : State) :
  truthy (Client.DATABASE_URL env) = true ->
  truthy (Client.REDIS_URL env) = true ->
  exists databaseUrl redisUrl this,
    Client.DATABASE_URL env = Some databaseUrl
    /\ Client.REDIS_URL env = Some redisUrl
    /\ fst (Client.load env s0)
       = Client.Exports {| Client.connection := databaseUrl; Client.cache := Some this |}
    /\ redis this = Some {| url := redisUrl |}
    /\ keyspace (snd (Client.load env s0)) = keyspace s0
    /\ wire (snd (Client.load env s0)) = wire s0
    /\ forall key rows (tables : list string) isTag s,
         wire (after (put this key rows tables isTag None) s)
         = (wire s ++ [SETEX ("drizzle:db:" ++ key) 300 (JSON.stringify rows)])%list
         /\ wire (after (get this key) s)
            = (wire s ++ [GET ("drizzle:db:" ++ key)])%list.
Proof.
  intros Hdb Hredis.
  destruct (Client.DATABASE_URL env) as [[|c databaseUrl]|] eqn:Edb; try discriminate.
  destruct (Client.REDIS_URL env) as [[|c' redisUrl]|] eqn:Er; try discriminate.
  exists (String c databaseUrl), (String c' redisUrl).
  eexists. split; [reflexivity|]. split; [reflexivity|].
  unfold Client.load. rewrite Edb, Er. simpl.
  split; [reflexivity|]. split; [reflexivity|]. split; [reflexivity|].
  split; [reflexivity|].
  intros key rows tables isTag s.
  set (cache := {| redis := Some {| url := String c' redisUrl |};
                   defaultTtl := 300;
                   namespace := "drizzle:db";
                   _strategy := strategy_all |}).
  exact (put_get_wire cache _ key rows tables isTag None s eq_refl).
Qed.

Lemma client_cache_commands_witness :
  exists this,
    Client.cache <$> (match fst (Client.load Client.local boot) with
                      | Client.Exports db => Some db
                      | _ => None
                      end) = Some (Some this)
    /\ wire (after (get this "q1")
               (after (put this "q1" one_row ["users"] false None) boot))
       = [SETEX "drizzle:db:q1" 300 (JSON.stringify one_row); GET "drizzle:db:q1"].
Proof.
  destruct (client_cache_commands Client.local boot eq_refl eq_refl)
    as (databaseUrl & redisUrl & this & _ & _ & Hload & _ & _ & _ & Hsends).
  exists this. rewrite Hload. split; [reflexivity|].
  destruct (Hsends "q1" one_row ["users"] false
              (after (put this "q1" one_row ["users"] false None) boot)) as [_ Hget].
  destruct (Hsends "q1" one_row ["users"] false boot) as [Hput _].
  rewrite Hget, Hput. reflexivity.
Defined.

(** X24. Without [DATABASE_URL], or with an empty one, loading the client
    fails before anything is built, whatever [REDIS_URL] is; with it, the
    load succeeds, and the database has a cache exactly when [REDIS_URL] is
    set and not empty. *)
Theorem client_load_needs_database_url (env : Client.Env) (s : State) :
  (truthy (Client.DATABASE_URL env) = false ->
   Client.load env s = (Client.Fails "DATABASE_URL is not set", s))
  /\ (truthy (Client.DATABASE_URL env) = true ->
      exists db, fst (Client.load env s) = Client.Exports db
                 /\ Some (Client.connection db) = Client.DATABASE_URL env
                 /\ (is_Some (Client.cache db) <-> truthy (Client.REDIS_URL env) = true)).
Proof.
  unfold Client.load.
  destruct (Client.DATABASE_URL env) as [[|c databaseUrl]|]; simpl;
    (split; [intros H; try discriminate; reflexivity|intros H; try discriminate]).
  destruct (truthy (Client.REDIS_URL env)); simpl; eexists;
    (split; [reflexivity|split; [reflexivity|]]); simpl.
  - split; [reflexivity|]. intros _. eexists. reflexivity.
  - split; [intros [x Hx]; discriminate|discriminate].
Qed.

(* ===================================================================== *)
(** * The transport of the agent chat *)
(* ===================================================================== *)

(** X25. A request to the agent carries the last message and nothing of
    the conversation before it: two histories that end in the same message
    give the same request, for this chat and website; and preparing a
    request fails exactly when there is no message at all. *)
Theorem prepareSendMessagesRequest_sends_last_only {Message : Type}
    (chatId websiteId timeZone : string) (messages : list Message) :
  (AgentChat.prepareSendMessagesRequest chatId websiteId timeZone messages
   = AgentChat.Error "No messages to send" <-> messages = [])
  /\ forall (earlier other : list Message) (m : Message),
       AgentChat.prepareSendMessagesRequest chatId websiteId timeZone (earlier ++ [m])
       = AgentChat.prepareSendMessagesRequest chatId websiteId timeZone (other ++ [m])
       /\ exists body,
            AgentChat.prepareSendMessagesRequest chatId websiteId timeZone (earlier ++ [m])
            = AgentChat.Request body
            /\ AgentChat.Body.message body = m
            /\ AgentChat.Body.id _ body = chatId
            /\ AgentChat.Body.websiteId _ body = websiteId.
Proof.
  unfold AgentChat.prepareSendMessagesRequest. split.
  - destruct messages as [|m rest] using rev_ind; [split; reflexivity|].
    rewrite last_snoc. split; [discriminate|].
    intros H. destruct rest; discriminate.
  - intros earlier other m. rewrite !last_snoc.
    split; [reflexivity|]. eexists. split; [reflexivity|]. repeat split.
Qed.
